(** * simplefs: the in-memory file system [MemFS]

    A shallow embedding of the tree-backed [MemFS] of package [simplefs]
    (the [dirNode] tree, the facade operations [Create], [Append], [Open],
    [ReadDir], [ListFiles], the write handle [writeCloser] and the read
    handles [memFile] and [memDir]) together with the properties its
    specification states about it.

    Modelling conventions.
    - Go pointers to [dirNode] are indices into a store ([list dirNode]);
      allocation appends to the store.  A handle that captured a pointer
      (the closure of [Append]) holds the index, so aliasing is kept.
    - A Go slice that may be [nil] is an [option (list _)]: [None] is the
      [nil] slice, [Some []] an empty non-nil slice.
    - Go strings are byte strings: [string]; file contents are [list byte].
    - Byte slices are values.  In Go the content of a node shares its
      backing array with the buffer of the handle that committed it; that
      shows only when a handle is written to after it was closed, and the
      statements about contents are about handles used before their
      [Close].
    - Every facade operation runs under the lock of the [MemFS], so an
      operation is one atomic state transformer; the lock itself is not
      modelled.  Interleavings of several clients are sequences of
      operations ([action], [run]).
    - [sort.Sort] and [sort.Slice] are modelled by insertion sort; the
      proofs use only that the result is an ascending permutation, which
      holds of any sorting algorithm.

    The flat-map [MemFS] of [mem_fs.go] is modelled in [FlatMap] as far as
    the comparison of the two needs it. *)

From Stdlib Require Import String Ascii ZArith Lia List Sorted Permutation.
From Stdlib Require Import Init.Byte.
From stdpp Require Import base list strings gmap.

Open Scope string_scope.
Open Scope list_scope.

(** ** Errors and results *)

(** [ErrNotFound] and [io.EOF] are sentinel values; [fmt.Errorf] builds a
    fresh error carrying its message. *)
Inductive error : Type :=
  | ErrNotFound
  | EOF
  | Errorf (msg : string).

(** A call either returns or panics (nil dereference, index out of range). *)
Inductive outcome (A : Type) : Type :=
  | Returns (a : A)
  | Panics.
Arguments Returns {A} a.
Arguments Panics {A}.

(** ** Directory entries *)

Record dirEntry : Type := mkDirEntry { name : string; isDir : bool }.

(** ** The node tree *)

Record dirNode : Type := mkDirNode {
  Name : string;
  Parent : option nat;
  Children : list nat;
  B : option (list byte)
}.

(** The store of allocated nodes; a pointer is an index into it. *)
Abbreviation store := (list dirNode).

(** [node.IsDirectory()]: [node.B == nil]. *)
Definition IsDirectory (node : dirNode) : bool :=
  match B node with
  | None => true
  | Some _ => false
  end.

(** The node behind a pointer.  Every index the operations store in a node
    or a handle was allocated before, so the default is never reached from
    the empty store (see [wf]). *)
Definition deref (h : store) (i : nat) : dirNode :=
  match h !! i with
  | Some nd => nd
  | None => mkDirNode "" None [] None
  end.

(** [strings.Split(name, "/")]: the substrings between the separators; the
    result has one more element than there are separators. *)
Fixpoint nameToPath (s : string) : list string :=
  match s with
  | EmptyString => [EmptyString]
  | String c rest =>
      if Ascii.eqb c "/"%char then EmptyString :: nameToPath rest
      else match nameToPath rest with
           | seg :: segs => String c seg :: segs
           | [] => [String c EmptyString]
           end
  end.

(** [dirNodeSlice.Get]: the first element of the slice with that name. *)
Fixpoint dirNodeSlice_Get (h : store) (s : list nat) (nm : string) : option nat :=
  match s with
  | [] => None
  | c :: s' =>
      match h !! c with
      | Some nd => if String.eqb (Name nd) nm then Some c else dirNodeSlice_Get h s' nm
      | None => dirNodeSlice_Get h s' nm
      end
  end.

(** One step of [dirNode.Get]: the [switch] on the first segment. *)
Definition Get_step (h : store) (node : nat) (p : string) : option nat :=
  if String.eqb p "." then Some node
  else if String.eqb p ".." then
    match h !! node with Some nd => Parent nd | None => None end
  else
    match h !! node with
    | Some nd => dirNodeSlice_Get h (Children nd) p
    | None => None
    end.

(** [dirNode.Get].  The source panics on an empty path; [nameToPath] never
    produces one (lemma [nameToPath_nonempty]), and the model returns [None]
    there. *)
Fixpoint Get (h : store) (node : nat) (path : list string) : option nat :=
  match path with
  | [] => None
  | p :: rest =>
      match Get_step h node p with
      | None => None
      | Some next =>
          match rest with
          | [] => Some next
          | _ :: _ => Get h next rest
          end
      end
  end.

(** [sort.Sort] and [sort.Slice] order a slice by a strict [Less]; the
    model is insertion sort. *)
Section Sorting.
Context {A : Type} (less : A -> A -> bool).

Fixpoint sort_insert (x : A) (l : list A) : list A :=
  match l with
  | [] => [x]
  | y :: l' => if less x y then x :: y :: l' else y :: sort_insert x l'
  end.

Fixpoint sort_by (l : list A) : list A :=
  match l with
  | [] => []
  | x :: l' => sort_insert x (sort_by l')
  end.

(** [ascending a b]: [b] is not less than [a]. *)
Definition ascending (a b : A) : Prop := less b a = false.
End Sorting.

Definition nodeName (h : store) (i : nat) : string :=
  match h !! i with Some nd => Name nd | None => EmptyString end.

(** [dirNodeSlice.Less]: [s[i].Name < s[j].Name]. *)
Definition dirNodeSlice_Less (h : store) (i j : nat) : bool :=
  String.ltb (nodeName h i) (nodeName h j).

(** [dirNode.AddChild]: allocate the child, append it to the children of
    [node] and sort them by name. *)
Definition AddChild (h : store) (node : nat) (nm : string) (b : option (list byte))
  : store * nat :=
  let child := length h in
  let h1 := h ++ [mkDirNode nm (Some node) [] b] in
  match h1 !! node with
  | Some nd =>
      let cs := sort_by (dirNodeSlice_Less h1) (Children nd ++ [child]) in
      (<[node := mkDirNode (Name nd) (Parent nd) cs (B nd)]> h1, child)
  | None => (h1, child)
  end.

(** [dirNode.AddDescendant].  [path[0]] panics on an empty path, which
    [nameToPath] never produces. *)
Fixpoint AddDescendant (h : store) (b : option (list byte)) (node : nat)
    (path : list string) : store * nat :=
  match path with
  | [] => (h, node)
  | childName :: rest =>
      let kids := match h !! node with Some nd => Children nd | None => [] end in
      match rest with
      | _ :: _ =>
          let '(h1, child) :=
            match dirNodeSlice_Get h kids childName with
            | Some c => (h, c)
            | None => AddChild h node childName None
            end in
          AddDescendant h1 b child rest
      | [] =>
          match dirNodeSlice_Get h kids childName with
          | Some c => (h, c)
          | None => AddChild h node childName b
          end
      end
  end.

(** The child named [childName] of [node], added when it is missing: the
    step both branches of [AddDescendant] take. *)
Definition child_or_add (h : store) (node : nat) (childName : string)
    (b : option (list byte)) : store * nat :=
  match dirNodeSlice_Get h (Children (deref h node)) childName with
  | Some c => (h, c)
  | None => AddChild h node childName b
  end.

(** [dirNode.GetOrAdd]. *)
Definition GetOrAdd (h : store) (b : option (list byte)) (node : nat)
    (path : list string) : store * nat :=
  match Get h node path with
  | Some got => (h, got)
  | None => AddDescendant h b node path
  end.

(** [node.B = b]. *)
Definition setB (h : store) (node : nat) (b : option (list byte)) : store :=
  match h !! node with
  | Some nd => <[node := mkDirNode (Name nd) (Parent nd) (Children nd) b]> h
  | None => h
  end.

(** [append(s, b...)] on a possibly-nil slice: appending nothing to [nil]
    gives [nil] back. *)
Definition append_bytes (s : option (list byte)) (b : list byte) : option (list byte) :=
  match s with
  | Some c => Some (c ++ b)
  | None => match b with [] => None | _ :: _ => Some b end
  end.

(** ** The facade *)

Record MemFS : Type := mkMemFS { root : option nat; nodes : store }.

(** The zero value [MemFS{}]. *)
Definition empty_fs : MemFS := mkMemFS None [].

(** [fs.init()]. *)
Definition init (fs : MemFS) : MemFS :=
  match root fs with
  | Some _ => fs
  | None => mkMemFS (Some (length (nodes fs))) (nodes fs ++ [mkDirNode "" None [] None])
  end.

(** [fs.root.Get(nameToPath(name)...)] *)
Definition resolve (fs : MemFS) (nm : string) : option nat :=
  match root fs with
  | Some r => Get (nodes fs) r (nameToPath nm)
  | None => None
  end.

(** *** Write handles *)

(** The two closures a [writeCloser] is built with: [addNode] of [Create]
    captures the name, [updateNode] of [Append] captures the node [got]. *)
Inductive closure : Type :=
  | addNode (nm : string)
  | updateNode (got : nat).

(** [writeCloser]: [w] is the private [bytes.Buffer]. *)
Record writeCloser : Type := mkWriteCloser {
  w : list byte;
  closeFn : option closure
}.

(** [getBytes]: the bytes of the buffer, never [nil]. *)
Definition getBytes (buf : list byte) : option (list byte) := Some buf.

(** [writeCloser.Write]: [bytes.Buffer.Write] appends and cannot fail. *)
Definition Write (wc : writeCloser) (p : list byte) : writeCloser :=
  mkWriteCloser (w wc ++ p) (closeFn wc).

(** [MemFS.Create]; the returned error is always [nil]. *)
Definition Create (fs : MemFS) (nm : string) : writeCloser * MemFS :=
  (mkWriteCloser [] (Some (addNode nm)), init fs).

(** [MemFS.Append]; the returned error is always [nil]. *)
Definition Append (fs : MemFS) (nm : string) : writeCloser * MemFS :=
  let fs1 := init fs in
  match resolve fs1 nm with
  | None => Create fs1 nm
  | Some got => (mkWriteCloser [] (Some (updateNode got)), fs1)
  end.

(** [writeCloser.Close]: run [closeFn] under the lock.  A handle exists only
    after [init] ran, so the root is set; the model leaves a store without
    root as it is. *)
Definition Close (wc : writeCloser) (fs : MemFS) : MemFS :=
  match closeFn wc with
  | None => fs
  | Some (addNode nm) =>
      match root fs with
      | Some r =>
          let b := getBytes (w wc) in
          let '(h1, node) := GetOrAdd (nodes fs) b r (nameToPath nm) in
          mkMemFS (Some r) (setB h1 node b)
      | None => fs
      end
  | Some (updateNode got) =>
      match getBytes (w wc) with
      | Some b =>
          mkMemFS (root fs) (setB (nodes fs) got (append_bytes (B (deref (nodes fs) got)) b))
      | None => fs
      end
  end.

(** [MemFS.SetBytes]. *)
Definition SetBytes (fs : MemFS) (nm : string) (b : list byte) : MemFS :=
  let '(wc, fs1) := Create fs nm in Close (Write wc b) fs1.

(** [Append], [Write], [Close] in a row, as the battery does. *)
Definition AppendBytes (fs : MemFS) (nm : string) (b : list byte) : MemFS :=
  let '(wc, fs1) := Append fs nm in Close (Write wc b) fs1.

(** *** Read handles *)

(** [memFile] owns a [bytes.Buffer] over the content found at [Open];
    [memDir] caches the entries of its first listing ([None] is the [nil]
    slice of a handle that has not listed yet). *)
Inductive File : Type :=
  | memFile (nm : string) (buf : list byte)
  | memDir (nm : string) (readDirEntries : option (list dirEntry)).

(** [MemFS.Open]. *)
Definition Open (fs : MemFS) (nm : string) : (option File * option error) * MemFS :=
  let fs1 := init fs in
  match resolve fs1 nm with
  | None => ((None, Some ErrNotFound), fs1)
  | Some node =>
      match B (deref (nodes fs1) node) with
      | None => ((Some (memDir nm None), None), fs1)
      | Some content => ((Some (memFile nm content), None), fs1)
      end
  end.

Definition entry_less (e1 e2 : dirEntry) : bool := String.ltb (name e1) (name e2).

Definition entry_of (h : store) (c : nat) : dirEntry :=
  mkDirEntry (Name (deref h c)) (IsDirectory (deref h c)).

(** [MemFS.ReadDir]. *)
Definition ReadDir (fs : MemFS) (dir : string)
  : (option (list dirEntry) * option error) * MemFS :=
  let fs1 := init fs in
  match resolve fs1 dir with
  | None => ((None, Some ErrNotFound), fs1)
  | Some node =>
      if IsDirectory (deref (nodes fs1) node) then
        let entries := map (entry_of (nodes fs1)) (Children (deref (nodes fs1) node)) in
        ((Some (sort_by entry_less entries), None), fs1)
      else ((None, Some ErrNotFound), fs1)
  end.

(** [dirNode.Path].  The recursion follows parent pointers; [fuel] bounds
    it, and [None] means the bound was hit. *)
Fixpoint Path (fuel : nat) (h : store) (node : nat) : option string :=
  match fuel with
  | O => None
  | S fuel' =>
      match Parent (deref h node) with
      | None => Some (Name (deref h node))
      | Some p =>
          match Path fuel' h p with
          | Some s => Some (s ++ "/" ++ Name (deref h node))%string
          | None => None
          end
      end
  end.

(** [dirNode.DFS] on a non-nil node, as the list of nodes [fn] is called
    with, in call order. *)
Fixpoint DFS (fuel : nat) (h : store) (node : nat) : option (list nat) :=
  match fuel with
  | O => None
  | S fuel' =>
      let fix visit (cs : list nat) : option (list nat) :=
        match cs with
        | [] => Some []
        | c :: cs' =>
            match DFS fuel' h c, visit cs' with
            | Some l1, Some l2 => Some (l1 ++ l2)
            | _, _ => None
            end
        end in
      match visit (Children (deref h node)) with
      | Some l => Some (node :: l)
      | None => None
      end
  end.

Fixpoint collect_paths (fuel : nat) (h : store) (ns : list nat) : option (list string) :=
  match ns with
  | [] => Some []
  | n :: ns' =>
      match Path fuel h n, collect_paths fuel h ns' with
      | Some p, Some ps => Some (p :: ps)
      | _, _ => None
      end
  end.

(** [MemFS.ListFiles].  With a [nil] node the guard [node != nil &&
    !node.IsDirectory()] is false, [node.DFS] calls [fn(nil)] and
    [nil.Path()] dereferences the nil pointer.  [None] means the bound of
    the model on the depth of the tree was hit, which takes a cyclic
    store. *)
Definition ListFiles (fs : MemFS) (dir : string)
  : option (outcome (option (list string) * option error)) * MemFS :=
  let fs1 := init fs in
  match resolve fs1 dir with
  | None => (Some Panics, fs1)
  | Some node =>
      if negb (IsDirectory (deref (nodes fs1) node)) then
        (Some (Returns (None, Some ErrNotFound)), fs1)
      else
        let fuel := S (length (nodes fs1)) in
        match DFS fuel (nodes fs1) node with
        | Some visited =>
            match collect_paths fuel (nodes fs1) visited with
            | Some names => (Some (Returns (Some names, None)), fs1)
            | None => (None, fs1)
            end
        | None => (None, fs1)
        end
  end.

(** [memFile.Read] and [memDir.Read] with a destination of [k] bytes:
    [bytes.Buffer.Read] hands out the next bytes, and [io.EOF] once the
    buffer is empty and [k > 0]. *)
Definition File_Read (f : File) (k : nat) : (list byte * option error) * File :=
  match f with
  | memFile nm buf =>
      match buf with
      | [] => (([], if Nat.eqb k 0 then None else Some EOF), f)
      | _ :: _ => ((firstn k buf, None), memFile nm (skipn k buf))
      end
  | memDir nm _ =>
      (([], Some (Errorf ("cannot read '" ++ nm ++ "'. Path is a directory")%string)), f)
  end.

(** The second half of [memDir.ReadDir], once the entries are cached. *)
Definition paginate (nm : string) (cache : option (list dirEntry)) (n : Z)
  : (option (list dirEntry) * option error) * File :=
  let l := match cache with Some l => l | None => [] end in
  if Nat.eqb (length l) 0 then
    ((cache, if (n <? 0)%Z then None else Some EOF), memDir nm cache)
  else
    let size :=
      if ((n <? 0)%Z || (n >? Z.of_nat (length l))%Z)%bool then length l
      else Z.to_nat n in
    ((Some (firstn size l), None), memDir nm (Some (skipn size l))).

(** [memFile.ReadDir] and [memDir.ReadDir]. *)
Definition File_ReadDir (f : File) (n : Z) (fs : MemFS)
  : ((option (list dirEntry) * option error) * File) * MemFS :=
  match f with
  | memFile nm _ =>
      ((None, Some (Errorf ("cannot ReadDir '" ++ nm ++ "'. Path is a file")%string), f), fs)
  | memDir nm None =>
      match ReadDir fs nm with
      | ((_, Some err), fs1) => ((None, Some err, f), fs1)
      | ((entries, None), fs1) => (paginate nm entries n, fs1)
      end
  | memDir nm (Some l) => (paginate nm (Some l) n, fs)
  end.

(** *** Clients of the handles *)

(** [ioutil.ReadAll]: read chunks of [k] bytes until [io.EOF]; [None] when
    a read fails or [fuel] calls were not enough. *)
Fixpoint ReadAll (fuel : nat) (k : nat) (f : File) : option (list byte) :=
  match fuel with
  | O => None
  | S fuel' =>
      match File_Read f k with
      | ((_, Some EOF), _) => Some []
      | ((_, Some _), _) => None
      | ((bs, None), f') =>
          match ReadAll fuel' k f' with
          | Some rest => Some (bs ++ rest)
          | None => None
          end
      end
  end.

(** The listing loop of the conformance battery for a page size [n >= 0]:
    call [ReadDir(n)] and collect the pages until [io.EOF]; [None] when a
    call fails otherwise or [fuel] calls were not enough.  The last
    component is the page that came with [io.EOF]. *)
Fixpoint drain (fuel : nat) (n : Z) (f : File) (fs : MemFS)
  : option (list dirEntry * option (list dirEntry)) :=
  match fuel with
  | O => None
  | S fuel' =>
      match File_ReadDir f n fs with
      | ((page, Some EOF, _), _) =>
          Some (match page with Some l => l | None => [] end, page)
      | ((_, Some _, _), _) => None
      | ((page, None, f'), fs') =>
          match drain fuel' n f' fs' with
          | Some (rest, final) =>
              Some ((match page with Some l => l | None => [] end) ++ rest, final)
          | None => None
          end
      end
  end.

(** *** Sessions: several handles open at once *)

Inductive action : Type :=
  | ACreate (nm : string)
  | AAppend (nm : string)
  | AWrite (k : nat) (p : list byte)
  | AClose (k : nat).

Record world : Type := mkWorld { wfs : MemFS; handles : list writeCloser }.

Definition step (wd : world) (a : action) : world :=
  match a with
  | ACreate nm =>
      let '(wc, fs1) := Create (wfs wd) nm in mkWorld fs1 (handles wd ++ [wc])
  | AAppend nm =>
      let '(wc, fs1) := Append (wfs wd) nm in mkWorld fs1 (handles wd ++ [wc])
  | AWrite k p =>
      match handles wd !! k with
      | Some wc => mkWorld (wfs wd) (<[k := Write wc p]> (handles wd))
      | None => wd
      end
  | AClose k =>
      match handles wd !! k with
      | Some wc => mkWorld (Close wc (wfs wd)) (handles wd)
      | None => wd
      end
  end.

Definition run (wd : world) (acts : list action) : world := fold_left step acts wd.





(** ** The flat-map variant

    [mem_fs.go] holds a second [MemFS], a map from full names to
    [*bytes.Buffer].  Its write handles have no [closeFn] and write into
    the buffer the map holds.  Only what the comparison with the tree needs
    is modelled: [Create], [Append], [Write], [Close] and [Open].  A buffer
    pointer is an index into [buffers]. *)
Module FlatMap.

Record MemFS : Type := mkMemFS { m : gmap string nat; buffers : list (list byte) }.

(** The zero value: reading the nil map finds nothing. *)
Definition empty_fs : MemFS := mkMemFS ∅ [].

(** [MemFS.Create]: a new buffer is put in the map at once; the handle
    [writeCloser{w: &buf}] is the pointer to it. *)
Definition Create (fs : MemFS) (nm : string) : nat * MemFS :=
  let buf := length (buffers fs) in
  (buf, mkMemFS (<[nm := buf]> (m fs)) (buffers fs ++ [[]])).

(** [MemFS.Append]: the handle writes into the buffer of the map. *)
Definition Append (fs : MemFS) (nm : string) : nat * MemFS :=
  match m fs !! nm with
  | Some buf => (buf, fs)
  | None => Create fs nm
  end.

(** [writeCloser.Write] is [bytes.Buffer.Write] on the shared buffer. *)
Definition Write (fs : MemFS) (wc : nat) (p : list byte) : MemFS :=
  match buffers fs !! wc with
  | Some content => mkMemFS (m fs) (<[wc := content ++ p]> (buffers fs))
  | None => fs
  end.

(** [writeCloser.Close] with a nil [closeFn]. *)
Definition Close (fs : MemFS) (wc : nat) : MemFS := fs.

(** [MemFS.Open]: a file when the name is a key, a directory when it is a
    prefix of a key. *)
Definition Open (fs : MemFS) (nm : string) : option File * option error :=
  match m fs !! nm with
  | Some buf =>
      (Some (memFile nm (match buffers fs !! buf with Some c => c | None => [] end)), None)
  | None =>
      if existsb (fun kv => String.prefix nm (fst kv)) (map_to_list (m fs))
      then (Some (memDir nm None), None)
      else (None, Some ErrNotFound)
  end.

(** [buf.Bytes()] of a buffer of the map.  Such a buffer is only ever
    written to, so its slice is [nil] exactly when nothing was written. *)
Definition Bytes (content : list byte) : option (list byte) :=
  match content with
  | [] => None
  | _ :: _ => Some content
  end.

Definition content_of (fs : MemFS) (buf : nat) : list byte :=
  match buffers fs !! buf with Some c => c | None => [] end.

(** [MemFS.SetBytes]. *)
Definition SetBytes (fs : MemFS) (nm : string) (b : list byte) : MemFS :=
  let '(wc, fs1) := Create fs nm in Close (Write fs1 wc b) wc.

(** [MemFS.SetString]: [[]byte(s)] are the bytes of the string. *)
Definition SetString (fs : MemFS) (nm : string) (s : string) : MemFS :=
  SetBytes fs nm (list_byte_of_string s).

(** [MemFS.HasFile]. *)
Definition HasFile (fs : MemFS) (nm : string) : bool :=
  match m fs !! nm with Some _ => true | None => false end.

(** [MemFS.TryGetBytes]. *)
Definition TryGetBytes (fs : MemFS) (nm : string) : option (list byte) * bool :=
  match m fs !! nm with
  | Some buf => (Bytes (content_of fs buf), true)
  | None => (None, false)
  end.

(** [MemFS.GetBytes]. *)
Definition GetBytes (fs : MemFS) (nm : string) : option (list byte) :=
  match m fs !! nm with
  | Some buf => Bytes (content_of fs buf)
  | None => None
  end.

(** [MemFS.GetString]: [string(buf.Bytes())], or the empty string. *)
Definition GetString (fs : MemFS) (nm : string) : string :=
  match m fs !! nm with
  | Some buf => string_of_list_byte (content_of fs buf)
  | None => EmptyString
  end.

(** [MemFS.Delete]; [delete] on the nil map does nothing either. *)
Definition Delete (fs : MemFS) (nm : string) : MemFS :=
  mkMemFS (delete nm (m fs)) (buffers fs).

(** Go leaves the order in which [range] visits a map open.  The
    functions that iterate take the order as an argument: a list that
    holds the entries of the map, each once. *)

(** [MemFS.Top]: the name and bytes of a longest file; [buf.Len()] is the
    number of bytes of the buffer. *)
Definition Top (fs : MemFS) (order : list (string * nat)) : string * option (list byte) :=
  let '(nm, b, _) :=
    fold_left
      (fun (acc : string * option (list byte) * nat) (kv : string * nat) =>
         let '(_, _, max) := acc in
         let n := length (content_of fs (snd kv)) in
         if Nat.ltb max n then (fst kv, Bytes (content_of fs (snd kv)), n) else acc)
      order (EmptyString, None, 0) in
  (nm, b).

(** [MemFS.SetBytesMap] for the entries of its argument in the order
    [range] visits them. *)
Definition SetBytesMap (fs : MemFS) (order : list (string * list byte)) : MemFS :=
  fold_left (fun fs kv => SetBytes fs (fst kv) (snd kv)) order fs.

(** [name[k:]]. *)
Fixpoint string_drop (k : nat) (s : string) : string :=
  match k, s with
  | O, _ => s
  | S k', String _ rest => string_drop k' rest
  | S _, EmptyString => EmptyString
  end.

(** [strings.SplitN(sub, "/", 2)]: the first piece, and whether there is a
    second one. *)
Fixpoint SplitN2 (sub : string) : string * bool :=
  match sub with
  | EmptyString => (EmptyString, false)
  | String c rest =>
      if Ascii.eqb c "/"%char then (EmptyString, true)
      else let '(piece, more) := SplitN2 rest in (String c piece, more)
  end.

(** The body of the loop of [MemFS.ReadDir] for one key: [None] when the
    key does not have the prefix; [name[n+1:]] panics when the key is
    shorter than [n+1]. *)
Definition ReadDir_entry (dir nm : string) : outcome (option dirEntry) :=
  if String.prefix dir nm then
    if Nat.ltb (String.length nm) (String.length dir + 1) then Panics
    else
      let '(piece, more) := SplitN2 (string_drop (String.length dir + 1) nm) in
      Returns (Some (mkDirEntry piece more))
  else Returns None.

Fixpoint ReadDir_loop (dir : string) (order : list (string * nat))
    (em : gmap string dirEntry) : outcome (gmap string dirEntry) :=
  match order with
  | [] => Returns em
  | kv :: rest =>
      match ReadDir_entry dir (fst kv) with
      | Panics => Panics
      | Returns None => ReadDir_loop dir rest em
      | Returns (Some entry) => ReadDir_loop dir rest (<[name entry := entry]> em)
      end
  end.

(** [MemFS.ReadDir]. *)
Definition ReadDir (fs : MemFS) (order : list (string * nat)) (dir : string)
  : outcome (option (list dirEntry) * option error) :=
  match m fs !! dir with
  | Some _ => Returns (None, Some ErrNotFound)
  | None =>
      match ReadDir_loop dir order ∅ with
      | Panics => Panics
      | Returns em =>
          match map_to_list em with
          | [] => Returns (None, Some ErrNotFound)
          | e :: es => Returns (Some (sort_by entry_less (map snd (e :: es))), None)
          end
      end
  end.

(** Every buffer pointer of the map is an allocated buffer. *)
Definition valid (fs : MemFS) : bool :=
  forallb (fun kv => Nat.ltb (snd kv) (length (buffers fs))) (map_to_list (m fs)).

End FlatMap.

(** ** Well-formed stores *)

(** Children are allocated after the node and before the end of the store,
    the parent before the node. *)
Definition wf_node (n : nat) (i : nat) (nd : dirNode) : bool :=
  forallb (fun c => Nat.ltb i c && Nat.ltb c n) (Children nd) &&
  match Parent nd with
  | Some p => Nat.ltb p i
  | None => true
  end.

Fixpoint wf_from (n : nat) (i : nat) (l : store) : bool :=
  match l with
  | [] => true
  | nd :: l' => wf_node n i nd && wf_from n (S i) l'
  end.

Definition wf_store (h : store) : bool := wf_from (length h) 0 h.

Definition wf (fs : MemFS) : bool :=
  wf_store (nodes fs) &&
  match root fs with
  | Some r => Nat.ltb r (length (nodes fs))
  | None => true
  end.

(** A segment that [dirNode.Get] looks up among the children. *)
Definition plain (seg : string) : bool :=
  negb (String.eqb seg ".") && negb (String.eqb seg "..").

(** The paths [Create] publishes under the name it was given: those that
    resolve already, and those without a [.] or [..] segment. *)
Definition creatable (fs : MemFS) (nm : string) : bool :=
  match resolve (init fs) nm with
  | Some _ => true
  | None => forallb plain (nameToPath nm)
  end.

(** ** Stores and worlds of the scenarios *)

Definition empty_world : world := mkWorld empty_fs [].

(** [[11, 12, 13]], [[12, 13, 14]] and [[15, 16]] of the battery. *)
Definition bytes_11_12_13 : list byte := [x0b; x0c; x0d].
Definition bytes_12_13_14 : list byte := [x0c; x0d; x0e].
Definition bytes_15_16 : list byte := [x0f; x10].

(** The store of the [ReadDir] scenario: [file1] and the empty files of
    the battery, created in that order. *)
Definition battery_fs : MemFS :=
  fold_left (fun fs nm => SetBytes fs nm [])
    ["dir1/file1A"; "dir1/file1B"; "dir2/file2A"; "dir2/file2B";
     "dir2/dir3/file3A"; "dir2/dir3/file3B"; "dir4/dir5/file"]
    (SetBytes empty_fs "file1" bytes_12_13_14).

(** ** Relations between stores *)

(** What path resolution reads of a node. *)
Definition shape (nd : dirNode) : string * option nat * list nat :=
  (Name nd, Parent nd, Children nd).

Definition same_shape (h h' : store) : Prop :=
  forall i, shape <$> h' !! i = shape <$> h !! i.

(** [h'] keeps every node of [h], with its name, parent and content. *)
Definition extends (h h' : store) : Prop :=
  forall i nd, h !! i = Some nd ->
    exists nd', h' !! i = Some nd' /\ Name nd' = Name nd /\
                Parent nd' = Parent nd /\ B nd' = B nd.

(** The nodes allocated before [c] are untouched. *)
Definition frame_below (c : nat) (h h' : store) : Prop :=
  forall i, i < c -> h' !! i = h !! i.

(** Every node of [h] is still there in [h'], with its name and its
    parent, and is still a file if it was one. *)
Definition persists (h h' : store) : Prop :=
  forall i nd, h !! i = Some nd ->
    exists nd', h' !! i = Some nd' /\ Name nd' = Name nd /\ Parent nd' = Parent nd /\
                (IsDirectory nd = false -> IsDirectory nd' = false).

(** The names of the children of a node, and the invariant that they are
    pairwise different in every node. *)
Definition child_names (h : store) (nd : dirNode) : list string :=
  map (fun c => Name (deref h c)) (Children nd).

Definition unique_names (h : store) : Prop :=
  forall i nd, h !! i = Some nd -> List.NoDup (child_names h nd).

(** ** Further functions of the tree and of the battery *)

(** The number of separators of a name. *)
Fixpoint count_sep (s : string) : nat :=
  match s with
  | EmptyString => 0
  | String c rest => (if Ascii.eqb c "/"%char then 1 else 0) + count_sep rest
  end.

(** [dirNode.Level]: the number of parent pointers up to the root; [fuel]
    bounds the loop, and [None] means the bound was hit. *)
Fixpoint Level_from (fuel : nat) (h : store) (parent : option nat) : option nat :=
  match parent with
  | None => Some 0
  | Some p =>
      match fuel with
      | O => None
      | S fuel' =>
          match Level_from fuel' h (Parent (deref h p)) with
          | Some level => Some (S level)
          | None => None
          end
      end
  end.

Definition Level (fuel : nat) (h : store) (node : nat) : option nat :=
  Level_from fuel h (Parent (deref h node)).

(** [dirEntry.String] and [fileInfo.String]; [None] is the nil receiver. *)
Definition entry_String (entry : option dirEntry) : string :=
  match entry with
  | None => "<nil>"
  | Some e =>
      if isDir e then ("dir(" ++ name e ++ ")")%string
      else ("file(" ++ name e ++ ")")%string
  end.

(** [compareDirEntries] of the battery. *)
Fixpoint compare_entries (entries1 entries2 : list dirEntry) : bool :=
  match entries1, entries2 with
  | [], [] => true
  | e1 :: r1, e2 :: r2 =>
      if String.eqb (name e1) (name e2) && Bool.eqb (isDir e1) (isDir e2)
      then compare_entries r1 r2 else false
  | _, _ => false
  end.

Definition compareDirEntries (entries1 entries2 : list dirEntry) : bool :=
  if negb (Nat.eqb (length entries1) (length entries2)) then false
  else compare_entries entries1 entries2.

(** ** Invariants of the tree *)

(** The children of every node stand in ascending order of their names. *)
Definition sorted_children (h : store) : Prop :=
  forall i nd, h !! i = Some nd -> Sorted (ascending String.ltb) (child_names h nd).

(** Every child points back to the node that lists it. *)
Definition parent_links (h : store) : Prop :=
  forall i nd c, h !! i = Some nd -> In c (Children nd) -> Parent (deref h c) = Some i.

(** The root is the node [init] made: no name, no parent. *)
Definition rooted (fs : MemFS) : Prop :=
  match root fs with
  | Some r => Name (deref (nodes fs) r) = EmptyString /\ Parent (deref (nodes fs) r) = None
  | None => nodes fs = []
  end.

(** Every step of a resolution in [h] is a step in [h']. *)
Definition keeps_steps (h h' : store) : Prop :=
  forall start p next, start < length h ->
    Get_step h start p = Some next -> Get_step h' start p = Some next.

Definition store_inv (h : store) : Prop :=
  unique_names h /\ sorted_children h /\ parent_links h.

Definition tree_inv (fs : MemFS) : Prop :=
  wf fs = true /\ unique_names (nodes fs) /\ sorted_children (nodes fs) /\
  parent_links (nodes fs) /\ rooted fs.

(* ================================================================== *)
(** * Properties *)

(** ** Basic facts *)

Lemma nameToPath_nonempty (s : string) : nameToPath s <> [].
Proof.
  induction s as [|c s IH]; simpl; [discriminate|].
  destruct (Ascii.eqb c "/"); [discriminate|].
  destruct (nameToPath s); discriminate.
Qed.

Lemma init_root (fs : MemFS) : exists r, root (init fs) = Some r.
Proof. unfold init. destruct (root fs) eqn:E; simpl; eauto. Qed.

Lemma init_idem (fs : MemFS) : init (init fs) = init fs.
Proof. unfold init at 1. destruct (init_root fs) as [r ->]. reflexivity. Qed.

Lemma init_rooted (fs : MemFS) r : root fs = Some r -> init fs = fs.
Proof. unfold init. intros ->. reflexivity. Qed.





Lemma Create_state fs nm : snd (Create fs nm) = init fs.
Proof. reflexivity. Qed.

Lemma Append_state fs nm : snd (Append fs nm) = init fs.
Proof.
  unfold Append. destruct (resolve (init fs) nm); simpl; [reflexivity|apply init_idem].
Qed.

(** *** Sorting *)

Section SortingFacts.
Context {A : Type} (less : A -> A -> bool).

Lemma sort_insert_perm (x : A) (l : list A) : Permutation (sort_insert less x l) (x :: l).
Proof.
  induction l as [|y l IH]; simpl; [reflexivity|].
  destruct (less x y); [reflexivity|].
  rewrite IH. apply perm_swap.
Qed.

Lemma sort_by_perm (l : list A) : Permutation (sort_by less l) l.
Proof.
  induction l as [|x l IH]; simpl; [reflexivity|].
  rewrite sort_insert_perm. now constructor.
Qed.

Hypothesis less_asym : forall a b, less a b = true -> less b a = false.

Lemma sort_insert_sorted (x : A) (l : list A) :
  Sorted (ascending less) l -> Sorted (ascending less) (sort_insert less x l).
Proof.
  induction l as [|y l IH]; simpl; intros Hs.
  - repeat constructor.
  - destruct (less x y) eqn:E.
    + constructor; [assumption|]. constructor. now apply less_asym.
    + inversion Hs as [|? ? Hl Hhd]; subst.
      constructor; [now apply IH|].
      destruct l as [|z l]; simpl.
      * constructor. exact E.
      * destruct (less x z); constructor; [exact E|].
        now inversion Hhd.
Qed.

Lemma sort_by_sorted (l : list A) : Sorted (ascending less) (sort_by less l).
Proof.
  induction l as [|x l IH]; simpl; [constructor|].
  now apply sort_insert_sorted.
Qed.
End SortingFacts.

Lemma ltb_asym (a b : string) : String.ltb a b = true -> String.ltb b a = false.
Proof.
  unfold String.ltb. rewrite (String.compare_antisym a b).
  destruct (String.compare b a); simpl; congruence.
Qed.

(** *** Stores *)

Lemma wf_from_spec (n : nat) (l : store) (i : nat) :
  wf_from n i l = true <->
  forall j nd, l !! j = Some nd -> wf_node n (i + j) nd = true.
Proof.
  revert i. induction l as [|x l IH]; intros i; simpl.
  - split; [intros _ j nd Hj; destruct j; discriminate|reflexivity].
  - rewrite andb_true_iff, IH. split.
    + intros [Hx Hl] [|j] nd Hj; simpl in Hj.
      * injection Hj as <-. now rewrite Nat.add_0_r.
      * specialize (Hl j nd Hj). now replace (i + S j) with (S i + j) by lia.
    + intros H. split.
      * specialize (H 0 x eq_refl). now rewrite Nat.add_0_r in H.
      * intros j nd Hj. specialize (H (S j) nd Hj).
        now replace (i + S j) with (S i + j) in H by lia.
Qed.

Lemma wf_store_spec (h : store) :
  wf_store h = true <->
  forall i nd, h !! i = Some nd ->
    (forall c, In c (Children nd) -> i < c < length h) /\
    (forall p, Parent nd = Some p -> p < i).
Proof.
  unfold wf_store. rewrite wf_from_spec. unfold wf_node.
  split; intros H i nd Hi.
  - specialize (H i nd Hi). apply andb_true_iff in H as [Hc Hp]. split.
    + intros c Hin. rewrite forallb_forall in Hc.
      specialize (Hc c Hin). apply andb_true_iff in Hc as [H1 H2].
      apply Nat.ltb_lt in H1, H2. simpl in H1. lia.
    + intros p Ep. rewrite Ep in Hp. apply Nat.ltb_lt in Hp. simpl in Hp. lia.
  - destruct (H i nd Hi) as [Hc Hp]. apply andb_true_iff. split.
    + apply forallb_forall. intros c Hin. specialize (Hc c Hin).
      apply andb_true_iff. split; apply Nat.ltb_lt; simpl; lia.
    + destruct (Parent nd) as [p|]; [|reflexivity].
      apply Nat.ltb_lt. simpl. now apply Hp.
Qed.

Lemma wf_store_children (h : store) (i c : nat) (nd : dirNode) :
  wf_store h = true -> h !! i = Some nd -> In c (Children nd) -> i < c < length h.
Proof. rewrite wf_store_spec. intros H Hi. now apply (H i nd Hi). Qed.

Lemma wf_store_parent (h : store) (i p : nat) (nd : dirNode) :
  wf_store h = true -> h !! i = Some nd -> Parent nd = Some p -> p < i.
Proof. rewrite wf_store_spec. intros H Hi. now apply (H i nd Hi). Qed.

(** [dirNodeSlice_Get] reads only the names of the listed nodes. *)
Lemma dirNodeSlice_Get_names (h h' : store) (s : list nat) (nm : string) :
  (forall c, In c s -> Name <$> h' !! c = Name <$> h !! c) ->
  dirNodeSlice_Get h' s nm = dirNodeSlice_Get h s nm.
Proof.
  induction s as [|c s IH]; simpl; intros H; [reflexivity|].
  pose proof (H c (or_introl eq_refl)) as Hc.
  rewrite IH by (intros; apply H; now right).
  destruct (h' !! c) as [nd'|], (h !! c) as [nd|]; simpl in Hc; try discriminate; [|reflexivity].
  injection Hc as ->. reflexivity.
Qed.

Lemma dirNodeSlice_Get_In (h : store) (s : list nat) (nm : string) (c : nat) :
  dirNodeSlice_Get h s nm = Some c ->
  In c s /\ exists nd, h !! c = Some nd /\ Name nd = nm.
Proof.
  induction s as [|x s IH]; simpl; [discriminate|].
  destruct (h !! x) as [nd|] eqn:E.
  - destruct (String.eqb (Name nd) nm) eqn:En.
    + intros [= <-]. apply String.eqb_eq in En. eauto.
    + intros H. destruct (IH H) as [? ?]. auto.
  - intros H. destruct (IH H) as [? ?]. auto.
Qed.

Lemma dirNodeSlice_Get_None (h : store) (s : list nat) (nm : string) :
  dirNodeSlice_Get h s nm = None ->
  forall c, In c s -> Name <$> h !! c <> Some nm.
Proof.
  induction s as [|x s IH]; simpl; [tauto|].
  destruct (h !! x) as [nd|] eqn:E.
  - destruct (String.eqb (Name nd) nm) eqn:En; [discriminate|].
    apply String.eqb_neq in En.
    intros H c [<-|Hc]; [rewrite E; simpl; congruence|now apply IH].
  - intros H c [<-|Hc]; [rewrite E; simpl; congruence|now apply IH].
Qed.

(** The only node of [s] with the name is found, wherever it stands. *)
Lemma dirNodeSlice_Get_unique (h : store) (s : list nat) (nm : string) (x : nat) :
  In x s -> Name <$> h !! x = Some nm ->
  (forall y, In y s -> y <> x -> Name <$> h !! y <> Some nm) ->
  dirNodeSlice_Get h s nm = Some x.
Proof.
  induction s as [|c s IH]; simpl; [tauto|].
  intros Hin Hx Hothers.
  destruct (Nat.eq_dec c x) as [->|Hne].
  - destruct (h !! x) as [nd|]; simpl in Hx; [|discriminate].
    injection Hx as ->. now rewrite String.eqb_refl.
  - assert (Hc : Name <$> h !! c <> Some nm) by (apply Hothers; auto).
    destruct Hin as [?|Hin]; [contradiction|].
    assert (IH' : dirNodeSlice_Get h s nm = Some x) by (apply IH; auto).
    destruct (h !! c) as [nd|]; simpl in Hc; [|exact IH'].
    destruct (String.eqb (Name nd) nm) eqn:En; [|exact IH'].
    apply String.eqb_eq in En. congruence.
Qed.

Lemma extends_refl (h : store) : extends h h.
Proof. intros i nd H. eauto. Qed.

Lemma extends_trans (h1 h2 h3 : store) : extends h1 h2 -> extends h2 h3 -> extends h1 h3.
Proof.
  intros H12 H23 i nd Hi.
  destruct (H12 i nd Hi) as (nd2 & H2 & Hn & Hp & Hb).
  destruct (H23 i nd2 H2) as (nd3 & H3 & Hn' & Hp' & Hb').
  exists nd3. repeat split; congruence.
Qed.

Lemma extends_length (h h' : store) : extends h h' -> length h <= length h'.
Proof.
  intros He. destruct (Nat.le_gt_cases (length h) (length h')) as [|Hlt]; [assumption|].
  destruct (lookup_lt_is_Some_2 h (length h')) as [nd Hnd]; [lia|].
  destruct (He _ _ Hnd) as (nd' & H' & _).
  apply lookup_lt_Some in H'. lia.
Qed.

Lemma extends_name (h h' : store) (i : nat) :
  extends h h' -> i < length h -> Name <$> h' !! i = Name <$> h !! i.
Proof.
  intros He Hi. destruct (lookup_lt_is_Some_2 h i Hi) as [nd Hnd].
  destruct (He _ _ Hnd) as (nd' & H' & Hn & _). rewrite Hnd, H'. simpl. now rewrite Hn.
Qed.

Lemma Get_step_same_shape (h h' : store) (node : nat) (p : string) :
  same_shape h h' -> Get_step h' node p = Get_step h node p.
Proof.
  intros Hs. unfold Get_step.
  destruct (String.eqb p "."); [reflexivity|].
  pose proof (Hs node) as Hn.
  destruct (h' !! node) as [nd'|], (h !! node) as [nd|]; simpl in Hn; try discriminate;
    [|now destruct (String.eqb p "..")].
  injection Hn as Hname Hpar Hch.
  destruct (String.eqb p ".."); [assumption|].
  rewrite Hch. apply dirNodeSlice_Get_names.
  intros c _. specialize (Hs c).
  destruct (h' !! c), (h !! c); simpl in *; try discriminate; [|reflexivity].
  unfold shape in Hs. congruence.
Qed.

Lemma Get_same_shape (h h' : store) (path : list string) (node : nat) :
  same_shape h h' -> Get h' node path = Get h node path.
Proof.
  intros Hs. revert node. induction path as [|p rest IH]; intros node; simpl; [reflexivity|].
  rewrite (Get_step_same_shape h h' node p Hs).
  destruct (Get_step h node p); [|reflexivity].
  destruct rest; [reflexivity|apply IH].
Qed.

Lemma setB_length (h : store) (n : nat) b : length (setB h n b) = length h.
Proof. unfold setB. destruct (h !! n); [apply length_insert|reflexivity]. Qed.

Lemma setB_lookup (h : store) (n : nat) b nd :
  h !! n = Some nd ->
  setB h n b !! n = Some (mkDirNode (Name nd) (Parent nd) (Children nd) b).
Proof.
  intros H. unfold setB. rewrite H. apply list_lookup_insert_eq.
  now apply lookup_lt_Some in H.
Qed.

Lemma setB_lookup_ne (h : store) (n i : nat) b : i <> n -> setB h n b !! i = h !! i.
Proof.
  intros H. unfold setB. destruct (h !! n); [|reflexivity].
  apply list_lookup_insert_ne. congruence.
Qed.

Lemma setB_same_shape (h : store) (n : nat) b : same_shape h (setB h n b).
Proof.
  intros i. destruct (Nat.eq_dec i n) as [->|Hne].
  - destruct (h !! n) as [nd|] eqn:E.
    + rewrite (setB_lookup _ _ _ _ E). reflexivity.
    + unfold setB. rewrite E. rewrite E. reflexivity.
  - rewrite setB_lookup_ne by assumption. reflexivity.
Qed.

Lemma wf_store_same_shape (h h' : store) :
  same_shape h h' -> length h' = length h -> wf_store h = true -> wf_store h' = true.
Proof.
  intros Hs Hlen Hwf. apply wf_store_spec. intros i nd' Hi.
  specialize (Hs i). rewrite Hi in Hs.
  destruct (h !! i) as [nd|] eqn:E; simpl in Hs; [|discriminate].
  injection Hs as Hn Hp Hch. rewrite Hlen, Hch, Hp. split.
  - intros c Hc. now apply (wf_store_children h i c nd).
  - intros p Ep. now apply (wf_store_parent h i p nd).
Qed.

Lemma wf_store_setB (h : store) (n : nat) b : wf_store h = true -> wf_store (setB h n b) = true.
Proof. apply wf_store_same_shape; [apply setB_same_shape|apply setB_length]. Qed.

(** *** [AddChild] *)

Lemma AddChild_spec (h : store) (node : nat) (nm : string) b (nd : dirNode) :
  h !! node = Some nd ->
  exists h' cs,
    AddChild h node nm b = (h', length h) /\
    length h' = S (length h) /\
    h' !! length h = Some (mkDirNode nm (Some node) [] b) /\
    h' !! node = Some (mkDirNode (Name nd) (Parent nd) cs (B nd)) /\
    Permutation cs (Children nd ++ [length h]) /\
    (forall i, i <> node -> i < length h -> h' !! i = h !! i).
Proof.
  intros Hnd. pose proof (lookup_lt_Some _ _ _ Hnd) as Hlt.
  unfold AddChild. rewrite (lookup_app_l_Some _ _ _ _ Hnd).
  eexists _, _. split; [reflexivity|].
  split; [rewrite length_insert, length_app; simpl; lia|].
  split.
  { rewrite list_lookup_insert_ne by lia.
    rewrite lookup_app_r by lia. now rewrite Nat.sub_diag. }
  split; [apply list_lookup_insert_eq; rewrite length_app; simpl; lia|].
  split; [apply sort_by_perm|].
  intros i Hne Hi. rewrite list_lookup_insert_ne by congruence.
  now apply lookup_app_l.
Qed.

Lemma wf_store_AddChild (h h' : store) (node c : nat) (nm : string) b (nd : dirNode) :
  wf_store h = true -> h !! node = Some nd ->
  AddChild h node nm b = (h', c) -> wf_store h' = true.
Proof.
  intros Hwf Hnd Hadd.
  destruct (AddChild_spec h node nm b nd Hnd) as (h2 & cs & E & Hlen & Hnew & Hnode & Hperm & Hrest).
  rewrite E in Hadd. injection Hadd as <- <-.
  pose proof (lookup_lt_Some _ _ _ Hnd) as Hlt.
  apply wf_store_spec. intros i ndi Hi. rewrite Hlen.
  destruct (Nat.eq_dec i node) as [->|Hne].
  - rewrite Hnode in Hi. injection Hi as <-. simpl. split.
    + intros x Hx. apply (Permutation_in _ Hperm) in Hx.
      apply in_app_or in Hx as [Hx|[<-|[]]]; [|lia].
      pose proof (wf_store_children h node x nd Hwf Hnd Hx). lia.
    + intros p Ep. now apply (wf_store_parent h node p nd).
  - destruct (Nat.eq_dec i (length h)) as [->|Hne'].
    + rewrite Hnew in Hi. injection Hi as <-. simpl. split; [tauto|].
      intros p [= <-]. exact Hlt.
    + apply lookup_lt_Some in Hi as Hi'.
      rewrite Hrest in Hi by lia. split.
      * intros x Hx. pose proof (wf_store_children h i x ndi Hwf Hi Hx). lia.
      * intros p Ep. now apply (wf_store_parent h i p ndi).
Qed.

Lemma AddDescendant_cons (h : store) b (node : nat) (seg : string) (rest : list string) :
  AddDescendant h b node (seg :: rest) =
  match rest with
  | [] => child_or_add h node seg b
  | _ :: _ => let '(h1, c) := child_or_add h node seg None in AddDescendant h1 b c rest
  end.
Proof.
  unfold child_or_add, deref. simpl.
  destruct rest; destruct (h !! node); reflexivity.
Qed.

Lemma child_or_add_spec (h h1 : store) (node c : nat) (seg : string) b (nd : dirNode) :
  wf_store h = true -> h !! node = Some nd ->
  child_or_add h node seg b = (h1, c) ->
  wf_store h1 = true /\ node < c < length h1 /\ extends h h1 /\ frame_below node h h1 /\
  exists nd1, h1 !! node = Some nd1 /\ dirNodeSlice_Get h1 (Children nd1) seg = Some c.
Proof.
  intros Hwf Hnd. unfold child_or_add, deref. rewrite Hnd.
  destruct (dirNodeSlice_Get h (Children nd) seg) as [c0|] eqn:Eg.
  - intros [= <- <-]. apply dirNodeSlice_Get_In in Eg as Hin. destruct Hin as [Hin _].
    pose proof (wf_store_children h node c0 nd Hwf Hnd Hin).
    split; [assumption|]. split; [assumption|].
    split; [apply extends_refl|]. split; [now intros i _|]. eauto.
  - intros Hadd. pose proof (wf_store_AddChild _ _ _ _ _ _ _ Hwf Hnd Hadd) as Hwf1.
    destruct (AddChild_spec h node seg b nd Hnd) as (h2 & cs & E & Hlen & Hnew & Hnode & Hperm & Hrest).
    rewrite E in Hadd. injection Hadd as <- <-.
    pose proof (lookup_lt_Some _ _ _ Hnd) as Hlt.
    split; [assumption|]. split; [lia|]. split; [|split].
    + intros i ndi Hi. destruct (Nat.eq_dec i node) as [->|Hne].
      * rewrite Hnd in Hi. injection Hi as <-. eexists. split; [exact Hnode|]. auto.
      * apply lookup_lt_Some in Hi as Hi'. exists ndi. rewrite Hrest by lia. auto.
    + intros i Hi. apply Hrest; lia.
    + eexists. split; [exact Hnode|]. simpl.
      apply dirNodeSlice_Get_unique.
      * apply (Permutation_in _ (Permutation_sym Hperm)). apply in_or_app. right. now left.
      * now rewrite Hnew.
      * intros y Hy Hney. apply (Permutation_in _ Hperm) in Hy.
        apply in_app_or in Hy as [Hy|[<-|[]]]; [|congruence].
        pose proof (wf_store_children h node y nd Hwf Hnd Hy).
        rewrite Hrest by lia. now apply (dirNodeSlice_Get_None _ _ _ Eg).
Qed.

Lemma AddDescendant_spec (path : list string) :
  forall (h : store) b (node : nat),
    wf_store h = true -> node < length h -> path <> [] ->
    exists h' id,
      AddDescendant h b node path = (h', id) /\
      wf_store h' = true /\ node < id < length h' /\
      extends h h' /\ frame_below node h h' /\
      (forallb plain path = true -> Get h' node path = Some id).
Proof.
  induction path as [|seg rest IH]; intros h b node Hwf Hlt Hne; [congruence|].
  destruct (lookup_lt_is_Some_2 h node Hlt) as [nd Hnd].
  rewrite AddDescendant_cons. destruct rest as [|s2 rest'].
  - destruct (child_or_add h node seg b) as [h1 c] eqn:E.
    destruct (child_or_add_spec _ _ _ _ _ _ _ Hwf Hnd E)
      as (Hwf1 & Hc & Hext & Hfr & nd1 & Hn1 & Hg).
    exists h1, c. repeat (split; [first [reflexivity|assumption|lia]|]).
    simpl. rewrite andb_true_r. intros Hp. unfold plain in Hp.
    apply andb_true_iff in Hp as [Hp1 Hp2]. apply negb_true_iff in Hp1, Hp2.
    unfold Get_step. rewrite Hp1, Hp2, Hn1, Hg. reflexivity.
  - destruct (child_or_add h node seg None) as [h1 c] eqn:E.
    destruct (child_or_add_spec _ _ _ _ _ _ _ Hwf Hnd E)
      as (Hwf1 & Hc & Hext & Hfr & nd1 & Hn1 & Hg).
    destruct (IH h1 b c Hwf1 ltac:(lia) ltac:(discriminate))
      as (h' & id & E' & Hwf' & Hid & Hext' & Hfr' & Hget).
    exists h', id. split; [exact E'|]. split; [assumption|]. split; [lia|].
    split; [eapply extends_trans; eassumption|]. split.
    + intros i Hi. rewrite Hfr' by lia. now apply Hfr.
    + intros Hp. change (forallb plain (seg :: s2 :: rest')) with
        (plain seg && forallb plain (s2 :: rest')) in Hp.
      apply andb_true_iff in Hp as [Hp Hrest]. unfold plain in Hp.
      apply andb_true_iff in Hp as [Hp1 Hp2]. apply negb_true_iff in Hp1, Hp2.
      change (Get h' node (seg :: s2 :: rest')) with
        (match Get_step h' node seg with
         | None => None
         | Some next => Get h' next (s2 :: rest')
         end).
      unfold Get_step. rewrite Hp1, Hp2, (Hfr' node) by lia. rewrite Hn1.
      rewrite (dirNodeSlice_Get_names h1 h').
      * rewrite Hg. now apply Hget.
      * intros y Hy. apply extends_name; [assumption|].
        pose proof (wf_store_children h1 node y nd1 Hwf1 Hn1 Hy). lia.
Qed.

(** *** Resolution stays inside the store *)

Lemma Get_step_valid (h : store) (node next : nat) (p : string) :
  wf_store h = true -> node < length h ->
  Get_step h node p = Some next -> next < length h.
Proof.
  intros Hwf Hlt. unfold Get_step.
  destruct (String.eqb p "."); [now intros [= <-]|].
  destruct (lookup_lt_is_Some_2 h node Hlt) as [nd Hnd]. rewrite Hnd.
  destruct (String.eqb p "..").
  - intros Hp. pose proof (wf_store_parent h node next nd Hwf Hnd Hp). lia.
  - intros Hg. apply dirNodeSlice_Get_In in Hg as [Hin _].
    pose proof (wf_store_children h node next nd Hwf Hnd Hin). lia.
Qed.

Lemma Get_valid (h : store) (path : list string) (node got : nat) :
  wf_store h = true -> node < length h ->
  Get h node path = Some got -> got < length h.
Proof.
  intros Hwf. revert node. induction path as [|p rest IH]; intros node Hlt; simpl; [discriminate|].
  destruct (Get_step h node p) as [next|] eqn:E; [|discriminate].
  pose proof (Get_step_valid h node next p Hwf Hlt E) as Hnext.
  destruct rest; [now intros [= <-]|]. now apply IH.
Qed.

Lemma wf_unfold (fs : MemFS) r :
  wf fs = true -> root fs = Some r -> wf_store (nodes fs) = true /\ r < length (nodes fs).
Proof.
  unfold wf. intros H E. rewrite E in H. apply andb_true_iff in H as [H1 H2].
  apply Nat.ltb_lt in H2. split; [exact H1|]. simpl in H2. lia.
Qed.

Lemma wf_intro (r : nat) (h : store) :
  wf_store h = true -> r < length h -> wf (mkMemFS (Some r) h) = true.
Proof.
  intros H1 H2. unfold wf. simpl. rewrite H1. simpl. now apply Nat.ltb_lt.
Qed.

Lemma wf_init (fs : MemFS) : wf fs = true -> wf (init fs) = true.
Proof.
  unfold init. destruct (root fs) as [r|] eqn:E; [trivial|].
  unfold wf. rewrite E, andb_true_r. intros Hwf. apply wf_intro.
  - apply wf_store_spec. intros i nd Hi. rewrite length_app. simpl.
    destruct (Nat.lt_ge_cases i (length (nodes fs))) as [Hlt|Hge].
    + rewrite lookup_app_l in Hi by assumption. split.
      * intros c Hc. pose proof (wf_store_children _ _ _ _ Hwf Hi Hc). lia.
      * intros p Hp. now apply (wf_store_parent _ _ _ _ Hwf Hi).
    + rewrite lookup_app_r in Hi by assumption.
      destruct (i - length (nodes fs)) as [|k]; simpl in Hi; [|destruct k; discriminate].
      injection Hi as <-. simpl. split; [tauto|discriminate].
  - rewrite length_app. simpl. lia.
Qed.

(** *** Committing a [Create] handle *)

Lemma Close_addNode_spec (fs : MemFS) (r : nat) (nm : string) (buf : list byte) :
  root fs = Some r -> wf fs = true -> creatable fs nm = true ->
  let fs' := Close (mkWriteCloser buf (Some (addNode nm))) fs in
  wf fs' = true /\ root fs' = Some r /\
  exists id nd, resolve fs' nm = Some id /\ nodes fs' !! id = Some nd /\ B nd = Some buf.
Proof.
  intros Hr Hwf Hc. destruct (wf_unfold fs r Hwf Hr) as [Hs Hlt].
  unfold creatable in Hc. rewrite (init_rooted fs r Hr) in Hc.
  unfold resolve in Hc. rewrite Hr in Hc.
  unfold Close. simpl closeFn. cbv iota. rewrite Hr. unfold GetOrAdd, getBytes. simpl w.
  destruct (Get (nodes fs) r (nameToPath nm)) as [got|] eqn:Eg.
  - pose proof (Get_valid _ _ _ _ Hs Hlt Eg) as Hgot.
    destruct (lookup_lt_is_Some_2 _ _ Hgot) as [nd Hnd].
    cbv zeta. split; [|split; [reflexivity|]].
    + apply wf_intro; [now apply wf_store_setB|now rewrite setB_length].
    + exists got. eexists. unfold resolve. simpl.
      rewrite (Get_same_shape _ _ _ _ (setB_same_shape _ _ _)).
      split; [exact Eg|]. split; [exact (setB_lookup _ _ _ _ Hnd)|reflexivity].
  - destruct (AddDescendant_spec (nameToPath nm) (nodes fs) (Some buf) r Hs Hlt
                (nameToPath_nonempty nm))
      as (h' & id & E & Hwf' & Hid & Hext & Hfr & Hget).
    rewrite E. cbv zeta.
    destruct (lookup_lt_is_Some_2 h' id ltac:(lia)) as [nd Hnd].
    split; [|split; [reflexivity|]].
    + apply wf_intro; [now apply wf_store_setB|rewrite setB_length; lia].
    + exists id. eexists. unfold resolve. simpl.
      rewrite (Get_same_shape _ _ _ _ (setB_same_shape _ _ _)).
      split; [now apply Hget|]. split; [exact (setB_lookup _ _ _ _ Hnd)|reflexivity].
Qed.

Lemma Open_file (fs : MemFS) (r id : nat) (nm : string) (nd : dirNode) (c : list byte) :
  root fs = Some r -> resolve fs nm = Some id -> nodes fs !! id = Some nd -> B nd = Some c ->
  Open fs nm = ((Some (memFile nm c), None), fs).
Proof.
  intros Hr Hres Hnd Hb. unfold Open. rewrite (init_rooted fs r Hr), Hres.
  unfold deref. now rewrite Hnd, Hb.
Qed.

Lemma ReadAll_memFile (k : nat) (nm : string) :
  0 < k -> forall fuel buf, length buf < fuel -> ReadAll fuel k (memFile nm buf) = Some buf.
Proof.
  intros Hk. induction fuel as [|fuel IH]; intros buf Hlen; [lia|].
  simpl. destruct buf as [|x buf].
  - destruct k; [lia|reflexivity].
  - destruct k as [|k]; [lia|].
    rewrite IH.
    + change (firstn (S k) (x :: buf)) with (x :: firstn k buf).
      change (skipn (S k) (x :: buf)) with (skipn k buf).
      simpl. now rewrite firstn_skipn.
    + change (skipn (S k) (x :: buf)) with (skipn k buf).
      rewrite length_skipn. simpl in Hlen. lia.
Qed.

Lemma creatable_init (fs : MemFS) (nm : string) : creatable (init fs) nm = creatable fs nm.
Proof. unfold creatable. now rewrite init_idem. Qed.

Lemma Create_Close_spec (fs : MemFS) (nm : string) (bs : list byte) :
  wf fs = true -> creatable fs nm = true ->
  let fs1 := Close (mkWriteCloser bs (Some (addNode nm))) (init fs) in
  wf fs1 = true /\ init fs1 = fs1 /\
  exists id nd, resolve fs1 nm = Some id /\ nodes fs1 !! id = Some nd /\ B nd = Some bs /\
                fst (Open fs1 nm) = (Some (memFile nm bs), None).
Proof.
  intros Hwf Hc. destruct (init_root fs) as [r Hr].
  destruct (Close_addNode_spec (init fs) r nm bs Hr (wf_init fs Hwf))
    as (Hwf1 & Hr1 & id & nd & Hres & Hnd & Hb); [now rewrite creatable_init|].
  cbv zeta. split; [assumption|]. split; [now apply (init_rooted _ r)|].
  exists id, nd. repeat (split; [assumption|]).
  now rewrite (Open_file _ r id nm nd bs).
Qed.

Lemma resolves_creatable (fs : MemFS) (nm : string) (id : nat) :
  init fs = fs -> resolve fs nm = Some id -> creatable fs nm = true.
Proof. intros Hi Hres. unfold creatable. now rewrite Hi, Hres. Qed.

Lemma ReadDir_listing (fs : MemFS) (d : string) (es : list dirEntry) :
  init fs = fs ->
  fst (ReadDir fs d) = (Some es, None) ->
  exists dn, resolve fs d = Some dn /\ IsDirectory (deref (nodes fs) dn) = true /\
    es = sort_by entry_less (map (entry_of (nodes fs)) (Children (deref (nodes fs) dn))).
Proof.
  intros Hi. unfold ReadDir. rewrite Hi.
  destruct (resolve fs d) as [dn|]; [|discriminate].
  destruct (IsDirectory (deref (nodes fs) dn)) eqn:E; [|discriminate].
  simpl. intros [= <-]. eauto.
Qed.

(** ** The claims *)

(** C2 (as amended).  Create round-trip and full overwrite: for every path
    [p] that resolves already or has no [.] or [..] segment, and every byte
    sequence [b], [Create(p)], [Write(b)], [Close] makes [Open(p)] succeed
    with a file handle whose full read returns exactly [b]; a later
    [Create(p)], [Write(b')], [Close] replaces the content, so a full read
    returns exactly [b']. *)
Theorem create_roundtrip_overwrite (fs : MemFS) (p : string) (b b' : list byte) (k : nat) :
  wf fs = true -> creatable fs p = true -> 0 < k ->
  let fs1 := SetBytes fs p b in
  let fs2 := SetBytes fs1 p b' in
  fst (Open fs1 p) = (Some (memFile p b), None) /\
  ReadAll (S (length b)) k (memFile p b) = Some b /\
  fst (Open fs2 p) = (Some (memFile p b'), None) /\
  ReadAll (S (length b')) k (memFile p b') = Some b'.
Proof.
  intros Hwf Hc Hk. unfold SetBytes, Create, Write. cbn [w closeFn app].
  destruct (Create_Close_spec fs p b Hwf Hc) as (Hwf1 & Hi1 & id & nd & Hres & Hnd & Hb & Hopen).
  split; [exact Hopen|]. split; [apply ReadAll_memFile; lia|].
  destruct (Create_Close_spec _ p b' Hwf1 (resolves_creatable _ _ _ Hi1 Hres))
    as (_ & _ & id2 & nd2 & _ & _ & _ & Hopen2).
  split; [exact Hopen2|]. apply ReadAll_memFile; lia.
Qed.

Lemma create_roundtrip_overwrite_witness :
  let fs1 := SetBytes empty_fs "file1" bytes_11_12_13 in
  let fs2 := SetBytes fs1 "file1" bytes_12_13_14 in
  fst (Open fs1 "file1") = (Some (memFile "file1" bytes_11_12_13), None) /\
  ReadAll (S (length bytes_11_12_13)) 512 (memFile "file1" bytes_11_12_13)
    = Some bytes_11_12_13 /\
  fst (Open fs2 "file1") = (Some (memFile "file1" bytes_12_13_14), None) /\
  ReadAll (S (length bytes_12_13_14)) 512 (memFile "file1" bytes_12_13_14)
    = Some bytes_12_13_14.
Proof.
  apply (create_roundtrip_overwrite empty_fs "file1" bytes_11_12_13 bytes_12_13_14 512);
    [reflexivity|reflexivity|lia].
Defined.

(** C2, counterexample.  On the empty store [Create("..")], [Write],
    [Close] adds a child of the root that is named [..]; [Open("..")] then
    asks for the parent of the root and fails. *)
Lemma create_dotdot_then_open_fails :
  fst (Open (SetBytes empty_fs ".." bytes_11_12_13) "..") = (None, Some ErrNotFound) /\
  fst (Open (SetBytes empty_fs ".." bytes_11_12_13) "..")
    <> (Some (memFile ".." bytes_11_12_13), None).
Proof. split; [reflexivity|discriminate]. Qed.

(** C10 (as amended).  Empty file: for a path [p] that resolves already or
    has no [.] or [..] segment, after [Create(p)] and [Close] with nothing
    written [Open(p)] succeeds with a file handle whose full read returns
    zero bytes, the node is not a directory, and every directory listing
    that contains the node shows it with [isDir = false]. *)
Theorem empty_file_is_a_file (fs : MemFS) (p : string) (k : nat) :
  wf fs = true -> creatable fs p = true -> 0 < k ->
  let '(wc, fs0) := Create fs p in
  let fs1 := Close wc fs0 in
  fst (Open fs1 p) = (Some (memFile p []), None) /\
  ReadAll 1 k (memFile p []) = Some [] /\
  exists id,
    resolve fs1 p = Some id /\
    IsDirectory (deref (nodes fs1) id) = false /\
    forall d dn es,
      resolve fs1 d = Some dn -> In id (Children (deref (nodes fs1) dn)) ->
      fst (ReadDir fs1 d) = (Some es, None) ->
      In (mkDirEntry (Name (deref (nodes fs1) id)) false) es.
Proof.
  intros Hwf Hc Hk. unfold Create.
  destruct (Create_Close_spec fs p [] Hwf Hc) as (Hwf1 & Hi1 & id & nd & Hres & Hnd & Hb & Hopen).
  cbv zeta. split; [exact Hopen|]. split; [apply ReadAll_memFile; simpl; lia|].
  exists id. split; [exact Hres|].
  assert (Hdir : IsDirectory (deref (nodes (Close (mkWriteCloser [] (Some (addNode p))) (init fs))) id) = false).
  { unfold IsDirectory, deref. now rewrite Hnd, Hb. }
  split; [exact Hdir|].
  intros d dn es Hd Hin Hl.
  destruct (ReadDir_listing _ d es Hi1 Hl) as (dn' & Hd' & _ & ->).
  rewrite Hd in Hd'. injection Hd' as <-.
  apply (Permutation_in _ (Permutation_sym (sort_by_perm _ _))).
  apply in_map_iff. exists id. split; [|exact Hin].
  unfold entry_of. now rewrite Hdir.
Qed.

Lemma empty_file_is_a_file_witness :
  let '(wc, fs0) := Create empty_fs "empty" in
  let fs1 := Close wc fs0 in
  fst (Open fs1 "empty") = (Some (memFile "empty" []), None) /\
  ReadAll 1 512 (memFile "empty" []) = Some [] /\
  exists id,
    resolve fs1 "empty" = Some id /\
    IsDirectory (deref (nodes fs1) id) = false /\
    forall d dn es,
      resolve fs1 d = Some dn -> In id (Children (deref (nodes fs1) dn)) ->
      fst (ReadDir fs1 d) = (Some es, None) ->
      In (mkDirEntry (Name (deref (nodes fs1) id)) false) es.
Proof.
  apply (empty_file_is_a_file empty_fs "empty" 512); [reflexivity|reflexivity|lia].
Defined.

(** C10, counterexample.  [Create("./empty")] and [Close] on the empty
    store add a directory named [.] holding [empty]; [Open("./empty")]
    looks for [empty] under the root and fails. *)
Lemma create_dot_empty_then_open_fails :
  let '(wc, fs0) := Create empty_fs "./empty" in
  fst (Open (Close wc fs0) "./empty") = (None, Some ErrNotFound).
Proof. reflexivity. Qed.

(** *** Actions that do not close a handle *)








(** *** Committing an [Append] handle *)

Lemma Close_updateNode_spec (fs : MemFS) (r got : nat) (nd : dirNode)
    (c bs : list byte) (nm : string) :
  root fs = Some r -> resolve fs nm = Some got ->
  nodes fs !! got = Some nd -> B nd = Some c ->
  let fs' := Close (mkWriteCloser bs (Some (updateNode got))) fs in
  root fs' = Some r /\ resolve fs' nm = Some got /\
  nodes fs' !! got = Some (mkDirNode (Name nd) (Parent nd) (Children nd) (Some (c ++ bs))) /\
  (forall i, i <> got -> nodes fs' !! i = nodes fs !! i) /\
  fst (Open fs' nm) = (Some (memFile nm (c ++ bs)), None).
Proof.
  intros Hr Hres Hnd Hb. unfold Close, getBytes. cbn [w closeFn].
  unfold deref. rewrite Hnd, Hb. cbn [append_bytes]. cbv zeta.
  assert (Hres' : resolve (mkMemFS (root fs) (setB (nodes fs) got (Some (c ++ bs)))) nm = Some got).
  { unfold resolve in *. simpl. rewrite Hr in *.
    now rewrite (Get_same_shape _ _ _ _ (setB_same_shape _ _ _)). }
  split; [exact Hr|]. split; [exact Hres'|].
  split; [exact (setB_lookup _ _ _ _ Hnd)|].
  split; [intros i Hi; now apply setB_lookup_ne|].
  erewrite Open_file;
    [reflexivity|exact Hr|exact Hres'|exact (setB_lookup _ _ _ _ Hnd)|reflexivity].
Qed.

(** C3 (as amended).  Append semantics: if [p] denotes an existing file
    when [Append(p)] is called, then closing the handle after writing [b]
    appends [b] to the content the file has when the handle is closed:
    this is [c ++ b] for the content [c] found by [Append] when nothing was
    committed to the file in between, and [c' ++ b] when another writer
    committed [c'] in between.  If no node exists at [p], [Append(p)] is
    [Create(p)]. *)
Theorem append_semantics (fs : MemFS) (p : string) (b : list byte) :
  (forall got nd c,
     resolve (init fs) p = Some got -> nodes (init fs) !! got = Some nd -> B nd = Some c ->
     let '(wc, fs1) := Append fs p in
     fst (Open (Close (Write wc b) fs1) p) = (Some (memFile p (c ++ b)), None) /\
     forall fs2 nd2 c',
       root fs2 = root fs1 -> resolve fs2 p = Some got ->
       nodes fs2 !! got = Some nd2 -> B nd2 = Some c' ->
       fst (Open (Close (Write wc b) fs2) p) = (Some (memFile p (c' ++ b)), None)) /\
  (resolve (init fs) p = None -> Append fs p = Create fs p).
Proof.
  split.
  - intros got nd c Hres Hnd Hb. unfold Append. rewrite Hres.
    unfold Write. cbn [w closeFn app].
    destruct (init_root fs) as [r Hr].
    assert (Hall : forall fs2 nd2 c',
      root fs2 = root (init fs) -> resolve fs2 p = Some got ->
      nodes fs2 !! got = Some nd2 -> B nd2 = Some c' ->
      fst (Open (Close (mkWriteCloser b (Some (updateNode got))) fs2) p)
        = (Some (memFile p (c' ++ b)), None)).
    { intros fs2 nd2 c' Hr2 Hres2 Hnd2 Hb2. rewrite Hr in Hr2.
      now destruct (Close_updateNode_spec fs2 r got nd2 c' b p Hr2 Hres2 Hnd2 Hb2)
        as (_ & _ & _ & _ & Ho). }
    split; [|exact Hall]. now apply (Hall (init fs) nd c).
  - intros Hres. unfold Append. rewrite Hres. unfold Create. now rewrite init_idem.
Qed.

Lemma append_semantics_witness :
  let fs := SetBytes empty_fs "file1" bytes_12_13_14 in
  (let '(wc, fs1) := Append fs "file1" in
   fst (Open (Close (Write wc bytes_15_16) fs1) "file1")
     = (Some (memFile "file1" (bytes_12_13_14 ++ bytes_15_16)), None) /\
   fst (Open (Close (Write wc bytes_15_16) (SetBytes fs1 "file1" bytes_11_12_13)) "file1")
     = (Some (memFile "file1" (bytes_11_12_13 ++ bytes_15_16)), None)) /\
  Append empty_fs "file3" = Create empty_fs "file3".
Proof.
  split.
  - pose proof (proj1 (append_semantics (SetBytes empty_fs "file1" bytes_12_13_14)
                         "file1" bytes_15_16)
                  1 (mkDirNode "file1" (Some 0) [] (Some bytes_12_13_14)) bytes_12_13_14
                  eq_refl eq_refl eq_refl) as H.
    cbv zeta. destruct (Append (SetBytes empty_fs "file1" bytes_12_13_14) "file1") as [wc fs1] eqn:E.
    destruct H as [H1 H2]. split; [exact H1|].
    injection E as <- <-.
    exact (H2 (SetBytes (init (SetBytes empty_fs "file1" bytes_12_13_14)) "file1"
                 bytes_11_12_13)
              (mkDirNode "file1" (Some 0) [] (Some bytes_11_12_13)) bytes_11_12_13
              eq_refl eq_refl eq_refl eq_refl).
  - exact (proj2 (append_semantics empty_fs "file3" bytes_15_16) eq_refl).
Defined.

(** C3, counterexample.  [file1] holds [[12,13,14]]; a handle from
    [Append("file1")] gets [[15,16]]; before it is closed another writer
    commits [[11,12,13]] to [file1].  Closing the append handle then gives
    [[11,12,13,15,16]]: the bytes are appended to what the other writer
    committed, not to the content found when [Append] was called. *)
Lemma append_keeps_interleaved_commit :
  let fs := SetBytes empty_fs "file1" bytes_12_13_14 in
  let '(wc, fs1) := Append fs "file1" in
  let fs2 := SetBytes fs1 "file1" bytes_11_12_13 in
  let fs3 := Close (Write wc bytes_15_16) fs2 in
  fst (Open fs3 "file1") = (Some (memFile "file1" (bytes_11_12_13 ++ bytes_15_16)), None) /\
  fst (Open fs3 "file1") <> (Some (memFile "file1" (bytes_12_13_14 ++ bytes_15_16)), None).
Proof. split; [reflexivity|discriminate]. Qed.

(** *** Listings *)

Lemma ltb_false_leb (a b : string) : String.ltb b a = false -> String.leb a b = true.
Proof.
  unfold String.ltb, String.leb. rewrite (String.compare_antisym b a).
  destruct (String.compare a b); simpl; congruence.
Qed.

Lemma Sorted_impl {A : Type} (R1 R2 : A -> A -> Prop) (l : list A) :
  (forall a b, R1 a b -> R2 a b) -> Sorted R1 l -> Sorted R2 l.
Proof.
  intros HR. induction 1 as [|a l Hs IH Hhd]; constructor; [assumption|].
  destruct Hhd; constructor; auto.
Qed.

(** C4.  ReadDir listing: for every existing directory path [d],
    [ReadDir(d)] succeeds and returns one entry per direct child of the
    directory (its name and whether it is a directory) and nothing else,
    in ascending order of the names whatever the order of the children in
    the node; a subdirectory is listed like any other child, so a directory
    without direct files but with a subdirectory lists that subdirectory. *)
Theorem ReadDir_lists_children_sorted (fs : MemFS) (d : string) (dn : nat) :
  resolve (init fs) d = Some dn ->
  IsDirectory (deref (nodes (init fs)) dn) = true ->
  let h := nodes (init fs) in
  exists es,
    fst (ReadDir fs d) = (Some es, None) /\
    Permutation es (map (fun c => mkDirEntry (Name (deref h c)) (IsDirectory (deref h c)))
                        (Children (deref h dn))) /\
    Sorted (fun e1 e2 => String.leb (name e1) (name e2) = true) es /\
    (forall c, In c (Children (deref h dn)) -> IsDirectory (deref h c) = true ->
               In (mkDirEntry (Name (deref h c)) true) es).
Proof.
  intros Hres Hdir. cbv zeta. unfold ReadDir. rewrite Hres, Hdir.
  eexists. split; [reflexivity|].
  assert (Hperm : Permutation
    (sort_by entry_less (map (entry_of (nodes (init fs))) (Children (deref (nodes (init fs)) dn))))
    (map (entry_of (nodes (init fs))) (Children (deref (nodes (init fs)) dn))))
    by apply sort_by_perm.
  split; [exact Hperm|]. split.
  - apply (Sorted_impl (ascending entry_less)).
    + intros a b. unfold ascending, entry_less. apply ltb_false_leb.
    + apply sort_by_sorted. intros a b. apply ltb_asym.
  - intros c Hc Hcd. apply (Permutation_in _ (Permutation_sym Hperm)).
    apply in_map_iff. exists c. split; [|assumption].
    unfold entry_of. now rewrite Hcd.
Qed.

Lemma ReadDir_lists_children_sorted_witness :
  exists es,
    fst (ReadDir battery_fs "dir4") = (Some es, None) /\
    Permutation es [mkDirEntry "dir5" true] /\
    Sorted (fun e1 e2 => String.leb (name e1) (name e2) = true) es /\
    (forall c, In c [12] -> IsDirectory (deref (nodes (init battery_fs)) c) = true ->
               In (mkDirEntry (Name (deref (nodes (init battery_fs)) c)) true) es).
Proof.
  exact (ReadDir_lists_children_sorted battery_fs "dir4" 11 eq_refl eq_refl).
Defined.

(** The file scenarios of the battery: open a missing file, create,
    overwrite, append to an existing and to a missing file, create an empty
    file. *)
Example files_battery :
  let fs1 := SetBytes empty_fs "file1" bytes_11_12_13 in
  let fs2 := SetBytes fs1 "file1" bytes_12_13_14 in
  let fs3 := AppendBytes fs2 "file1" bytes_15_16 in
  let fs4 := AppendBytes fs3 "file3" bytes_11_12_13 in
  let fs5 := SetBytes fs4 "empty" [] in
  fst (Open empty_fs "file.txt") = (None, Some ErrNotFound) /\
  fst (Open fs1 "file1") = (Some (memFile "file1" bytes_11_12_13), None) /\
  fst (Open fs2 "file1") = (Some (memFile "file1" bytes_12_13_14), None) /\
  fst (Open fs3 "file1") = (Some (memFile "file1" (bytes_12_13_14 ++ bytes_15_16)), None) /\
  fst (Open fs4 "file3") = (Some (memFile "file3" bytes_11_12_13), None) /\
  fst (Open fs5 "empty") = (Some (memFile "empty" []), None).
Proof. vm_compute. repeat split. Qed.

(** The listings of the battery. *)
Example ReadDir_battery :
  fst (ReadDir battery_fs "dir1")
    = (Some [mkDirEntry "file1A" false; mkDirEntry "file1B" false], None) /\
  fst (ReadDir battery_fs "dir2")
    = (Some [mkDirEntry "dir3" true; mkDirEntry "file2A" false; mkDirEntry "file2B" false],
       None) /\
  fst (ReadDir battery_fs "dir2/dir3")
    = (Some [mkDirEntry "file3A" false; mkDirEntry "file3B" false], None) /\
  fst (ReadDir battery_fs "dir4") = (Some [mkDirEntry "dir5" true], None) /\
  fst (ReadDir battery_fs "non-existent-dir") = (None, Some ErrNotFound).
Proof. repeat split. Qed.

(** C5 (as amended).  Listing a file: for every path [p] at which a file
    exists, [ReadDir(p)] and [ListFiles(p)] fail with [ErrNotFound], the
    error [ReadDir] also gives for an absent path; a directory-listing call
    on a file handle fails with an error of its own that says the path is a
    file. *)
Theorem listing_a_file_fails (fs : MemFS) (p : string) (id : nat) :
  resolve (init fs) p = Some id ->
  IsDirectory (deref (nodes (init fs)) id) = false ->
  fst (ReadDir fs p) = (None, Some ErrNotFound) /\
  fst (ListFiles fs p) = Some (Returns (None, Some ErrNotFound)) /\
  (forall q, resolve (init fs) q = None -> fst (ReadDir fs q) = fst (ReadDir fs p)) /\
  (forall c n fs',
     fst (fst (File_ReadDir (memFile p c) n fs'))
       = (None, Some (Errorf ("cannot ReadDir '" ++ p ++ "'. Path is a file")%string)) /\
     snd (fst (fst (File_ReadDir (memFile p c) n fs'))) <> Some ErrNotFound).
Proof.
  intros Hres Hf. unfold ReadDir, ListFiles. rewrite Hres, Hf. simpl.
  split; [reflexivity|]. split; [reflexivity|]. split.
  - intros q Hq. now rewrite Hq.
  - intros c n fs'. split; [reflexivity|discriminate].
Qed.

Lemma listing_a_file_fails_witness :
  fst (ReadDir battery_fs "file1") = (None, Some ErrNotFound) /\
  fst (ListFiles battery_fs "file1") = Some (Returns (None, Some ErrNotFound)) /\
  (forall q, resolve (init battery_fs) q = None ->
             fst (ReadDir battery_fs q) = fst (ReadDir battery_fs "file1")) /\
  (forall c n fs',
     fst (fst (File_ReadDir (memFile "file1" c) n fs'))
       = (None, Some (Errorf ("cannot ReadDir '" ++ "file1" ++ "'. Path is a file")%string)) /\
     snd (fst (fst (File_ReadDir (memFile "file1" c) n fs'))) <> Some ErrNotFound).
Proof.
  exact (listing_a_file_fails battery_fs "file1" 1 eq_refl eq_refl).
Defined.

(** C5, counterexample.  [file1] is a file of the battery store;
    [ReadDir("file1")] and [ListFiles("file1")] fail with [ErrNotFound],
    as [ReadDir] does for the absent [non-existent-dir]. *)
Lemma listing_a_file_is_ErrNotFound :
  fst (Open battery_fs "file1") = (Some (memFile "file1" bytes_12_13_14), None) /\
  fst (ReadDir battery_fs "file1") = (None, Some ErrNotFound) /\
  fst (ListFiles battery_fs "file1") = Some (Returns (None, Some ErrNotFound)) /\
  fst (ReadDir battery_fs "file1") = fst (ReadDir battery_fs "non-existent-dir").
Proof. repeat split. Qed.

(** *** Pagination *)

Lemma paginate_empty (nm : string) (n : Z) :
  (0 <= n)%Z -> paginate nm (Some []) n = ((Some [], Some EOF), memDir nm (Some [])).
Proof.
  intros Hn. unfold paginate. simpl.
  destruct (Z.ltb_spec n 0); [lia|reflexivity].
Qed.

Lemma paginate_page (nm : string) (n : Z) (l : list dirEntry) :
  (1 <= n)%Z -> l <> [] ->
  exists size, 0 < size /\
    paginate nm (Some l) n = ((Some (firstn size l), None), memDir nm (Some (skipn size l))).
Proof.
  intros Hn Hl. unfold paginate.
  destruct l as [|e l]; [congruence|]. cbn [length Nat.eqb].
  destruct (Z.ltb_spec n 0) as [|_]; [lia|]. cbn [orb].
  destruct (n >? Z.of_nat (S (length l)))%Z.
  - exists (S (length l)). split; [lia|reflexivity].
  - exists (Z.to_nat n). split; [lia|reflexivity].
Qed.

(** A handle that has its entries cached hands all of them out, page by
    page, and then reports [io.EOF] with an empty page. *)
Lemma drain_cached (nm : string) (n : Z) (fs : MemFS) :
  (1 <= n)%Z ->
  forall fuel rest, length rest < fuel ->
    drain fuel n (memDir nm (Some rest)) fs = Some (rest, Some []).
Proof.
  intros Hn. induction fuel as [|fuel IH]; intros rest Hlen; [lia|].
  cbn [drain File_ReadDir].
  destruct rest as [|e rest].
  - rewrite paginate_empty by lia. reflexivity.
  - destruct (paginate_page nm n (e :: rest) Hn ltac:(discriminate)) as (size & Hsz & ->).
    rewrite IH.
    + now rewrite firstn_skipn.
    + rewrite length_skipn. simpl in *. lia.
Qed.

Lemma Open_directory (fs : MemFS) (nm : string) (h : File) (cache : option (list dirEntry)) :
  fst (Open fs nm) = (Some h, None) -> h = memDir nm cache ->
  cache = None /\ exists es, ReadDir fs nm = ((Some es, None), init fs).
Proof.
  unfold Open, ReadDir, IsDirectory.
  destruct (resolve (init fs) nm) as [node|]; [|discriminate].
  destruct (B (deref (nodes (init fs)) node)); simpl; intros [= <-] Hh; [discriminate|].
  injection Hh as <-. eauto.
Qed.

(** C7.  Pagination equivalence: for every directory handle and every page
    size [n >= 1], calling [ReadDir(n)] on the handle until [io.EOF]
    yields, concatenated, the entries that a single [ReadDir(-1)] on a
    fresh handle over the same directory returns, in the same order;
    [io.EOF] comes with an empty page, after all entries were handed out
    and within one call more than there are entries. *)
Theorem pagination_equivalence (fs : MemFS) (nm : string) (n : Z) (h : File)
    (cache : option (list dirEntry)) :
  (1 <= n)%Z ->
  fst (Open fs nm) = (Some h, None) -> h = memDir nm cache ->
  exists es,
    fst (fst (File_ReadDir h (-1) fs)) = (Some es, None) /\
    drain (S (length es)) n h fs = Some (es, Some []).
Proof.
  intros Hn Hopen Hh. destruct (Open_directory fs nm h cache Hopen Hh) as (-> & es & E).
  subst h. exists es. split.
  - cbn [File_ReadDir]. rewrite E. unfold paginate.
    destruct es as [|e es]; [reflexivity|].
    cbn [length Nat.eqb Z.ltb Z.compare orb fst firstn]. now rewrite firstn_all.
  - pose proof (drain_cached nm n (init fs) Hn (S (length es)) es ltac:(lia)) as Hd.
    cbn [drain File_ReadDir] in *. now rewrite E.
Qed.

Lemma pagination_equivalence_witness :
  exists es,
    fst (fst (File_ReadDir (memDir "dir2" None) (-1) battery_fs)) = (Some es, None) /\
    drain (S (length es)) 2 (memDir "dir2" None) battery_fs = Some (es, Some []).
Proof.
  apply (pagination_equivalence battery_fs "dir2" 2 (memDir "dir2" None) None);
    [lia|vm_compute; reflexivity|reflexivity].
Defined.

(** The pages of the battery for [dir2], two entries at a time. *)
Example pagination_battery :
  let '(p1, h1, fs1) := File_ReadDir (memDir "dir2" None) 2 battery_fs in
  let '(p2, h2, fs2) := File_ReadDir h1 2 fs1 in
  let '(p3, h3, fs3) := File_ReadDir h2 2 fs2 in
  p1 = (Some [mkDirEntry "dir3" true; mkDirEntry "file2A" false], None) /\
  p2 = (Some [mkDirEntry "file2B" false], None) /\
  p3 = (Some [], Some EOF).
Proof. vm_compute. repeat split. Qed.

(** *** What a commit keeps *)

Lemma persists_refl (h : store) : persists h h.
Proof. intros i nd H. eauto. Qed.

Lemma persists_trans (h1 h2 h3 : store) : persists h1 h2 -> persists h2 h3 -> persists h1 h3.
Proof.
  intros H12 H23 i nd Hi.
  destruct (H12 i nd Hi) as (nd2 & H2 & Hn & Hp & Hk).
  destruct (H23 i nd2 H2) as (nd3 & H3 & Hn' & Hp' & Hk').
  exists nd3. repeat split; [assumption|congruence|congruence|auto].
Qed.

Lemma extends_persists (h h' : store) : extends h h' -> persists h h'.
Proof.
  intros He i nd Hi. destruct (He i nd Hi) as (nd' & H' & Hn & Hp & Hb).
  exists nd'. repeat split; try assumption. unfold IsDirectory. now rewrite Hb.
Qed.

Lemma init_persists (fs : MemFS) : persists (nodes fs) (nodes (init fs)).
Proof.
  unfold init. destruct (root fs); [apply persists_refl|].
  intros i nd Hi. exists nd. simpl. split; [now apply lookup_app_l_Some|auto].
Qed.

Lemma init_lookup (fs : MemFS) (i : nat) (nd : dirNode) :
  nodes fs !! i = Some nd -> nodes (init fs) !! i = Some nd.
Proof.
  unfold init. destruct (root fs); [trivial|]. simpl. apply lookup_app_l_Some.
Qed.

Lemma GetOrAdd_spec (h h' : store) b (r id : nat) (path : list string) :
  wf_store h = true -> r < length h -> path <> [] ->
  GetOrAdd h b r path = (h', id) ->
  wf_store h' = true /\ id < length h' /\ extends h h'.
Proof.
  intros Hwf Hr Hne. unfold GetOrAdd.
  destruct (Get h r path) as [got|] eqn:Eg.
  - intros [= <- <-]. split; [assumption|].
    split; [now apply (Get_valid h path r got)|apply extends_refl].
  - destruct (AddDescendant_spec path h b r Hwf Hr Hne)
      as (h2 & id2 & E & Hwf2 & Hid & Hext & _).
    rewrite E. intros [= <- <-]. split; [assumption|]. split; [lia|assumption].
Qed.

(** Closing a handle keeps the store well formed and every node in place;
    it changes the content of one node at most, and never turns a file
    into a directory. *)
Lemma Close_preserves (wc : writeCloser) (fs : MemFS) :
  wf fs = true ->
  let fs' := Close wc fs in
  wf fs' = true /\ root fs' = root fs /\ persists (nodes fs) (nodes fs') /\
  exists t, forall i nd, i <> t -> nodes fs !! i = Some nd ->
    exists nd', nodes fs' !! i = Some nd' /\ B nd' = B nd.
Proof.
  intros Hwf. unfold Close.
  destruct (closeFn wc) as [[nm|got]|].
  - destruct (root fs) as [r|] eqn:Hr.
    + destruct (wf_unfold fs r Hwf Hr) as [Hs Hlt].
      destruct (GetOrAdd (nodes fs) (getBytes (w wc)) r (nameToPath nm)) as [h1 id] eqn:E.
      destruct (GetOrAdd_spec _ _ _ _ _ _ Hs Hlt (nameToPath_nonempty nm) E)
        as (Hwf1 & Hid & Hext).
      cbv zeta. pose proof (extends_length _ _ Hext) as Hlen.
      split; [apply wf_intro; [now apply wf_store_setB|rewrite setB_length; lia]|].
      split; [reflexivity|]. split.
      * intros i nd Hi. destruct (Hext i nd Hi) as (nd1 & H1 & Hn & Hp & Hb).
        destruct (Nat.eq_dec i id) as [->|Hne].
        -- eexists. split; [exact (setB_lookup _ _ _ _ H1)|]. simpl. auto.
        -- exists nd1. simpl. rewrite setB_lookup_ne by assumption.
           repeat split; try assumption. unfold IsDirectory. now rewrite Hb.
      * exists id. intros i nd Hne Hi. destruct (Hext i nd Hi) as (nd1 & H1 & _ & _ & Hb).
        exists nd1. simpl. now rewrite setB_lookup_ne.
    + cbv zeta. split; [assumption|]. split; [assumption|].
      split; [apply persists_refl|]. exists 0. eauto.
  - unfold getBytes. cbv zeta. simpl.
    split; [|split; [reflexivity|split]].
    + unfold wf in *. simpl. apply andb_true_iff in Hwf as [H1 H2].
      rewrite wf_store_setB by assumption. now rewrite setB_length.
    + intros i nd Hi. destruct (Nat.eq_dec i got) as [->|Hne].
      * eexists. split; [exact (setB_lookup _ _ _ _ Hi)|]. simpl.
        repeat split. unfold deref, IsDirectory. rewrite Hi.
        destruct (B nd); [reflexivity|discriminate].
      * exists nd. now rewrite setB_lookup_ne.
    + exists got. intros i nd Hne Hi. exists nd. now rewrite setB_lookup_ne.
  - cbv zeta. split; [assumption|]. split; [reflexivity|].
    split; [apply persists_refl|]. exists 0. eauto.
Qed.

Lemma step_preserves (wd : world) (a : action) :
  wf (wfs wd) = true ->
  wf (wfs (step wd a)) = true /\ persists (nodes (wfs wd)) (nodes (wfs (step wd a))).
Proof.
  intros Hwf. destruct a as [nm|nm|k p|k]; simpl.
  - split; [now apply wf_init|apply init_persists].
  - pose proof (Append_state (wfs wd) nm) as Hs.
    destruct (Append (wfs wd) nm) as [wc fs1]. simpl in *. subst fs1.
    split; [now apply wf_init|apply init_persists].
  - destruct (handles wd !! k); simpl; (split; [assumption|apply persists_refl]).
  - destruct (handles wd !! k) as [wc|]; simpl; [|split; [assumption|apply persists_refl]].
    destruct (Close_preserves wc (wfs wd) Hwf) as (H1 & _ & H3 & _). now split.
Qed.

Lemma run_preserves (acts : list action) :
  forall wd, wf (wfs wd) = true ->
    wf (wfs (run wd acts)) = true /\ persists (nodes (wfs wd)) (nodes (wfs (run wd acts))).
Proof.
  induction acts as [|a acts IH]; intros wd Hwf; simpl.
  - split; [assumption|apply persists_refl].
  - destruct (step_preserves wd a Hwf) as [Hwf1 Hp1].
    destruct (IH (step wd a) Hwf1) as [Hwf2 Hp2].
    split; [assumption|]. eapply persists_trans; eassumption.
Qed.

(** Every store a session reaches from the zero [MemFS] is well formed. *)
Lemma reachable_wf (acts : list action) : wf (wfs (run empty_world acts)) = true.
Proof. now apply run_preserves. Qed.

(** C9 (as amended).  Node kinds: a node is a directory when its content
    is nil and a file otherwise.  Under every sequence of [Create],
    [Append], [Write] and [Close] every node stays in the store with its
    name and parent, and a file stays a file; closing one handle changes
    the content, hence the kind, of one node at most; [Open], [ReadDir],
    [ListFiles] and a listing through a handle change no node. *)
Theorem node_kinds (wd : world) (acts : list action) (i : nat) (nd : dirNode) :
  wf (wfs wd) = true ->
  nodes (wfs wd) !! i = Some nd ->
  (exists nd', nodes (wfs (run wd acts)) !! i = Some nd' /\
               Name nd' = Name nd /\ Parent nd' = Parent nd /\
               (IsDirectory nd = false -> IsDirectory nd' = false)) /\
  (forall wc, exists t, forall j ndj, j <> t -> nodes (wfs wd) !! j = Some ndj ->
     exists ndj', nodes (Close wc (wfs wd)) !! j = Some ndj' /\
                  IsDirectory ndj' = IsDirectory ndj) /\
  (forall q f n,
     nodes (snd (Open (wfs wd) q)) !! i = Some nd /\
     nodes (snd (ReadDir (wfs wd) q)) !! i = Some nd /\
     nodes (snd (ListFiles (wfs wd) q)) !! i = Some nd /\
     nodes (snd (File_ReadDir f n (wfs wd))) !! i = Some nd).
Proof.
  intros Hwf Hi. split; [|split].
  - destruct (run_preserves acts wd Hwf) as [_ Hp]. exact (Hp i nd Hi).
  - intros wc. destruct (Close_preserves wc (wfs wd) Hwf) as (_ & _ & _ & t & Ht).
    exists t. intros j ndj Hne Hj. destruct (Ht j ndj Hne Hj) as (ndj' & H' & Hb).
    exists ndj'. split; [assumption|]. unfold IsDirectory. now rewrite Hb.
  - intros q f n. pose proof (init_lookup _ _ _ Hi) as Hi'.
    assert (Hrd : forall nm, nodes (snd (ReadDir (wfs wd) nm)) !! i = Some nd).
    { intros nm. unfold ReadDir. destruct (resolve (init (wfs wd)) nm); [|exact Hi'].
      destruct (IsDirectory _); exact Hi'. }
    split; [|split; [apply Hrd|split]].
    + unfold Open. destruct (resolve (init (wfs wd)) q); [|exact Hi'].
      destruct (B _); exact Hi'.
    + unfold ListFiles. destruct (resolve (init (wfs wd)) q); [|exact Hi'].
      destruct (negb _); [exact Hi'|].
      destruct (DFS _ _ _); [|exact Hi']. destruct (collect_paths _ _ _); exact Hi'.
    + destruct f as [nm buf|nm [l|]]; simpl; try exact Hi.
      specialize (Hrd nm). destruct (ReadDir (wfs wd) nm) as [[es [err|]] fs1]; exact Hrd.
Qed.

Lemma node_kinds_witness :
  let wd := mkWorld battery_fs [] in
  let acts := [ACreate "file1"; AAppend "dir1/file1A"; AWrite 1 bytes_15_16;
               AClose 0; AClose 1; AClose 1] in
  exists nd', nodes (wfs (run wd acts)) !! 1 = Some nd' /\
              Name nd' = "file1" /\ Parent nd' = Some 0 /\
              (false = false -> IsDirectory nd' = false).
Proof.
  cbv zeta.
  refine (proj1 (node_kinds (mkWorld battery_fs [])
                   [ACreate "file1"; AAppend "dir1/file1A"; AWrite 1 bytes_15_16;
                    AClose 0; AClose 1; AClose 1]
                   1 (mkDirNode "file1" (Some 0) [] (Some bytes_12_13_14)) _ _));
    vm_compute; reflexivity.
Defined.

(** C9, counterexample.  [dir1] of the battery store is a directory with
    two files.  [Create("dir1")], [Write], [Close] sets the content of that
    very node: it is a file from then on, and still has its children. *)
Lemma Create_turns_directory_into_file :
  let fs := SetBytes battery_fs "dir1" bytes_11_12_13 in
  resolve battery_fs "dir1" = Some 2 /\
  IsDirectory (deref (nodes battery_fs) 2) = true /\
  resolve fs "dir1" = Some 2 /\
  IsDirectory (deref (nodes fs) 2) = false /\
  Children (deref (nodes fs) 2) = [3; 4] /\
  fst (Open fs "dir1") = (Some (memFile "dir1" bytes_11_12_13), None) /\
  fst (ReadDir fs "dir1") = (None, Some ErrNotFound).
Proof. repeat split. Qed.

(** C6, the failing input.  [non-existent-dir] does not resolve in the
    battery store: [Open] and [ReadDir] fail with [ErrNotFound], but
    [ListFiles] goes on with the nil node and panics. *)
Lemma ListFiles_missing_dir_panics :
  resolve battery_fs "non-existent-dir" = None /\
  fst (Open battery_fs "non-existent-dir") = (None, Some ErrNotFound) /\
  fst (ReadDir battery_fs "non-existent-dir") = (None, Some ErrNotFound) /\
  fst (ListFiles battery_fs "non-existent-dir") = Some Panics.
Proof. repeat split. Qed.

(** The parts of path resolution that hold: the three kinds of segment,
    and [ErrNotFound] from [Open] and [ReadDir] when a segment does not
    resolve; [ListFiles] panics there. *)
Lemma resolution_rules (h : store) (node : nat) (nd : dirNode) (seg : string) :
  h !! node = Some nd ->
  Get_step h node "." = Some node /\
  Get_step h node ".." = Parent nd /\
  (plain seg = true -> Get_step h node seg = dirNodeSlice_Get h (Children nd) seg).
Proof.
  intros Hnd. unfold Get_step. rewrite Hnd. simpl. repeat split.
  unfold plain. intros Hp. apply andb_true_iff in Hp as [Hp1 Hp2].
  apply negb_true_iff in Hp1, Hp2. now rewrite Hp1, Hp2.
Qed.

Lemma unresolved_path (fs : MemFS) (p : string) :
  resolve (init fs) p = None ->
  Open fs p = ((None, Some ErrNotFound), init fs) /\
  ReadDir fs p = ((None, Some ErrNotFound), init fs) /\
  ListFiles fs p = (Some Panics, init fs).
Proof. intros H. unfold Open, ReadDir, ListFiles. now rewrite H. Qed.




(** ** The flat-map variant publishes at [Create] *)

(** In the flat-map [MemFS] a file is visible, and its old content gone,
    as soon as [Create] returns, and every [Write] is visible at once; the
    source says so itself ("the buffer shouldn't be added to m until the
    consumer closes the writer").  The tree-backed [MemFS] above is the one
    that commits on [Close]. *)
Lemma FlatMap_publishes_before_Close (fs : FlatMap.MemFS) (p : string) (b : list byte) :
  let '(wc, fs1) := FlatMap.Create fs p in
  FlatMap.Open fs1 p = (Some (memFile p []), None) /\
  FlatMap.Open (FlatMap.Write fs1 wc b) p = (Some (memFile p b), None).
Proof.
  unfold FlatMap.Create, FlatMap.Open, FlatMap.Write. simpl.
  rewrite lookup_insert_eq.
  rewrite lookup_app_r by lia. rewrite Nat.sub_diag. simpl.
  split; [reflexivity|].
  rewrite lookup_insert_eq.
  rewrite list_lookup_insert_eq by (rewrite length_app; simpl; lia).
  reflexivity.
Qed.

(** ** Children have pairwise different names *)

Lemma deref_name_extends (h h' : store) (i : nat) :
  extends h h' -> i < length h -> Name (deref h' i) = Name (deref h i).
Proof.
  intros He Hi. destruct (lookup_lt_is_Some_2 h i Hi) as [nd Hnd].
  destruct (He i nd Hnd) as (nd' & H' & Hn & _).
  unfold deref. now rewrite Hnd, H'.
Qed.

Lemma child_names_stable (h h' : store) (nd nd' : dirNode) :
  Children nd' = Children nd ->
  (forall c, In c (Children nd) -> Name (deref h' c) = Name (deref h c)) ->
  child_names h' nd' = child_names h nd.
Proof. unfold child_names. intros -> H. now apply map_ext_in. Qed.

Lemma unique_names_same_shape (h h' : store) :
  same_shape h h' -> unique_names h -> unique_names h'.
Proof.
  intros Hs Hu i nd' Hi.
  assert (Hname : forall c, Name (deref h' c) = Name (deref h c)).
  { intros c. specialize (Hs c). unfold deref, shape in *.
    destruct (h' !! c), (h !! c); simpl in Hs; congruence. }
  specialize (Hs i). rewrite Hi in Hs.
  destruct (h !! i) as [nd|] eqn:E; simpl in Hs; [|discriminate].
  injection Hs as _ _ Hch.
  rewrite (child_names_stable h h' nd nd') by auto. now apply (Hu i).
Qed.

Lemma unique_names_AddChild (h h' : store) (node c : nat) (nm : string) b (nd : dirNode) :
  wf_store h = true -> unique_names h -> h !! node = Some nd ->
  dirNodeSlice_Get h (Children nd) nm = None ->
  AddChild h node nm b = (h', c) -> unique_names h'.
Proof.
  intros Hwf Hu Hnd Hg Hadd.
  destruct (AddChild_spec h node nm b nd Hnd) as (h2 & cs & E & Hlen & Hnew & Hnode & Hperm & Hrest).
  rewrite E in Hadd. injection Hadd as <- <-.
  pose proof (lookup_lt_Some _ _ _ Hnd) as Hlt.
  assert (Hname : forall x, x < length h -> Name (deref h2 x) = Name (deref h x)).
  { intros x Hx. unfold deref. destruct (Nat.eq_dec x node) as [->|Hne].
    - now rewrite Hnode, Hnd.
    - now rewrite Hrest. }
  intros i ndi Hi. destruct (Nat.eq_dec i node) as [->|Hne].
  - rewrite Hnode in Hi. injection Hi as <-. unfold child_names. simpl.
    apply (Permutation_NoDup (Permutation_sym (Permutation_map _ Hperm))).
    rewrite map_app. simpl. apply List.NoDup_app.
    + rewrite (map_ext_in _ (fun c => Name (deref h c))).
      * exact (Hu node nd Hnd).
      * intros x Hx. apply Hname.
        pose proof (wf_store_children h node x nd Hwf Hnd Hx). lia.
    + repeat constructor. intros [].
    + intros a Ha [<-|[]]. apply in_map_iff in Ha as (x & Hx & Hin).
      pose proof (wf_store_children h node x nd Hwf Hnd Hin) as Hxr.
      rewrite Hname in Hx by lia.
      apply (dirNodeSlice_Get_None _ _ _ Hg x Hin).
      unfold deref in Hx. rewrite Hnew in Hx. simpl in Hx.
      destruct (lookup_lt_is_Some_2 h x (proj2 Hxr)) as [ndx Hndx].
      rewrite Hndx in *. simpl. congruence.
  - destruct (Nat.eq_dec i (length h)) as [->|Hne'].
    + rewrite Hnew in Hi. injection Hi as <-. constructor.
    + apply lookup_lt_Some in Hi as Hi'. rewrite Hrest in Hi by lia.
      rewrite (child_names_stable h h2 ndi ndi); [now apply (Hu i)|reflexivity|].
      intros x Hx. apply Hname.
      pose proof (wf_store_children h i x ndi Hwf Hi Hx). lia.
Qed.

Lemma unique_names_child_or_add (h h1 : store) (node c : nat) (seg : string) b (nd : dirNode) :
  wf_store h = true -> unique_names h -> h !! node = Some nd ->
  child_or_add h node seg b = (h1, c) -> unique_names h1.
Proof.
  intros Hwf Hu Hnd. unfold child_or_add, deref. rewrite Hnd.
  destruct (dirNodeSlice_Get h (Children nd) seg) eqn:Eg.
  - now intros [= <- <-].
  - now apply unique_names_AddChild with (nd := nd).
Qed.

Lemma unique_names_AddDescendant (path : list string) :
  forall (h h' : store) b (node id : nat),
    wf_store h = true -> unique_names h -> node < length h ->
    AddDescendant h b node path = (h', id) -> unique_names h'.
Proof.
  induction path as [|seg rest IH]; intros h h' b node id Hwf Hu Hlt; [now intros [= <- <-]|].
  destruct (lookup_lt_is_Some_2 h node Hlt) as [nd Hnd].
  rewrite AddDescendant_cons. destruct rest as [|s2 rest'].
  - now apply unique_names_child_or_add with (nd := nd).
  - destruct (child_or_add h node seg None) as [h1 c] eqn:E.
    destruct (child_or_add_spec _ _ _ _ _ _ _ Hwf Hnd E) as (Hwf1 & Hc & _).
    apply IH; [assumption| |lia].
    now apply (unique_names_child_or_add h h1 node c seg None nd).
Qed.

Lemma unique_names_init (fs : MemFS) : unique_names (nodes fs) -> unique_names (nodes (init fs)).
Proof.
  unfold init. destruct (root fs); [trivial|]. simpl. intros Hu i nd Hi.
  destruct (Nat.lt_ge_cases i (length (nodes fs))) as [Hlt|Hge].
  - rewrite lookup_app_l in Hi by assumption. specialize (Hu i nd Hi).
    unfold child_names in *. rewrite (map_ext_in _ (fun c => Name (deref (nodes fs) c))); [assumption|].
    intros c Hc. unfold deref.
    destruct (nodes fs !! c) as [ndc|] eqn:Ec.
    + now rewrite (lookup_app_l_Some _ _ _ _ Ec).
    + apply lookup_ge_None in Ec. rewrite lookup_app_r by assumption.
      destruct (c - length (nodes fs)) as [|k]; [reflexivity|]. now destruct k.
  - rewrite lookup_app_r in Hi by assumption.
    destruct (i - length (nodes fs)) as [|k]; simpl in Hi; [|destruct k; discriminate].
    injection Hi as <-. constructor.
Qed.

Lemma unique_names_Close (wc : writeCloser) (fs : MemFS) :
  wf fs = true -> unique_names (nodes fs) -> unique_names (nodes (Close wc fs)).
Proof.
  intros Hwf Hu. unfold Close.
  destruct (closeFn wc) as [[nm|got]|]; [| |assumption].
  - destruct (root fs) as [r|] eqn:Hr; [|assumption].
    destruct (wf_unfold fs r Hwf Hr) as [Hs Hlt].
    unfold GetOrAdd. destruct (Get (nodes fs) r (nameToPath nm)) as [g|].
    + simpl. apply (unique_names_same_shape _ _ (setB_same_shape _ _ _) Hu).
    + destruct (AddDescendant (nodes fs) (getBytes (w wc)) r (nameToPath nm)) as [h1 id] eqn:E.
      simpl. apply (unique_names_same_shape _ _ (setB_same_shape _ _ _)).
      now apply (unique_names_AddDescendant _ _ _ _ _ _ Hs Hu Hlt E).
  - simpl. apply (unique_names_same_shape _ _ (setB_same_shape _ _ _) Hu).
Qed.

(** In every store a session reaches from the zero [MemFS] the children of
    a node have pairwise different names, so that the order [sort.Sort] and
    [sort.Slice] leave them in is the only ascending one. *)
Lemma reachable_unique_names (acts : list action) :
  unique_names (nodes (wfs (run empty_world acts))).
Proof.
  assert (H : forall wd, wf (wfs wd) = true -> unique_names (nodes (wfs wd)) ->
                         unique_names (nodes (wfs (run wd acts)))).
  { induction acts as [|a acts IH]; intros wd Hwf Hu; [assumption|].
    change (run wd (a :: acts)) with (run (step wd a) acts).
    apply IH; [now apply step_preserves|].
    destruct a as [nm|nm|k p|k]; simpl.
    - now apply unique_names_init.
    - pose proof (Append_state (wfs wd) nm) as Hs.
      destruct (Append (wfs wd) nm) as [wc fs1]. simpl in *. subst fs1.
      now apply unique_names_init.
    - now destruct (handles wd !! k).
    - destruct (handles wd !! k); [|assumption]. now apply unique_names_Close. }
  apply H; [reflexivity|]. intros i nd Hi. destruct i; discriminate.
Qed.

(* ================================================================== *)
(** * Further properties of the code *)

(** ** [nameToPath] *)

Lemma concat_sep_cons (x : string) (l : list string) :
  l <> [] -> String.concat "/" (x :: l) = (x ++ "/" ++ String.concat "/" l)%string.
Proof. destruct l; [congruence|reflexivity]. Qed.

Lemma nameToPath_concat (s : string) : String.concat "/" (nameToPath s) = s.
Proof.
  induction s as [|c s IH]; [reflexivity|]. cbn [nameToPath].
  destruct (Ascii.eqb_spec c "/"%char) as [->|Hc].
  - rewrite concat_sep_cons by apply nameToPath_nonempty. now rewrite IH.
  - pose proof (nameToPath_nonempty s) as Hne.
    destruct (nameToPath s) as [|seg segs]; [congruence|].
    destruct segs as [|seg2 segs]; simpl in *; now rewrite <- IH.
Qed.

(** X1.  [nameToPath] loses nothing of a name: joining the segments with
    the separator gives the name back, so two different names never have
    the same path. *)
Theorem nameToPath_round_trip (s t : string) :
  String.concat "/" (nameToPath s) = s /\
  (nameToPath s = nameToPath t -> s = t).
Proof.
  split; [apply nameToPath_concat|].
  intros H. rewrite <- (nameToPath_concat s), <- (nameToPath_concat t). now rewrite H.
Qed.

Lemma nameToPath_round_trip_witness :
  String.concat "/" (nameToPath "dir2//dir3/") = "dir2//dir3/" /\
  (nameToPath "dir2//dir3/" = nameToPath "dir2//dir3/" -> "dir2//dir3/" = "dir2//dir3/").
Proof. exact (nameToPath_round_trip "dir2//dir3/" "dir2//dir3/"). Defined.

Lemma nameToPath_shape (s : string) :
  length (nameToPath s) = S (count_sep s) /\
  Forall (fun seg => count_sep seg = 0) (nameToPath s).
Proof.
  induction s as [|c s [IHl IHf]]; [split; [reflexivity|repeat constructor]|].
  cbn [nameToPath count_sep]. destruct (Ascii.eqb_spec c "/"%char) as [->|Hc].
  - split; [simpl; now rewrite IHl|]. constructor; [reflexivity|assumption].
  - destruct (nameToPath s) as [|seg segs]; [discriminate|].
    split; [exact IHl|]. inversion IHf as [|? ? Hseg Hsegs]; subst.
    constructor; [|assumption]. cbn [count_sep].
    destruct (Ascii.eqb_spec c "/"%char); [contradiction|exact Hseg].
Qed.

(** X2.  A name with [k] separators has [k + 1] segments, and no
    segment contains a separator. *)
Theorem nameToPath_segments (s : string) :
  length (nameToPath s) = S (count_sep s) /\
  Forall (fun seg => count_sep seg = 0) (nameToPath s).
Proof. exact (nameToPath_shape s). Qed.

(** ** The invariants of the tree *)

Lemma nodeName_deref (h : store) (c : nat) : nodeName h c = Name (deref h c).
Proof. unfold nodeName, deref. now destruct (h !! c). Qed.

Lemma Sorted_map {A C : Type} (R : A -> A -> Prop) (R' : C -> C -> Prop) (f : A -> C)
    (l : list A) :
  (forall a b, R a b -> R' (f a) (f b)) -> Sorted R l -> Sorted R' (map f l).
Proof.
  intros HR. induction 1 as [|a l Hs IH Hhd]; simpl; constructor; [assumption|].
  destruct Hhd; simpl; constructor; auto.
Qed.

Lemma deref_same_shape (h h' : store) (c : nat) :
  same_shape h h' -> shape (deref h' c) = shape (deref h c).
Proof.
  intros Hs. specialize (Hs c). unfold deref.
  destruct (h' !! c), (h !! c); simpl in Hs; congruence.
Qed.

Lemma store_inv_same_shape (h h' : store) :
  same_shape h h' -> store_inv h -> store_inv h'.
Proof.
  intros Hs (Hu & Hso & Hp).
  split; [now apply (unique_names_same_shape h h')|].
  assert (Hnd : forall i nd', h' !! i = Some nd' ->
            exists nd, h !! i = Some nd /\ Children nd' = Children nd).
  { intros i nd' Hi. pose proof (Hs i) as Hsi. rewrite Hi in Hsi.
    destruct (h !! i) as [nd|]; simpl in Hsi; [|discriminate].
    exists nd. split; [reflexivity|]. unfold shape in Hsi. congruence. }
  split.
  - intros i nd' Hi. destruct (Hnd i nd' Hi) as (nd & Hi0 & Hch).
    rewrite (child_names_stable h h' nd nd' Hch); [now apply (Hso i)|].
    intros c _. pose proof (deref_same_shape h h' c Hs) as Hc. unfold shape in Hc. congruence.
  - intros i nd' c Hi Hc. destruct (Hnd i nd' Hi) as (nd & Hi0 & Hch).
    pose proof (deref_same_shape h h' c Hs) as Hsc. unfold shape in Hsc.
    rewrite Hch in Hc. specialize (Hp i nd c Hi0 Hc). congruence.
Qed.

Lemma store_inv_AddChild (h h' : store) (node c : nat) (nm : string) b (nd : dirNode) :
  wf_store h = true -> store_inv h -> h !! node = Some nd ->
  dirNodeSlice_Get h (Children nd) nm = None ->
  AddChild h node nm b = (h', c) -> store_inv h'.
Proof.
  intros Hwf (Hu & Hso & Hp) Hnd Hg Hadd.
  split; [now apply (unique_names_AddChild h h' node c nm b nd)|].
  pose proof (lookup_lt_Some _ _ _ Hnd) as Hlt.
  unfold AddChild in Hadd. rewrite (lookup_app_l_Some _ _ _ _ Hnd) in Hadd.
  injection Hadd as <- <-.
  set (h1 := h ++ [mkDirNode nm (Some node) [] b]) in *.
  set (cs := sort_by (dirNodeSlice_Less h1) (Children nd ++ [length h])) in *.
  set (h2 := <[node := mkDirNode (Name nd) (Parent nd) cs (B nd)]> h1).
  assert (Hlen1 : length h1 = S (length h)) by (unfold h1; rewrite length_app; simpl; lia).
  assert (Hnode : h2 !! node = Some (mkDirNode (Name nd) (Parent nd) cs (B nd))).
  { unfold h2. apply list_lookup_insert_eq. lia. }
  assert (Hnew : h2 !! length h = Some (mkDirNode nm (Some node) [] b)).
  { unfold h2, h1. rewrite list_lookup_insert_ne by lia.
    rewrite lookup_app_r by lia. now rewrite Nat.sub_diag. }
  assert (Hrest : forall i, i <> node -> i < length h -> h2 !! i = h !! i).
  { intros i Hne Hi. unfold h2, h1. rewrite list_lookup_insert_ne by congruence.
    now apply lookup_app_l. }
  assert (Hname2 : forall x, Name (deref h2 x) = Name (deref h1 x)).
  { intros x. unfold deref, h2. destruct (Nat.eq_dec x node) as [->|Hne].
    - rewrite list_lookup_insert_eq by lia. unfold h1.
      now rewrite (lookup_app_l_Some _ _ _ _ Hnd).
    - now rewrite list_lookup_insert_ne by congruence. }
  assert (Hold : forall x, x < length h ->
            Name (deref h2 x) = Name (deref h x) /\ Parent (deref h2 x) = Parent (deref h x)).
  { intros x Hx. unfold deref. destruct (Nat.eq_dec x node) as [->|Hne].
    - now rewrite Hnode, Hnd.
    - now rewrite Hrest. }
  assert (Hperm : Permutation cs (Children nd ++ [length h])) by apply sort_by_perm.
  split.
  - intros i ndi Hi. destruct (Nat.eq_dec i node) as [->|Hne].
    + rewrite Hnode in Hi. injection Hi as <-. unfold child_names. simpl.
      apply (Sorted_map (ascending (dirNodeSlice_Less h1))).
      * intros a a'. unfold ascending, dirNodeSlice_Less.
        now rewrite !nodeName_deref, !Hname2.
      * apply sort_by_sorted. intros a a'. unfold dirNodeSlice_Less. apply ltb_asym.
    + destruct (Nat.eq_dec i (length h)) as [->|Hne'].
      * rewrite Hnew in Hi. injection Hi as <-. constructor.
      * apply lookup_lt_Some in Hi as Hi'. unfold h2 in Hi'. rewrite length_insert in Hi'.
        rewrite Hrest in Hi by lia.
        rewrite (child_names_stable h h2 ndi ndi); [now apply (Hso i)|reflexivity|].
        intros x Hx. apply Hold.
        pose proof (wf_store_children h i x ndi Hwf Hi Hx). lia.
  - intros i ndi x Hi Hx. destruct (Nat.eq_dec i node) as [->|Hne].
    + rewrite Hnode in Hi. injection Hi as <-. simpl in Hx.
      apply (Permutation_in _ Hperm) in Hx. apply in_app_or in Hx as [Hx|[<-|[]]].
      * pose proof (wf_store_children h node x nd Hwf Hnd Hx) as Hxr.
        rewrite (proj2 (Hold x (proj2 Hxr))). now apply (Hp node nd).
      * unfold deref. now rewrite Hnew.
    + destruct (Nat.eq_dec i (length h)) as [->|Hne'].
      * rewrite Hnew in Hi. injection Hi as <-. destruct Hx.
      * apply lookup_lt_Some in Hi as Hi'. unfold h2 in Hi'. rewrite length_insert in Hi'.
        rewrite Hrest in Hi by lia.
        pose proof (wf_store_children h i x ndi Hwf Hi Hx) as Hxr.
        rewrite (proj2 (Hold x (proj2 Hxr))). now apply (Hp i ndi).
Qed.

Lemma store_inv_child_or_add (h h1 : store) (node c : nat) (seg : string) b (nd : dirNode) :
  wf_store h = true -> store_inv h -> h !! node = Some nd ->
  child_or_add h node seg b = (h1, c) -> store_inv h1.
Proof.
  intros Hwf Hi Hnd. unfold child_or_add, deref. rewrite Hnd.
  destruct (dirNodeSlice_Get h (Children nd) seg) eqn:Eg.
  - now intros [= <- <-].
  - now apply store_inv_AddChild with (nd := nd).
Qed.

Lemma store_inv_AddDescendant (path : list string) :
  forall (h h' : store) b (node id : nat),
    wf_store h = true -> store_inv h -> node < length h ->
    AddDescendant h b node path = (h', id) -> store_inv h'.
Proof.
  induction path as [|seg rest IH]; intros h h' b node id Hwf Hi Hlt; [now intros [= <- <-]|].
  destruct (lookup_lt_is_Some_2 h node Hlt) as [nd Hnd].
  rewrite AddDescendant_cons. destruct rest as [|s2 rest'].
  - now apply store_inv_child_or_add with (nd := nd).
  - destruct (child_or_add h node seg None) as [h1 c] eqn:E.
    destruct (child_or_add_spec _ _ _ _ _ _ _ Hwf Hnd E) as (Hwf1 & Hc & _).
    apply IH; [assumption| |lia].
    now apply (store_inv_child_or_add h h1 node c seg None nd).
Qed.

Lemma store_inv_Close (wc : writeCloser) (fs : MemFS) :
  wf fs = true -> store_inv (nodes fs) -> store_inv (nodes (Close wc fs)).
Proof.
  intros Hwf Hi. unfold Close.
  destruct (closeFn wc) as [[nm|got]|]; [| |assumption].
  - destruct (root fs) as [r|] eqn:Hr; [|assumption].
    destruct (wf_unfold fs r Hwf Hr) as [Hs Hlt].
    unfold GetOrAdd. destruct (Get (nodes fs) r (nameToPath nm)) as [g|].
    + simpl. apply (store_inv_same_shape _ _ (setB_same_shape _ _ _) Hi).
    + destruct (AddDescendant (nodes fs) (getBytes (w wc)) r (nameToPath nm)) as [h1 id] eqn:E.
      simpl. apply (store_inv_same_shape _ _ (setB_same_shape _ _ _)).
      now apply (store_inv_AddDescendant _ _ _ _ _ _ Hs Hi Hlt E).
  - simpl. apply (store_inv_same_shape _ _ (setB_same_shape _ _ _) Hi).
Qed.

Lemma tree_inv_init (fs : MemFS) : tree_inv fs -> tree_inv (init fs).
Proof.
  intros (Hwf & Hu & Hso & Hp & Hr). unfold init. unfold rooted in Hr.
  destruct (root fs) as [r|] eqn:E.
  - unfold tree_inv, rooted. rewrite E. tauto.
  - rewrite Hr. unfold tree_inv, rooted. simpl. split; [reflexivity|].
    assert (Hone : forall i nd, [mkDirNode "" None [] None] !! i = Some nd -> Children nd = []).
    { intros [|i] nd; simpl; [now intros [= <-]|destruct i; discriminate]. }
    split; [|split; [|split; [|now split]]].
    + intros i nd Hi. unfold child_names. rewrite (Hone i nd Hi). constructor.
    + intros i nd Hi. unfold child_names. rewrite (Hone i nd Hi). constructor.
    + intros i nd c Hi Hc. rewrite (Hone i nd Hi) in Hc. destruct Hc.
Qed.

Lemma tree_inv_Close (wc : writeCloser) (fs : MemFS) : tree_inv fs -> tree_inv (Close wc fs).
Proof.
  intros (Hwf & Hu & Hso & Hp & Hr).
  destruct (Close_preserves wc fs Hwf) as (Hwf' & Hroot & Hpers & _).
  destruct (store_inv_Close wc fs Hwf (conj Hu (conj Hso Hp))) as (Hu' & Hso' & Hp').
  repeat (split; [assumption|]).
  unfold rooted in *. rewrite Hroot. destruct (root fs) as [r|] eqn:E.
  - destruct (wf_unfold fs r Hwf E) as [_ Hlt].
    destruct (lookup_lt_is_Some_2 _ _ Hlt) as [nd Hnd].
    destruct (Hpers r nd Hnd) as (nd' & Hnd' & Hn & Hpa & _).
    unfold deref in *. rewrite Hnd in Hr. rewrite Hnd'. now rewrite Hn, Hpa.
  - unfold Close. rewrite E. destruct (closeFn wc) as [[nm|got]|]; try assumption.
    unfold getBytes. simpl. rewrite Hr. unfold setB. now destruct got.
Qed.

Lemma tree_inv_step (wd : world) (a : action) : tree_inv (wfs wd) -> tree_inv (wfs (step wd a)).
Proof.
  intros Hi. destruct a as [nm|nm|k p|k]; simpl.
  - now apply tree_inv_init.
  - pose proof (Append_state (wfs wd) nm) as Hs.
    destruct (Append (wfs wd) nm) as [wc fs1]. simpl in *. subst fs1. now apply tree_inv_init.
  - now destruct (handles wd !! k).
  - destruct (handles wd !! k); [|assumption]. now apply tree_inv_Close.
Qed.

Lemma tree_inv_run (acts : list action) :
  forall wd, tree_inv (wfs wd) -> tree_inv (wfs (run wd acts)).
Proof.
  induction acts as [|a acts IH]; intros wd Hi; [assumption|].
  apply (IH (step wd a)). now apply tree_inv_step.
Qed.

Lemma tree_inv_empty : tree_inv empty_fs.
Proof.
  unfold tree_inv, rooted. simpl. split; [reflexivity|].
  repeat split; intros i; intros; destruct i; discriminate.
Qed.

(** X3.  Whatever is created, appended, written and closed on a [MemFS]
    that started as the zero value, the nodes form a tree: children are
    allocated after their node and point back to it, the children of a node
    have pairwise different names and stand in ascending order of their
    names, and the root has no name and no parent. *)
Theorem reachable_tree_inv (acts : list action) : tree_inv (wfs (run empty_world acts)).
Proof. apply tree_inv_run. apply tree_inv_empty. Qed.

(** ** Resolution is stable *)

Lemma NoDup_map_eq {A C : Type} (f : A -> C) (l : list A) (x y : A) :
  List.NoDup (map f l) -> In x l -> In y l -> f x = f y -> x = y.
Proof.
  induction l as [|a l IH]; simpl; [tauto|].
  intros Hnd Hx Hy Hf. inversion Hnd as [|? ? Hnotin Hnd']; subst.
  destruct Hx as [->|Hx], Hy as [->|Hy]; auto.
  - exfalso. apply Hnotin. rewrite Hf. now apply in_map.
  - exfalso. apply Hnotin. rewrite <- Hf. now apply in_map.
Qed.

Lemma Get_keeps (h h' : store) (path : list string) :
  wf_store h = true -> keeps_steps h h' ->
  forall start x, start < length h -> Get h start path = Some x -> Get h' start path = Some x.
Proof.
  intros Hwf Hk. induction path as [|p rest IH]; intros start x Hlt; simpl; [discriminate|].
  destruct (Get_step h start p) as [next|] eqn:E; [|discriminate].
  rewrite (Hk start p next Hlt E).
  destruct rest; [trivial|]. apply IH. now apply (Get_step_valid h start next p).
Qed.

Lemma keeps_steps_refl (h : store) : keeps_steps h h.
Proof. intros start p next _ H. exact H. Qed.

Lemma keeps_steps_trans (h1 h2 h3 : store) :
  length h1 <= length h2 -> keeps_steps h1 h2 -> keeps_steps h2 h3 -> keeps_steps h1 h3.
Proof. intros Hlen H12 H23 start p next Hlt H. apply H23; [lia|]. now apply H12. Qed.

Lemma keeps_steps_same_shape (h h' : store) : same_shape h h' -> keeps_steps h h'.
Proof. intros Hs start p next _ H. now rewrite (Get_step_same_shape h h' start p Hs). Qed.

Lemma keeps_steps_AddChild (h h' : store) (node c : nat) (nm : string) b (nd : dirNode) :
  wf_store h = true -> unique_names h -> h !! node = Some nd ->
  dirNodeSlice_Get h (Children nd) nm = None ->
  AddChild h node nm b = (h', c) -> keeps_steps h h'.
Proof.
  intros Hwf Hu Hnd Hg Hadd.
  destruct (AddChild_spec h node nm b nd Hnd) as (h2 & cs & E & Hlen & Hnew & Hnode & Hperm & Hrest).
  rewrite E in Hadd. injection Hadd as <- <-.
  pose proof (lookup_lt_Some _ _ _ Hnd) as Hlt.
  assert (Hnm : forall x, x < length h -> Name <$> h2 !! x = Name <$> h !! x).
  { intros x Hx. destruct (Nat.eq_dec x node) as [->|Hne].
    - now rewrite Hnode, Hnd.
    - now rewrite Hrest. }
  intros start p next Hs. unfold Get_step.
  destruct (String.eqb p "."); [trivial|].
  destruct (lookup_lt_is_Some_2 h start Hs) as [nds Hnds]. rewrite Hnds.
  destruct (Nat.eq_dec start node) as [->|Hne].
  - rewrite Hnode. rewrite Hnd in Hnds. injection Hnds as <-. simpl.
    destruct (String.eqb p ".."); [trivial|].
    intros Hget. apply dirNodeSlice_Get_In in Hget as Hin.
    destruct Hin as (Hin & ndx & Hx & Hname).
    pose proof (wf_store_children h node next nd Hwf Hnd Hin) as Hnr.
    apply dirNodeSlice_Get_unique.
    + apply (Permutation_in _ (Permutation_sym Hperm)). apply in_or_app. now left.
    + rewrite Hnm by lia. rewrite Hx. simpl. now rewrite Hname.
    + intros y Hy Hyn. apply (Permutation_in _ Hperm) in Hy.
      apply in_app_or in Hy as [Hy|[<-|[]]].
      * pose proof (wf_store_children h node y nd Hwf Hnd Hy) as Hyr.
        rewrite Hnm by lia. intros Hyname. apply Hyn.
        apply (NoDup_map_eq (fun c => Name (deref h c)) (Children nd) y next
                 (Hu node nd Hnd) Hy Hin).
        unfold deref. rewrite Hx.
        destruct (h !! y) as [ndy|]; simpl in Hyname; [|discriminate]. congruence.
      * rewrite Hnew. simpl. intros [= ->].
        apply (dirNodeSlice_Get_None _ _ _ Hg next Hin). rewrite Hx. simpl. congruence.
  - rewrite Hrest by lia. rewrite Hnds.
    destruct (String.eqb p ".."); [trivial|].
    intros Hget. rewrite (dirNodeSlice_Get_names h h2); [exact Hget|].
    intros y Hy. apply Hnm.
    pose proof (wf_store_children h start y nds Hwf Hnds Hy). lia.
Qed.

Lemma keeps_steps_child_or_add (h h1 : store) (node c : nat) (seg : string) b (nd : dirNode) :
  wf_store h = true -> unique_names h -> h !! node = Some nd ->
  child_or_add h node seg b = (h1, c) -> keeps_steps h h1.
Proof.
  intros Hwf Hu Hnd. unfold child_or_add, deref. rewrite Hnd.
  destruct (dirNodeSlice_Get h (Children nd) seg) eqn:Eg.
  - intros [= <- <-]. apply keeps_steps_refl.
  - now apply keeps_steps_AddChild with (nd := nd).
Qed.

Lemma keeps_steps_AddDescendant (path : list string) :
  forall (h h' : store) b (node id : nat),
    wf_store h = true -> unique_names h -> node < length h ->
    AddDescendant h b node path = (h', id) -> keeps_steps h h'.
Proof.
  induction path as [|seg rest IH]; intros h h' b node id Hwf Hu Hlt.
  - intros [= <- <-]. apply keeps_steps_refl.
  - destruct (lookup_lt_is_Some_2 h node Hlt) as [nd Hnd].
    rewrite AddDescendant_cons. destruct rest as [|s2 rest'].
    + now apply keeps_steps_child_or_add with (nd := nd).
    + destruct (child_or_add h node seg None) as [h1 c] eqn:E.
      destruct (child_or_add_spec _ _ _ _ _ _ _ Hwf Hnd E) as (Hwf1 & Hc & Hext & _).
      intros Hadd. apply (keeps_steps_trans h h1 h').
      * now apply extends_length.
      * now apply (keeps_steps_child_or_add h h1 node c seg None nd).
      * apply (IH h1 h' b c id); [assumption| |lia|assumption].
        now apply (unique_names_child_or_add h h1 node c seg None nd).
Qed.

Lemma keeps_steps_Close (wc : writeCloser) (fs : MemFS) :
  wf fs = true -> unique_names (nodes fs) -> keeps_steps (nodes fs) (nodes (Close wc fs)).
Proof.
  intros Hwf Hu. unfold Close.
  destruct (closeFn wc) as [[nm|got]|]; [| |apply keeps_steps_refl].
  - destruct (root fs) as [r|] eqn:Hr; [|apply keeps_steps_refl].
    destruct (wf_unfold fs r Hwf Hr) as [Hs Hlt].
    unfold GetOrAdd. destruct (Get (nodes fs) r (nameToPath nm)) as [g|].
    + simpl. apply keeps_steps_same_shape, setB_same_shape.
    + destruct (AddDescendant (nodes fs) (getBytes (w wc)) r (nameToPath nm)) as [h1 id] eqn:E.
      simpl. apply (keeps_steps_trans _ h1).
      * destruct (AddDescendant_spec (nameToPath nm) (nodes fs) (getBytes (w wc)) r Hs Hlt
                    (nameToPath_nonempty nm)) as (h2 & id2 & E2 & _ & _ & Hext & _).
        rewrite E in E2. injection E2 as <- <-. now apply extends_length.
      * now apply (keeps_steps_AddDescendant _ _ _ _ _ _ Hs Hu Hlt E).
      * apply keeps_steps_same_shape, setB_same_shape.
  - simpl. apply keeps_steps_same_shape, setB_same_shape.
Qed.

Lemma resolve_init (fs : MemFS) (q : string) (id : nat) :
  wf fs = true -> resolve fs q = Some id -> resolve (init fs) q = Some id.
Proof.
  unfold resolve. destruct (root fs) as [r|] eqn:E; [|discriminate].
  now rewrite (init_rooted fs r E), E.
Qed.

Lemma resolve_Close (wc : writeCloser) (fs : MemFS) (q : string) (id : nat) :
  tree_inv fs -> resolve fs q = Some id -> resolve (Close wc fs) q = Some id.
Proof.
  intros (Hwf & Hu & _) Hres.
  destruct (Close_preserves wc fs Hwf) as (_ & Hroot & _).
  unfold resolve in *. rewrite Hroot. destruct (root fs) as [r|] eqn:E; [|discriminate].
  destruct (wf_unfold fs r Hwf E) as [Hs Hlt].
  now apply (Get_keeps (nodes fs) _ _ Hs (keeps_steps_Close wc fs Hwf Hu)).
Qed.

Lemma resolve_step (wd : world) (a : action) (q : string) (id : nat) :
  tree_inv (wfs wd) -> resolve (wfs wd) q = Some id -> resolve (wfs (step wd a)) q = Some id.
Proof.
  intros Hi Hres. pose proof Hi as (Hwf & _).
  destruct a as [nm|nm|k p|k]; simpl.
  - now apply resolve_init.
  - pose proof (Append_state (wfs wd) nm) as Hs.
    destruct (Append (wfs wd) nm) as [wc fs1]. simpl in *. subst fs1. now apply resolve_init.
  - now destruct (handles wd !! k).
  - destruct (handles wd !! k); [|assumption]. now apply resolve_Close.
Qed.

Lemma resolve_run (acts : list action) :
  forall wd q id, tree_inv (wfs wd) -> resolve (wfs wd) q = Some id ->
                  resolve (wfs (run wd acts)) q = Some id.
Proof.
  induction acts as [|a acts IH]; intros wd q id Hi Hres; [assumption|].
  apply (IH (step wd a)); [now apply tree_inv_step|now apply resolve_step].
Qed.

(** X4.  Resolution is stable: a name that resolves to a node resolves to
    that same node after whatever is created, appended, written and closed
    later; nothing is ever removed or renamed. *)
Theorem resolution_is_stable (acts later : list action) (q : string) (id : nat) :
  resolve (wfs (run empty_world acts)) q = Some id ->
  resolve (wfs (run empty_world (acts ++ later))) q = Some id.
Proof.
  intros H. unfold run. rewrite fold_left_app.
  apply resolve_run; [|exact H]. apply tree_inv_run, tree_inv_empty.
Qed.

Lemma resolution_is_stable_witness :
  resolve (wfs (run empty_world
                  ([ACreate "dir2/file2A"; AClose 0] ++
                   [ACreate "dir2/dir3/file3A"; ACreate "dir1/x"; AClose 2; AClose 1;
                    ACreate "dir2"; AWrite 3 bytes_15_16; AClose 3]))) "dir2/file2A"
    = Some 2.
Proof.
  apply (resolution_is_stable [ACreate "dir2/file2A"; AClose 0]
           [ACreate "dir2/dir3/file3A"; ACreate "dir1/x"; AClose 2; AClose 1;
            ACreate "dir2"; AWrite 3 bytes_15_16; AClose 3] "dir2/file2A" 2).
  vm_compute. reflexivity.
Defined.

(** ** A commit touches one file *)

Lemma Close_addNode_frame (fs : MemFS) (r : nat) (nm : string) (buf : list byte) :
  root fs = Some r -> wf fs = true -> creatable fs nm = true ->
  let fs' := Close (mkWriteCloser buf (Some (addNode nm))) fs in
  exists id, resolve fs' nm = Some id /\
    forall i nd, i <> id -> nodes fs !! i = Some nd ->
      exists nd', nodes fs' !! i = Some nd' /\ B nd' = B nd.
Proof.
  intros Hr Hwf Hc. destruct (wf_unfold fs r Hwf Hr) as [Hs Hlt].
  unfold creatable in Hc. rewrite (init_rooted fs r Hr) in Hc.
  unfold resolve in Hc. rewrite Hr in Hc.
  unfold Close. simpl closeFn. cbv iota. rewrite Hr. unfold GetOrAdd, getBytes. simpl w.
  destruct (Get (nodes fs) r (nameToPath nm)) as [got|] eqn:Eg.
  - cbv zeta. exists got. split.
    + unfold resolve. simpl.
      now rewrite (Get_same_shape _ _ _ _ (setB_same_shape _ _ _)).
    + intros i nd Hne Hi. exists nd. simpl. now rewrite setB_lookup_ne.
  - destruct (AddDescendant_spec (nameToPath nm) (nodes fs) (Some buf) r Hs Hlt
                (nameToPath_nonempty nm))
      as (h' & id & E & Hwf' & Hid & Hext & Hfr & Hget).
    rewrite E. cbv zeta. exists id. split.
    + unfold resolve. simpl.
      rewrite (Get_same_shape _ _ _ _ (setB_same_shape _ _ _)). now apply Hget.
    + intros i nd Hne Hi. destruct (Hext i nd Hi) as (nd' & Hi' & _ & _ & Hb).
      exists nd'. simpl. now rewrite setB_lookup_ne.
Qed.

Lemma Open_file_inv (fs : MemFS) (q : string) (c : list byte) :
  fst (Open fs q) = (Some (memFile q c), None) ->
  exists j, resolve (init fs) q = Some j /\ B (deref (nodes (init fs)) j) = Some c.
Proof.
  unfold Open. destruct (resolve (init fs) q) as [j|]; [|discriminate].
  destruct (B (deref (nodes (init fs)) j)) as [c'|] eqn:E; simpl; [|discriminate].
  intros [= ->]. eauto.
Qed.

(** X5.  A committed [Create] leaves the other files alone: after
    [Create(nm)], [Write], [Close], a file that could be opened before
    under a name [q] which does not resolve to the node of [nm] is opened
    with the content it had. *)
Theorem create_keeps_other_files (acts : list action) (nm q : string) (bs c : list byte) :
  let fs := wfs (run empty_world acts) in
  let fs' := SetBytes fs nm bs in
  creatable fs nm = true ->
  fst (Open fs q) = (Some (memFile q c), None) ->
  resolve fs' q <> resolve fs' nm ->
  fst (Open fs' q) = (Some (memFile q c), None).
Proof.
  cbv zeta. intros Hc Hopen Hne.
  set (fs := wfs (run empty_world acts)) in *.
  assert (Hinv : tree_inv (init fs)) by (apply tree_inv_init, tree_inv_run, tree_inv_empty).
  destruct (Open_file_inv fs q c Hopen) as (j & Hj & Hb).
  destruct (init_root fs) as [r Hr].
  unfold SetBytes, Create, Write in *. cbn [w closeFn app] in *.
  set (wc := mkWriteCloser bs (Some (addNode nm))) in *.
  pose proof Hinv as (Hwf & _).
  destruct (Close_addNode_frame (init fs) r nm bs Hr Hwf ltac:(now rewrite creatable_init))
    as (id & Hid & Hframe).
  fold wc in Hid, Hframe.
  pose proof (resolve_Close wc (init fs) q j Hinv Hj) as Hj'.
  destruct (Close_preserves wc (init fs) Hwf) as (_ & Hroot & _).
  rewrite Hj', Hid in Hne.
  destruct (wf_unfold (init fs) r Hwf Hr) as [Hs Hlt].
  pose proof (Get_valid _ _ _ _ Hs Hlt ltac:(unfold resolve in Hj; rewrite Hr in Hj; exact Hj)) as Hjv.
  destruct (lookup_lt_is_Some_2 _ _ Hjv) as [nd Hnd].
  destruct (Hframe j nd ltac:(congruence) Hnd) as (nd' & Hnd' & Hb').
  rewrite (Open_file (Close wc (init fs)) r j q nd' c); [reflexivity| |assumption|assumption|].
  - now rewrite Hroot.
  - rewrite Hb'. unfold deref in Hb. now rewrite Hnd in Hb.
Qed.

Lemma create_keeps_other_files_witness :
  let fs := wfs (run empty_world [ACreate "dir1/file1A"; AWrite 0 bytes_11_12_13; AClose 0]) in
  fst (Open (SetBytes fs "dir1/file1B" bytes_15_16) "dir1/file1A")
    = (Some (memFile "dir1/file1A" bytes_11_12_13), None).
Proof.
  apply (create_keeps_other_files
           [ACreate "dir1/file1A"; AWrite 0 bytes_11_12_13; AClose 0]
           "dir1/file1B" "dir1/file1A" bytes_15_16 bytes_11_12_13);
    [vm_compute; reflexivity|vm_compute; reflexivity|vm_compute; discriminate].
Defined.

(** ** [Create] makes the directories on the way *)

Lemma Get_cons2 (h : store) (node : nat) (p q : string) (rest : list string) :
  Get h node (p :: q :: rest) =
  match Get_step h node p with
  | Some next => Get h next (q :: rest)
  | None => None
  end.
Proof. reflexivity. Qed.

Lemma Get_app (h : store) (P Q : list string) :
  P <> [] -> Q <> [] ->
  forall node, Get h node (P ++ Q) =
               match Get h node P with
               | Some x => Get h x Q
               | None => None
               end.
Proof.
  intros HP HQ. induction P as [|p P IH]; [congruence|]. intros node.
  destruct P as [|p2 P].
  - destruct Q as [|q Q]; [congruence|]. simpl app. rewrite Get_cons2. simpl.
    now destruct (Get_step h node p).
  - change ((p :: p2 :: P) ++ Q) with (p :: p2 :: (P ++ Q)). rewrite !Get_cons2.
    destruct (Get_step h node p) as [next|]; [|reflexivity].
    apply (IH ltac:(discriminate)).
Qed.

Lemma plain_step (h : store) (node : nat) (seg : string) :
  plain seg = true ->
  Get_step h node seg = dirNodeSlice_Get h (Children (deref h node)) seg.
Proof.
  unfold plain. intros Hp. apply andb_true_iff in Hp as [Hp1 Hp2].
  apply negb_true_iff in Hp1, Hp2. unfold Get_step, deref. rewrite Hp1, Hp2.
  now destruct (h !! node).
Qed.

Lemma child_or_add_cases (h h1 : store) (node c : nat) (seg : string) b (nd : dirNode) :
  h !! node = Some nd -> child_or_add h node seg b = (h1, c) ->
  (h1 = h /\ dirNodeSlice_Get h (Children nd) seg = Some c) \/
  (c = length h /\ h1 !! c = Some (mkDirNode seg (Some node) [] b)).
Proof.
  intros Hnd. unfold child_or_add, deref. rewrite Hnd.
  destruct (dirNodeSlice_Get h (Children nd) seg) eqn:Eg.
  - intros [= <- <-]. now left.
  - intros Hadd. right.
    destruct (AddChild_spec h node seg b nd Hnd) as (h2 & cs & E & _ & Hnew & _).
    rewrite E in Hadd. injection Hadd as <- <-. now split.
Qed.

Lemma AddDescendant_prefix (path : list string) :
  forall (h h' : store) b (node id : nat),
    wf_store h = true -> node < length h -> forallb plain path = true ->
    AddDescendant h b node path = (h', id) ->
    forall k, 0 < k < length path ->
      exists x, Get h' node (firstn k path) = Some x /\ x < id /\
        (Get h node (firstn k path) = Some x \/
         (length h <= x /\ B (deref h' x) = None)).
Proof.
  induction path as [|seg rest IH]; intros h h' b node id Hwf Hlt Hpl Hadd k Hk;
    [simpl in Hk; lia|].
  destruct rest as [|s2 rest']; [simpl in Hk; lia|].
  destruct (lookup_lt_is_Some_2 h node Hlt) as [nd Hnd].
  rewrite AddDescendant_cons in Hadd.
  destruct (child_or_add h node seg None) as [h1 c] eqn:E.
  destruct (child_or_add_spec _ _ _ _ _ _ _ Hwf Hnd E)
    as (Hwf1 & Hc & Hext & Hfr & nd1 & Hn1 & Hg).
  change (forallb plain (seg :: s2 :: rest')) with
    (plain seg && forallb plain (s2 :: rest')) in Hpl.
  apply andb_true_iff in Hpl as [Hseg Hrest].
  destruct (AddDescendant_spec (s2 :: rest') h1 b c Hwf1 ltac:(lia) ltac:(discriminate))
    as (h2 & id2 & E2 & Hwf2 & Hid & Hext2 & Hfr2 & Hget2).
  rewrite E2 in Hadd. injection Hadd as <- <-.
  assert (Hstep : Get_step h2 node seg = Some c).
  { rewrite plain_step by assumption. unfold deref. rewrite (Hfr2 node) by lia. rewrite Hn1.
    rewrite (dirNodeSlice_Get_names h1 h2); [exact Hg|].
    intros y Hy. apply extends_name; [assumption|].
    pose proof (wf_store_children h1 node y nd1 Hwf1 Hn1 Hy). lia. }
  destruct (child_or_add_cases h h1 node c seg None nd Hnd E) as [[-> Hfound]|[Hcl Hcnew]].
  - assert (Hstep0 : Get_step h node seg = Some c).
    { rewrite plain_step by assumption. unfold deref. now rewrite Hnd. }
    destruct k as [|[|k']]; [lia| |].
    + exists c. simpl. rewrite Hstep, Hstep0. split; [reflexivity|]. split; [lia|now left].
    + destruct (IH h h2 b c id2 Hwf ltac:(lia) Hrest E2 (S k') ltac:(simpl in *; lia))
        as (x & Hx & Hxid & Hcase).
      exists x. change (firstn (S (S k')) (seg :: s2 :: rest'))
        with (seg :: s2 :: firstn k' rest') in *.
      change (firstn (S k') (s2 :: rest')) with (s2 :: firstn k' rest') in *.
      rewrite !Get_cons2, Hstep, Hstep0. split; [exact Hx|]. split; [exact Hxid|exact Hcase].
  - destruct k as [|[|k']]; [lia| |].
    + exists c. simpl. rewrite Hstep. split; [reflexivity|]. split; [lia|]. right.
      split; [lia|]. destruct (Hext2 c _ Hcnew) as (nd' & Hnd' & _ & _ & Hb).
      unfold deref. now rewrite Hnd', Hb.
    + destruct (IH h1 h2 b c id2 Hwf1 ltac:(lia) Hrest E2 (S k') ltac:(simpl in *; lia))
        as (x & Hx & Hxid & Hcase).
      exists x. change (firstn (S (S k')) (seg :: s2 :: rest'))
        with (seg :: s2 :: firstn k' rest') in *.
      change (firstn (S k') (s2 :: rest')) with (s2 :: firstn k' rest') in *.
      rewrite Get_cons2, Hstep. split; [exact Hx|]. split; [exact Hxid|]. right.
      destruct Hcase as [Hold|[Hlen Hb]].
      * exfalso. simpl in Hold. simpl in Hrest. apply andb_true_iff in Hrest as [Hs2 _].
        rewrite plain_step in Hold by assumption. unfold deref in Hold.
        rewrite Hcnew in Hold. simpl in Hold. discriminate.
      * split; [|exact Hb]. pose proof (extends_length _ _ Hext). lia.
Qed.

(** X6.  [Create] makes the directories on the way: after [Create(nm)],
    [Write], [Close] for a name without [.] and [..] segments, every name
    [d] made of the first [k] segments of [nm] resolves, and where it did
    not resolve before it is a directory. *)
Theorem create_makes_directories (acts : list action) (nm d : string) (bs : list byte)
    (k : nat) :
  let fs := wfs (run empty_world acts) in
  let fs' := SetBytes fs nm bs in
  forallb plain (nameToPath nm) = true ->
  0 < k < length (nameToPath nm) ->
  nameToPath d = firstn k (nameToPath nm) ->
  (exists x, resolve fs' d = Some x) /\
  (resolve (init fs) d = None -> fst (Open fs' d) = (Some (memDir d None), None)).
Proof.
  cbv zeta. intros Hpl Hk Hd.
  set (fs := wfs (run empty_world acts)).
  assert (Hinv : tree_inv (init fs)) by (apply tree_inv_init, tree_inv_run, tree_inv_empty).
  destruct Hinv as (Hwf & _). destruct (init_root fs) as [r Hr].
  destruct (wf_unfold (init fs) r Hwf Hr) as [Hs Hlt].
  unfold SetBytes, Create, Write. cbn [w closeFn app].
  unfold Close. cbn [closeFn w]. rewrite Hr. unfold GetOrAdd, getBytes.
  unfold resolve at 2. rewrite Hr, Hd.
  assert (Hsplit : nameToPath nm = firstn k (nameToPath nm) ++ skipn k (nameToPath nm))
    by (symmetry; apply firstn_skipn).
  assert (Hne1 : firstn k (nameToPath nm) <> []).
  { intros E. apply (f_equal (@length string)) in E. rewrite length_firstn in E.
    simpl in E. lia. }
  assert (Hne2 : skipn k (nameToPath nm) <> []).
  { intros E. apply (f_equal (@length string)) in E. rewrite length_skipn in E.
    simpl in E. lia. }
  destruct (Get (nodes (init fs)) r (nameToPath nm)) as [got|] eqn:Eg.
  - cbv zeta. rewrite Hsplit, (Get_app _ _ _ Hne1 Hne2) in Eg.
    destruct (Get (nodes (init fs)) r (firstn k (nameToPath nm))) as [x|] eqn:Ex;
      [|discriminate].
    split; [|discriminate]. exists x. unfold resolve. simpl. rewrite Hd.
    now rewrite (Get_same_shape _ _ _ _ (setB_same_shape _ _ _)).
  - destruct (AddDescendant (nodes (init fs)) (Some bs) r (nameToPath nm)) as [h' id] eqn:E.
    destruct (AddDescendant_prefix _ _ _ _ _ _ Hs Hlt Hpl E k Hk) as (x & Hx & Hxid & Hcase).
    cbv zeta.
    assert (Hres : resolve (mkMemFS (Some r) (setB h' id (Some bs))) d = Some x).
    { unfold resolve. simpl. rewrite Hd.
      now rewrite (Get_same_shape _ _ _ _ (setB_same_shape _ _ _)). }
    split; [eauto|]. intros Hnone.
    destruct Hcase as [Hold|[_ Hb]]; [congruence|].
    unfold Open.
    rewrite (init_rooted (mkMemFS (Some r) (setB h' id (Some bs))) r eq_refl), Hres.
    simpl nodes.
    unfold deref in *. rewrite setB_lookup_ne by lia. now rewrite Hb.
Qed.

Lemma create_makes_directories_witness :
  (exists x, resolve (SetBytes empty_fs "dir4/dir5/file" []) "dir4/dir5" = Some x) /\
  (resolve (init empty_fs) "dir4/dir5" = None ->
   fst (Open (SetBytes empty_fs "dir4/dir5/file" []) "dir4/dir5")
     = (Some (memDir "dir4/dir5" None), None)).
Proof.
  apply (create_makes_directories [] "dir4/dir5/file" "dir4/dir5" [] 2);
    [reflexivity|simpl; lia|reflexivity].
Defined.

(** ** Closing twice, and appending to a directory *)

Lemma setB_same (h : store) (id : nat) (nd : dirNode) :
  h !! id = Some nd -> setB h id (B nd) = h.
Proof.
  intros H. unfold setB. rewrite H. apply list_insert_id. rewrite H. now destruct nd.
Qed.



(** X8.  Closing an [Append] handle a second time appends the buffer a
    second time: after [Append(p)] on a file with content [c], [Write(b)],
    [Close], [Close] the file holds [c ++ b ++ b]. *)
Theorem append_close_twice (fs : MemFS) (p : string) (b c : list byte)
    (got : nat) (nd : dirNode) :
  resolve (init fs) p = Some got -> nodes (init fs) !! got = Some nd -> B nd = Some c ->
  let '(wc0, fs1) := Append fs p in
  let wc := Write wc0 b in
  fst (Open (Close wc (Close wc fs1)) p) = (Some (memFile p (c ++ b ++ b)), None).
Proof.
  intros Hres Hnd Hb. unfold Append. rewrite Hres. unfold Write. cbn [w closeFn app].
  destruct (init_root fs) as [r Hr].
  destruct (Close_updateNode_spec (init fs) r got nd c b p Hr Hres Hnd Hb)
    as (Hr1 & Hres1 & Hnd1 & _ & _).
  destruct (Close_updateNode_spec _ r got _ (c ++ b) b p Hr1 Hres1 Hnd1 eq_refl)
    as (_ & _ & _ & _ & Hopen).
  now rewrite <- app_assoc in Hopen.
Qed.

Lemma append_close_twice_witness :
  let '(wc0, fs1) := Append battery_fs "file1" in
  let wc := Write wc0 bytes_15_16 in
  fst (Open (Close wc (Close wc fs1)) "file1")
    = (Some (memFile "file1" (bytes_12_13_14 ++ bytes_15_16 ++ bytes_15_16)), None).
Proof.
  apply (append_close_twice battery_fs "file1" bytes_15_16 bytes_12_13_14 1
           (mkDirNode "file1" (Some 0) [] (Some bytes_12_13_14)));
    vm_compute; reflexivity.
Defined.

(** X9.  [Append] on a directory: closing the handle with nothing written
    leaves the store as it is, the directory included; closing it after
    one byte or more was written gives the node that content, so that
    [Open] returns a file handle and [ReadDir] fails, while the node keeps
    its children. *)
Theorem append_to_directory (fs : MemFS) (p : string) (got : nat) (nd : dirNode) :
  resolve (init fs) p = Some got -> nodes (init fs) !! got = Some nd -> B nd = None ->
  let '(wc, fs1) := Append fs p in
  Close wc fs1 = fs1 /\
  forall x b,
    let fs2 := Close (Write wc (x :: b)) fs1 in
    fst (Open fs2 p) = (Some (memFile p (x :: b)), None) /\
    fst (ReadDir fs2 p) = (None, Some ErrNotFound) /\
    Children (deref (nodes fs2) got) = Children nd.
Proof.
  intros Hres Hnd Hb. unfold Append. rewrite Hres. unfold Write. cbn [w closeFn app].
  destruct (init_root fs) as [r Hr]. unfold Close, getBytes. cbn [w closeFn].
  assert (HB : B (deref (nodes (init fs)) got) = None) by (unfold deref; now rewrite Hnd).
  rewrite !HB. cbn [append_bytes]. split.
  - rewrite <- Hb, (setB_same _ _ _ Hnd). now destruct (init fs).
  - intros x b. cbv zeta.
    set (fs2 := mkMemFS (root (init fs)) (setB (nodes (init fs)) got (Some (x :: b)))).
    assert (Hres2 : resolve fs2 p = Some got).
    { unfold resolve in *. simpl. rewrite Hr in *.
      now rewrite (Get_same_shape _ _ _ _ (setB_same_shape _ _ _)). }
    assert (Hnd2 : nodes fs2 !! got
                   = Some (mkDirNode (Name nd) (Parent nd) (Children nd) (Some (x :: b))))
      by exact (setB_lookup _ _ _ _ Hnd).
    split; [|split].
    + now rewrite (Open_file fs2 r got p _ (x :: b) Hr Hres2 Hnd2).
    + unfold ReadDir. rewrite (init_rooted fs2 r Hr), Hres2. unfold deref, IsDirectory.
      now rewrite Hnd2.
    + unfold deref. now rewrite Hnd2.
Qed.

Lemma append_to_directory_witness :
  let '(wc, fs1) := Append battery_fs "dir1" in
  Close wc fs1 = fs1 /\
  forall x b,
    let fs2 := Close (Write wc (x :: b)) fs1 in
    fst (Open fs2 "dir1") = (Some (memFile "dir1" (x :: b)), None) /\
    fst (ReadDir fs2 "dir1") = (None, Some ErrNotFound) /\
    Children (deref (nodes fs2) 2) = [3; 4].
Proof.
  apply (append_to_directory battery_fs "dir1" 2 (mkDirNode "dir1" (Some 0) [3; 4] None));
    vm_compute; reflexivity.
Defined.

(** ** Listings of a tree that was built through the facade *)

Lemma ltb_of_ascending (a b : string) :
  String.ltb b a = false -> a <> b -> String.ltb a b = true.
Proof.
  unfold String.ltb. rewrite (String.compare_antisym a b).
  destruct (String.compare b a) eqn:E; simpl; try congruence.
  intros _ Hne. apply String.compare_eq_iff in E. congruence.
Qed.

Lemma strict_of_ascending (l : list string) :
  List.NoDup l -> Sorted (ascending String.ltb) l ->
  Sorted (fun a b => String.ltb a b = true) l.
Proof.
  induction l as [|a l IH]; intros Hnd Hs; [constructor|].
  inversion Hnd as [|? ? Hnotin Hnd']; subst. inversion Hs as [|? ? Hs' Hhd]; subst.
  constructor; [now apply IH|].
  destruct Hhd as [|b l' Hab]; constructor.
  apply ltb_of_ascending; [exact Hab|]. intros ->. apply Hnotin. now left.
Qed.

Lemma sort_by_id {A : Type} (less : A -> A -> bool) (l : list A) :
  Sorted (fun a b => less a b = true) l -> sort_by less l = l.
Proof.
  induction 1 as [|a l Hs IH Hhd]; [reflexivity|]. simpl. rewrite IH.
  destruct Hhd as [|b l' Hab]; [reflexivity|]. simpl. now rewrite Hab.
Qed.

(** X10.  In a tree built through the facade [ReadDir] returns the entries
    of the children in the order the node holds them: [AddChild] keeps the
    children sorted, so the sort of [ReadDir] moves nothing; the names are
    strictly ascending, hence no name is listed twice. *)
Theorem ReadDir_in_stored_order (acts : list action) (d : string) (es : list dirEntry) :
  let fs := wfs (run empty_world acts) in
  fst (ReadDir fs d) = (Some es, None) ->
  exists dn,
    resolve (init fs) d = Some dn /\
    es = map (entry_of (nodes (init fs))) (Children (deref (nodes (init fs)) dn)) /\
    Sorted (fun e1 e2 => String.ltb (name e1) (name e2) = true) es.
Proof.
  cbv zeta. set (fs := wfs (run empty_world acts)).
  assert (Hinv : tree_inv (init fs)) by (apply tree_inv_init, tree_inv_run, tree_inv_empty).
  destruct Hinv as (_ & Hu & Hso & _).
  unfold ReadDir. destruct (resolve (init fs) d) as [dn|]; [|discriminate].
  destruct (IsDirectory (deref (nodes (init fs)) dn)); [|discriminate].
  simpl. intros [= <-]. exists dn. split; [reflexivity|].
  assert (Hstrict : Sorted (fun e1 e2 => String.ltb (name e1) (name e2) = true)
            (map (entry_of (nodes (init fs))) (Children (deref (nodes (init fs)) dn)))).
  { unfold deref at 1. destruct (nodes (init fs) !! dn) as [nd|] eqn:E; [|constructor].
    pose proof (strict_of_ascending _ (Hu dn nd E) (Hso dn nd E)) as Hst.
    unfold child_names in Hst. clear -Hst. induction (Children nd) as [|c cs IH]; [constructor|].
    simpl in *. inversion Hst as [|? ? Hs' Hhd]; subst. constructor; [now apply IH|].
    destruct cs; simpl in *; constructor. now inversion Hhd. }
  rewrite (sort_by_id entry_less _ Hstrict). split; [reflexivity|exact Hstrict].
Qed.

Lemma ReadDir_in_stored_order_witness :
  exists dn,
    resolve (init (wfs (run empty_world
       [ACreate "d/b"; ACreate "d/c/x"; ACreate "d/a"; AClose 0; AClose 1; AClose 2]))) "d"
      = Some dn /\
    [mkDirEntry "a" false; mkDirEntry "b" false; mkDirEntry "c" true]
      = map (entry_of (nodes (init (wfs (run empty_world
          [ACreate "d/b"; ACreate "d/c/x"; ACreate "d/a"; AClose 0; AClose 1; AClose 2])))))
          (Children (deref (nodes (init (wfs (run empty_world
          [ACreate "d/b"; ACreate "d/c/x"; ACreate "d/a"; AClose 0; AClose 1; AClose 2]))))
                       dn)) /\
    Sorted (fun e1 e2 => String.ltb (name e1) (name e2) = true)
      [mkDirEntry "a" false; mkDirEntry "b" false; mkDirEntry "c" true].
Proof.
  apply (ReadDir_in_stored_order
           [ACreate "d/b"; ACreate "d/c/x"; ACreate "d/a"; AClose 0; AClose 1; AClose 2]
           "d" [mkDirEntry "a" false; mkDirEntry "b" false; mkDirEntry "c" true]).
  vm_compute. reflexivity.
Defined.

(** ** A page size of zero *)

Lemma paginate_zero (nm : string) (e : dirEntry) (l : list dirEntry) :
  paginate nm (Some (e :: l)) 0 = ((Some [], None), memDir nm (Some (e :: l))).
Proof. reflexivity. Qed.

Lemma drain_zero_cached (nm : string) (e : dirEntry) (l : list dirEntry) (fs : MemFS) :
  forall fuel, drain fuel 0 (memDir nm (Some (e :: l))) fs = None.
Proof.
  induction fuel as [|fuel IH]; [reflexivity|].
  cbn [drain File_ReadDir]. rewrite paginate_zero. now rewrite IH.
Qed.

(** X11.  [ReadDir(0)] on a directory handle: over an empty directory it
    reports [io.EOF] at once; over a directory with entries it returns an
    empty page without error and hands out nothing, so that a caller who
    lists with a page size of zero until [io.EOF] never gets there. *)
Theorem ReadDir_zero (fs : MemFS) (nm : string) (es : list dirEntry) :
  fst (ReadDir fs nm) = (Some es, None) ->
  (es = [] -> fst (fst (File_ReadDir (memDir nm None) 0 fs)) = (Some [], Some EOF)) /\
  (es <> [] ->
   fst (File_ReadDir (memDir nm None) 0 fs) = ((Some [], None), memDir nm (Some es)) /\
   forall fuel, drain fuel 0 (memDir nm None) fs = None).
Proof.
  intros Hrd. destruct (ReadDir fs nm) as [[oes err] fs1] eqn:E. simpl in Hrd.
  injection Hrd as -> ->. split.
  - intros ->. cbn [File_ReadDir]. now rewrite E.
  - intros Hne. destruct es as [|e l]; [congruence|]. split.
    + cbn [File_ReadDir]. rewrite E. now rewrite paginate_zero.
    + intros [|fuel]; [reflexivity|]. cbn [drain File_ReadDir]. rewrite E, paginate_zero.
      now rewrite drain_zero_cached.
Qed.

Lemma ReadDir_zero_witness :
  fst (File_ReadDir (memDir "dir4" None) 0 battery_fs)
    = ((Some [], None), memDir "dir4" (Some [mkDirEntry "dir5" true])) /\
  forall fuel, drain fuel 0 (memDir "dir4" None) battery_fs = None.
Proof.
  apply (proj2 (ReadDir_zero battery_fs "dir4" [mkDirEntry "dir5" true]
                  ltac:(vm_compute; reflexivity))).
  discriminate.
Defined.

(** ** [Path] and [ListFiles] on a tree *)

Lemma string_app_assoc (a b c : string) : ((a ++ b) ++ c = a ++ (b ++ c))%string.
Proof.
  induction a as [|x a IH]; [reflexivity|].
  change (String x ((a ++ b) ++ c) = String x (a ++ (b ++ c)))%string. now rewrite IH.
Qed.

Lemma Path_mono (h : store) :
  forall fuel fuel' node s, Path fuel h node = Some s -> fuel <= fuel' ->
                            Path fuel' h node = Some s.
Proof.
  induction fuel as [|fuel IH]; intros fuel' node s H Hle; [discriminate|].
  destruct fuel' as [|fuel']; [lia|]. simpl in *.
  destruct (Parent (deref h node)) as [p|]; [|assumption].
  destruct (Path fuel h p) as [sp|] eqn:E; [|discriminate].
  now rewrite (IH fuel' p sp E ltac:(lia)).
Qed.

Lemma Path_total (h : store) :
  wf_store h = true ->
  forall fuel node, node < fuel -> exists s, Path fuel h node = Some s.
Proof.
  intros Hwf. induction fuel as [|fuel IH]; intros node Hlt; [lia|]. simpl.
  unfold deref. destruct (h !! node) as [nd|] eqn:E; simpl; [|eauto].
  destruct (Parent nd) as [p|] eqn:Ep; [|eauto].
  pose proof (wf_store_parent h node p nd Hwf E Ep).
  destruct (IH p ltac:(lia)) as [s Hs]. rewrite Hs. eauto.
Qed.

Lemma Path_along (h : store) :
  wf_store h = true -> parent_links h ->
  forall path node nd s fuel id,
    forallb plain path = true -> h !! node = Some nd ->
    Path fuel h node = Some s -> Get h node path = Some id ->
    Path (fuel + length path) h id = Some (s ++ "/" ++ String.concat "/" path)%string /\
    node + length path <= id.
Proof.
  intros Hwf Hpl. induction path as [|a rest IH]; intros node nd s fuel id Hp Hnd Hs Hg;
    [discriminate|].
  change (forallb plain (a :: rest)) with (plain a && forallb plain rest) in Hp.
  apply andb_true_iff in Hp as [Ha Hrest].
  assert (Hstep : exists c ndc, Get_step h node a = Some c /\ h !! c = Some ndc /\
            Name ndc = a /\ Parent ndc = Some node /\ node < c).
  { simpl in Hg. destruct (Get_step h node a) as [c|] eqn:E; [|discriminate].
    rewrite plain_step in E by assumption. unfold deref in E. rewrite Hnd in E.
    apply dirNodeSlice_Get_In in E as Hin. destruct Hin as (Hin & ndc & Hc & Hname).
    exists c, ndc. repeat split; try assumption.
    - specialize (Hpl node nd c Hnd Hin). unfold deref in Hpl. now rewrite Hc in Hpl.
    - pose proof (wf_store_children h node c nd Hwf Hnd Hin). lia. }
  destruct Hstep as (c & ndc & Hstep & Hc & Hname & Hpar & Hlt).
  assert (Hpc : Path (S fuel) h c = Some (s ++ "/" ++ a)%string).
  { simpl. unfold deref. rewrite Hc, Hpar. fold (deref h node).
    replace (Path fuel h node) with (Some s). now rewrite Hname. }
  destruct rest as [|b rest'].
  - simpl in Hg. rewrite Hstep in Hg. injection Hg as <-.
    simpl. rewrite Nat.add_1_r. split; [exact Hpc|lia].
  - rewrite Get_cons2, Hstep in Hg.
    destruct (IH c ndc _ (S fuel) id Hrest Hc Hpc Hg) as [HP Hd].
    split.
    + replace (fuel + length (a :: b :: rest')) with (S fuel + length (b :: rest'))
        by (simpl; lia).
      rewrite HP. f_equal. rewrite (concat_sep_cons a (b :: rest')) by discriminate.
      now rewrite !string_app_assoc.
    + simpl in *. lia.
Qed.

(** X12.  [Path] undoes resolution: in a tree built through the facade,
    when a name without [.] and [..] segments resolves to a node, the path
    of that node is the name after a leading separator. *)
Theorem Path_of_resolved (acts : list action) (nm : string) (id : nat) :
  let fs := init (wfs (run empty_world acts)) in
  forallb plain (nameToPath nm) = true ->
  resolve fs nm = Some id ->
  Path (S (length (nodes fs))) (nodes fs) id = Some ("/" ++ nm)%string.
Proof.
  cbv zeta. set (fs := init (wfs (run empty_world acts))).
  assert (Hinv : tree_inv fs) by (apply tree_inv_init, tree_inv_run, tree_inv_empty).
  destruct Hinv as (Hwf & _ & _ & Hpl & Hroot).
  intros Hp Hres. unfold resolve in Hres. unfold rooted in Hroot.
  destruct (root fs) as [r|] eqn:Hr; [|discriminate].
  destruct (wf_unfold fs r Hwf Hr) as [Hs Hlt].
  destruct (lookup_lt_is_Some_2 _ _ Hlt) as [nd Hnd].
  destruct Hroot as [Hname Hpar].
  assert (Hpr : Path 1 (nodes fs) r = Some EmptyString).
  { simpl. now rewrite Hpar, Hname. }
  destruct (Path_along (nodes fs) Hs Hpl (nameToPath nm) r nd _ 1 id Hp Hnd Hpr Hres)
    as [HP Hd].
  rewrite nameToPath_concat in HP.
  apply (Path_mono _ _ _ _ _ HP).
  pose proof (Get_valid _ _ _ _ Hs Hlt Hres). lia.
Qed.

Lemma Path_of_resolved_witness :
  Path (S (length (nodes (init (wfs (run empty_world
          [ACreate "dir2/dir3/file3A"; AClose 0]))))))
       (nodes (init (wfs (run empty_world [ACreate "dir2/dir3/file3A"; AClose 0])))) 3
    = Some ("/" ++ "dir2/dir3/file3A")%string.
Proof.
  apply (Path_of_resolved [ACreate "dir2/dir3/file3A"; AClose 0] "dir2/dir3/file3A" 3);
    vm_compute; reflexivity.
Defined.

Lemma DFS_unfold (fuel : nat) (h : store) (node : nat) :
  DFS (S fuel) h node =
  match (fix visit (cs : list nat) : option (list nat) :=
           match cs with
           | [] => Some []
           | c :: cs' =>
               match DFS fuel h c, visit cs' with
               | Some l1, Some l2 => Some (l1 ++ l2)
               | _, _ => None
               end
           end) (Children (deref h node)) with
  | Some l => Some (node :: l)
  | None => None
  end.
Proof. reflexivity. Qed.

Lemma DFS_total (h : store) :
  wf_store h = true ->
  forall fuel node, 0 < fuel -> length h <= node + fuel ->
    exists l, DFS fuel h node = Some (node :: l) /\
              Forall (fun x => x < length h) l /\
              length (Children (deref h node)) <= length l.
Proof.
  intros Hwf. induction fuel as [|fuel IH]; intros node Hpos Hlen; [lia|].
  rewrite DFS_unfold.
  assert (Hkids : Forall (fun c => node < c < length h) (Children (deref h node))).
  { unfold deref. destruct (h !! node) as [nd|] eqn:E; [|constructor].
    apply Forall_forall. intros c Hc. apply list_elem_of_In in Hc.
    exact (wf_store_children h node c nd Hwf E Hc). }
  induction (Children (deref h node)) as [|c cs IHcs].
  - exists []. repeat split; [constructor|simpl; lia].
  - inversion Hkids as [|? ? Hc Hcs]; subst.
    destruct (IHcs Hcs) as (l2 & Hl2 & Hf2 & Hn2).
    destruct (IH c ltac:(lia) ltac:(lia)) as (l1 & Hl1 & Hf1 & _).
    rewrite Hl1.
    match type of Hl2 with
    | match ?v with _ => _ end = _ => destruct v as [l2'|] eqn:Ev; [|discriminate]
    end.
    injection Hl2 as <-. exists ((c :: l1) ++ l2'). split; [reflexivity|]. split.
    + apply Forall_app. split; [|assumption]. constructor; [lia|assumption].
    + simpl in *. rewrite length_app. lia.
Qed.

Lemma collect_paths_total (h : store) (fuel : nat) :
  wf_store h = true ->
  forall ns, Forall (fun x => x < fuel) ns ->
    exists names, collect_paths fuel h ns = Some names /\ length names = length ns.
Proof.
  intros Hwf. induction ns as [|n ns IH]; intros Hf; [exists []; now split|].
  inversion Hf as [|? ? Hn Hns]; subst.
  destruct (Path_total h Hwf fuel n Hn) as [s Hs].
  destruct (IH Hns) as (names & Hc & Hl).
  exists (s :: names). simpl. rewrite Hs, Hc. split; [reflexivity|simpl; lia].
Qed.

Lemma collect_paths_cons (fuel : nat) (h : store) (n : nat) (ns : list nat)
    (s : string) (names : list string) :
  collect_paths fuel h (n :: ns) = Some (s :: names) ->
  Path fuel h n = Some s /\ collect_paths fuel h ns = Some names.
Proof.
  cbn [collect_paths]. destruct (Path fuel h n); [|discriminate].
  destruct (collect_paths fuel h ns); [|discriminate]. now intros [= -> ->].
Qed.

(** X13.  [ListFiles] on an existing directory returns: it neither
    panics nor runs for ever, and gives no error.  The first name is the
    path of the directory itself, and there is at least one further name
    for every child of the directory. *)
Theorem ListFiles_on_a_directory (fs : MemFS) (d : string) (dn : nat) :
  wf fs = true ->
  resolve (init fs) d = Some dn ->
  IsDirectory (deref (nodes (init fs)) dn) = true ->
  let h := nodes (init fs) in
  exists self others,
    fst (ListFiles fs d) = Some (Returns (Some (self :: others), None)) /\
    Path (S (length h)) h dn = Some self /\
    length (Children (deref h dn)) <= length others.
Proof.
  intros Hwf Hres Hdir. cbv zeta.
  pose proof (wf_init fs Hwf) as Hwf1. destruct (init_root fs) as [r Hr].
  destruct (wf_unfold (init fs) r Hwf1 Hr) as [Hs Hlt].
  assert (Hdn : dn < length (nodes (init fs))).
  { unfold resolve in Hres. rewrite Hr in Hres. exact (Get_valid _ _ _ _ Hs Hlt Hres). }
  unfold ListFiles. rewrite Hres, Hdir. cbn [negb].
  destruct (DFS_total _ Hs (S (length (nodes (init fs)))) dn ltac:(lia) ltac:(lia))
    as (l & Hl & Hf & Hn).
  rewrite Hl.
  destruct (collect_paths_total _ (S (length (nodes (init fs)))) Hs (dn :: l))
    as (names & Hc & Hlen).
  { constructor; [lia|]. eapply Forall_impl; [exact Hf|]. simpl. intros; lia. }
  rewrite Hc. destruct names as [|self others]; [discriminate|].
  exists self, others. split; [reflexivity|].
  destruct (collect_paths_cons _ _ _ _ _ _ Hc) as [Hp _].
  split; [exact Hp|]. simpl in Hlen. lia.
Qed.

Lemma ListFiles_on_a_directory_witness :
  exists self others,
    fst (ListFiles battery_fs "dir2") = Some (Returns (Some (self :: others), None)) /\
    Path (S (length (nodes (init battery_fs)))) (nodes (init battery_fs)) 5 = Some self /\
    length (Children (deref (nodes (init battery_fs)) 5)) <= length others.
Proof.
  apply (ListFiles_on_a_directory battery_fs "dir2" 5); vm_compute; reflexivity.
Defined.

(** ** [Level] *)

Lemma Level_from_mono (h : store) :
  forall fuel fuel' parent k, Level_from fuel h parent = Some k -> fuel <= fuel' ->
                              Level_from fuel' h parent = Some k.
Proof.
  induction fuel as [|fuel IH]; intros fuel' parent k H Hle.
  - destruct parent; [discriminate|]. now destruct fuel'.
  - destruct fuel' as [|fuel']; [lia|]. destruct parent as [p|]; [|exact H]. simpl in *.
    destruct (Level_from fuel h (Parent (deref h p))) as [l|] eqn:E; [|discriminate].
    now rewrite (IH fuel' _ l E ltac:(lia)).
Qed.

Lemma Level_along (h : store) :
  wf_store h = true -> parent_links h ->
  forall path node nd k fuel id,
    forallb plain path = true -> h !! node = Some nd ->
    Level fuel h node = Some k -> Get h node path = Some id ->
    Level (fuel + length path) h id = Some (k + length path).
Proof.
  intros Hwf Hpl. induction path as [|a rest IH]; intros node nd k fuel id Hp Hnd Hk Hg;
    [discriminate|].
  change (forallb plain (a :: rest)) with (plain a && forallb plain rest) in Hp.
  apply andb_true_iff in Hp as [Ha Hrest].
  assert (Hstep : exists c ndc, Get_step h node a = Some c /\ h !! c = Some ndc /\
                                Parent ndc = Some node).
  { simpl in Hg. destruct (Get_step h node a) as [c|] eqn:E; [|discriminate].
    rewrite plain_step in E by assumption. unfold deref in E. rewrite Hnd in E.
    apply dirNodeSlice_Get_In in E as Hin. destruct Hin as (Hin & ndc & Hc & _).
    exists c, ndc. repeat split; try assumption.
    specialize (Hpl node nd c Hnd Hin). unfold deref in Hpl. now rewrite Hc in Hpl. }
  destruct Hstep as (c & ndc & Hstep & Hc & Hpar).
  assert (Hlc : Level (S fuel) h c = Some (S k)).
  { unfold Level in *. unfold deref at 1. rewrite Hc, Hpar. simpl. now rewrite Hk. }
  destruct rest as [|b rest'].
  - simpl in Hg. rewrite Hstep in Hg. injection Hg as <-.
    simpl. rewrite !Nat.add_1_r. exact Hlc.
  - rewrite Get_cons2, Hstep in Hg.
    pose proof (IH c ndc (S k) (S fuel) id Hrest Hc Hlc Hg) as HL.
    replace (fuel + length (a :: b :: rest')) with (S fuel + length (b :: rest'))
      by (simpl; lia).
    replace (k + length (a :: b :: rest')) with (S k + length (b :: rest')) by (simpl; lia).
    exact HL.
Qed.

(** X14.  [Level] counts the segments: in a tree built through the facade
    the node that a name without [.] and [..] segments resolves to is as
    many levels below the root as the name has segments, one more than it
    has separators. *)
Theorem Level_of_resolved (acts : list action) (nm : string) (id : nat) :
  let fs := init (wfs (run empty_world acts)) in
  forallb plain (nameToPath nm) = true ->
  resolve fs nm = Some id ->
  Level (length (nodes fs)) (nodes fs) id = Some (S (count_sep nm)).
Proof.
  cbv zeta. set (fs := init (wfs (run empty_world acts))).
  assert (Hinv : tree_inv fs) by (apply tree_inv_init, tree_inv_run, tree_inv_empty).
  destruct Hinv as (Hwf & _ & _ & Hpl & Hroot).
  intros Hp Hres. unfold resolve in Hres. unfold rooted in Hroot.
  destruct (root fs) as [r|] eqn:Hr; [|discriminate].
  destruct (wf_unfold fs r Hwf Hr) as [Hs Hlt].
  destruct (lookup_lt_is_Some_2 _ _ Hlt) as [nd Hnd].
  destruct Hroot as [Hname Hpar].
  assert (Hl0 : Level 0 (nodes fs) r = Some 0) by (unfold Level; now rewrite Hpar).
  pose proof (Level_along (nodes fs) Hs Hpl (nameToPath nm) r nd 0 0 id Hp Hnd Hl0 Hres) as HL.
  simpl in HL. rewrite (proj1 (nameToPath_shape nm)) in HL.
  apply (Level_from_mono _ _ _ _ _ HL).
  assert (Hpr : Path 1 (nodes fs) r = Some EmptyString) by (simpl; now rewrite Hpar, Hname).
  destruct (Path_along (nodes fs) Hs Hpl (nameToPath nm) r nd EmptyString 1 id Hp Hnd Hpr Hres)
    as [_ Hd].
  pose proof (Get_valid _ _ _ _ Hs Hlt Hres).
  rewrite (proj1 (nameToPath_shape nm)) in Hd. lia.
Qed.

Lemma Level_of_resolved_witness :
  Level (length (nodes (init (wfs (run empty_world
          [ACreate "dir2/dir3/file3A"; AClose 0])))))
        (nodes (init (wfs (run empty_world [ACreate "dir2/dir3/file3A"; AClose 0])))) 3
    = Some (S (count_sep "dir2/dir3/file3A")).
Proof.
  apply (Level_of_resolved [ACreate "dir2/dir3/file3A"; AClose 0] "dir2/dir3/file3A" 3);
    vm_compute; reflexivity.
Defined.

(** ** The segments [.] and [..] *)

Lemma nameToPath_app (s t : string) :
  nameToPath (s ++ "/" ++ t)%string = nameToPath s ++ nameToPath t.
Proof.
  induction s as [|c s IH]; [reflexivity|].
  change (String c s ++ "/" ++ t)%string with (String c (s ++ "/" ++ t))%string.
  cbn [nameToPath]. rewrite IH. destruct (Ascii.eqb c "/"%char); [reflexivity|].
  pose proof (nameToPath_nonempty s). now destruct (nameToPath s).
Qed.

Lemma nameToPath_segment (seg : string) : count_sep seg = 0 -> nameToPath seg = [seg].
Proof.
  induction seg as [|c seg IH]; [reflexivity|]. cbn [count_sep nameToPath].
  destruct (Ascii.eqb c "/"%char); [discriminate|]. intros H. now rewrite IH.
Qed.

(** X15.  Self and parent segments.  (1) A trailing [/.] changes nothing:
    [d/.] resolves as [d] does.  (2) In a tree built through the facade
    [..] undoes a step to a child: when [d/seg] resolves for a segment
    [seg] other than [.] and [..], then [d/seg/..] resolves to the node of
    [d].  (3) The root has no parent: [..] does not resolve. *)
Theorem self_and_parent_segments (acts : list action) (d seg : string) :
  let fs := init (wfs (run empty_world acts)) in
  resolve fs (d ++ "/" ++ ".")%string = resolve fs d /\
  (plain seg = true -> count_sep seg = 0 ->
   resolve fs (d ++ "/" ++ seg)%string <> None ->
   resolve fs ((d ++ "/" ++ seg) ++ "/" ++ "..")%string = resolve fs d) /\
  resolve fs ".." = None.
Proof.
  cbv zeta. set (fs := init (wfs (run empty_world acts))).
  assert (Hinv : tree_inv fs) by (apply tree_inv_init, tree_inv_run, tree_inv_empty).
  destruct Hinv as (Hwf & _ & _ & Hpl & Hroot).
  unfold resolve. unfold rooted in Hroot.
  destruct (root fs) as [r|] eqn:Hr; [|repeat split; intros; reflexivity].
  destruct (wf_unfold fs r Hwf Hr) as [Hs Hlt]. split; [|split].
  - rewrite nameToPath_app. change (nameToPath ".") with ["."].
    rewrite (Get_app _ _ ["."] (nameToPath_nonempty d) ltac:(discriminate)).
    now destruct (Get (nodes fs) r (nameToPath d)).
  - intros Hseg Hcs. rewrite !nameToPath_app, (nameToPath_segment seg Hcs).
    change (nameToPath "..") with [".."].
    rewrite (Get_app _ (nameToPath d ++ [seg]) [".."]);
      [|pose proof (nameToPath_nonempty d); now destruct (nameToPath d)|discriminate].
    rewrite (Get_app _ _ [seg] (nameToPath_nonempty d) ltac:(discriminate)).
    destruct (Get (nodes fs) r (nameToPath d)) as [x|] eqn:Ex; [|congruence].
    intros Hne. simpl. rewrite plain_step by assumption.
    pose proof (Get_valid _ _ _ _ Hs Hlt Ex) as Hx.
    destruct (lookup_lt_is_Some_2 _ _ Hx) as [ndx Hndx].
    simpl in Hne. rewrite plain_step in Hne by assumption.
    unfold deref at 1. unfold deref at 1 in Hne. rewrite Hndx in *.
    destruct (dirNodeSlice_Get (nodes fs) (Children ndx) seg) as [c|] eqn:Ec; [|congruence].
    apply dirNodeSlice_Get_In in Ec as (Hin & ndc & Hc & _).
    pose proof (Hpl x ndx c Hndx Hin) as Hpar. unfold deref in Hpar. rewrite Hc in Hpar.
    destruct (resolution_rules _ c ndc seg Hc) as (_ & Hdd & _). now rewrite Hdd, Hpar.
  - destruct Hroot as [_ Hpar]. unfold deref in Hpar.
    destruct (lookup_lt_is_Some_2 _ _ Hlt) as [ndr Hndr]. rewrite Hndr in Hpar.
    destruct (resolution_rules _ r ndr seg Hndr) as (_ & Hdd & _).
    change (nameToPath "..") with [".."]. cbn [Get]. now rewrite Hdd, Hpar.
Qed.

Lemma self_and_parent_segments_witness :
  let fs := init (wfs (run empty_world [ACreate "dir2/dir3/file3A"; AClose 0])) in
  resolve fs ("dir2" ++ "/" ++ ".")%string = resolve fs "dir2" /\
  resolve fs (("dir2" ++ "/" ++ "dir3") ++ "/" ++ "..")%string = resolve fs "dir2" /\
  resolve fs ".." = None.
Proof.
  cbv zeta.
  pose proof (self_and_parent_segments [ACreate "dir2/dir3/file3A"; AClose 0] "dir2" "dir3")
    as (H1 & H2 & H3).
  split; [exact H1|]. split; [|exact H3].
  apply H2; [reflexivity|reflexivity|vm_compute; discriminate].
Defined.

(** ** [compareDirEntries] *)

Lemma compare_entries_spec (l1 l2 : list dirEntry) : compare_entries l1 l2 = true <-> l1 = l2.
Proof.
  revert l2. induction l1 as [|[n1 d1] l1 IH]; intros [|[n2 d2] l2]; simpl;
    try (split; [discriminate|discriminate]); [tauto|].
  destruct (String.eqb_spec n1 n2) as [->|Hn]; simpl.
  - destruct d1, d2; simpl; rewrite ?IH; split; congruence.
  - split; [discriminate|congruence].
Qed.

(** X16.  [compareDirEntries] of the battery decides whether two listings
    are the same: it answers true exactly when the two have the same
    length and agree, position by position, in name and kind. *)
Theorem compareDirEntries_spec (entries1 entries2 : list dirEntry) :
  compareDirEntries entries1 entries2 = true <-> entries1 = entries2.
Proof.
  unfold compareDirEntries. destruct (Nat.eqb_spec (length entries1) (length entries2)) as [E|E];
    simpl.
  - apply compare_entries_spec.
  - split; [discriminate|]. intros ->. contradiction.
Qed.

(** ** The flat map as a store of named byte strings *)

Lemma FlatMap_valid_spec (fs : FlatMap.MemFS) :
  FlatMap.valid fs = true <->
  forall nm buf, FlatMap.m fs !! nm = Some buf -> buf < length (FlatMap.buffers fs).
Proof.
  unfold FlatMap.valid. rewrite forallb_forall. split.
  - intros H nm buf Hnm. specialize (H (nm, buf)). simpl in H.
    apply Nat.ltb_lt, H. apply list_elem_of_In. now apply elem_of_map_to_list.
  - intros H [nm buf] Hin. simpl. apply Nat.ltb_lt. apply (H nm).
    apply elem_of_map_to_list. now apply list_elem_of_In.
Qed.

Lemma FlatMap_content_new (fs : FlatMap.MemFS) (nm : string) (b : list byte) :
  let fs' := FlatMap.SetBytes fs nm b in
  FlatMap.m fs' !! nm = Some (length (FlatMap.buffers fs)) /\
  FlatMap.content_of fs' (length (FlatMap.buffers fs)) = b /\
  (forall other, other <> nm -> FlatMap.m fs' !! other = FlatMap.m fs !! other) /\
  (forall j, j < length (FlatMap.buffers fs) ->
             FlatMap.content_of fs' j = FlatMap.content_of fs j) /\
  length (FlatMap.buffers fs') = S (length (FlatMap.buffers fs)).
Proof.
  cbv zeta. unfold FlatMap.SetBytes, FlatMap.Create, FlatMap.Close, FlatMap.Write,
    FlatMap.content_of. simpl.
  rewrite lookup_app_r by lia. rewrite Nat.sub_diag. simpl.
  split; [apply lookup_insert_eq|]. split.
  { rewrite list_lookup_insert_eq by (rewrite length_app; simpl; lia). reflexivity. }
  split; [intros other Hne; now apply lookup_insert_ne|]. split.
  - intros j Hj. rewrite list_lookup_insert_ne by lia. now rewrite lookup_app_l.
  - rewrite length_insert, length_app. simpl. lia.
Qed.

Lemma FlatMap_SetBytes_spec (fs : FlatMap.MemFS) (nm : string) (b : list byte) :
  FlatMap.valid fs = true ->
  let fs' := FlatMap.SetBytes fs nm b in
  FlatMap.TryGetBytes fs' nm = (FlatMap.Bytes b, true) /\
  FlatMap.HasFile fs' nm = true /\
  FlatMap.Open fs' nm = (Some (memFile nm b), None) /\
  FlatMap.valid fs' = true /\
  forall other, other <> nm ->
    FlatMap.TryGetBytes fs' other = FlatMap.TryGetBytes fs other /\
    FlatMap.HasFile fs' other = FlatMap.HasFile fs other.
Proof.
  intros Hv. cbv zeta.
  destruct (FlatMap_content_new fs nm b) as (Hm & Hc & Hother & Hold & Hlen).
  rewrite FlatMap_valid_spec in Hv.
  unfold FlatMap.TryGetBytes, FlatMap.HasFile, FlatMap.Open. rewrite Hm.
  fold (FlatMap.content_of (FlatMap.SetBytes fs nm b) (length (FlatMap.buffers fs))).
  rewrite Hc. repeat (split; [reflexivity|]). split.
  - apply FlatMap_valid_spec. intros k buf Hk. rewrite Hlen.
    destruct (decide (k = nm)) as [->|Hne].
    + rewrite Hm in Hk. injection Hk as <-. lia.
    + rewrite Hother in Hk by assumption. specialize (Hv k buf Hk). lia.
  - intros other Hne. rewrite (Hother other Hne).
    destruct (FlatMap.m fs !! other) as [j|] eqn:Ej; [|now split].
    rewrite (Hold j (Hv other j Ej)). now split.
Qed.

(** X17.  The flat-map [MemFS] as a store of named byte strings:
    [SetBytes(nm, b)] makes [nm] a file whose bytes [TryGetBytes] and
    [Open] give back, and leaves what is stored under every other name as
    it was. *)
Theorem FlatMap_SetBytes_round_trip (fs : FlatMap.MemFS) (nm : string) (b : list byte) :
  FlatMap.valid fs = true ->
  let fs' := FlatMap.SetBytes fs nm b in
  FlatMap.TryGetBytes fs' nm = (FlatMap.Bytes b, true) /\
  FlatMap.HasFile fs' nm = true /\
  FlatMap.Open fs' nm = (Some (memFile nm b), None) /\
  FlatMap.valid fs' = true /\
  forall other, other <> nm ->
    FlatMap.TryGetBytes fs' other = FlatMap.TryGetBytes fs other /\
    FlatMap.HasFile fs' other = FlatMap.HasFile fs other.
Proof. exact (FlatMap_SetBytes_spec fs nm b). Qed.

Lemma FlatMap_SetBytes_round_trip_witness :
  let fs := FlatMap.SetBytes FlatMap.empty_fs "file2" bytes_15_16 in
  let fs' := FlatMap.SetBytes fs "file1" bytes_11_12_13 in
  FlatMap.TryGetBytes fs' "file1" = (FlatMap.Bytes bytes_11_12_13, true) /\
  FlatMap.HasFile fs' "file1" = true /\
  FlatMap.Open fs' "file1" = (Some (memFile "file1" bytes_11_12_13), None) /\
  FlatMap.valid fs' = true /\
  forall other, other <> "file1" ->
    FlatMap.TryGetBytes fs' other = FlatMap.TryGetBytes fs other /\
    FlatMap.HasFile fs' other = FlatMap.HasFile fs other.
Proof.
  apply (FlatMap_SetBytes_round_trip (FlatMap.SetBytes FlatMap.empty_fs "file2" bytes_15_16)
           "file1" bytes_11_12_13).
  vm_compute. reflexivity.
Defined.

(** X18.  [Delete] removes the one file: afterwards [HasFile] is false and
    [TryGetBytes] finds nothing under the name, every other name is as
    before, and deleting a name that is not there changes nothing. *)
Theorem FlatMap_Delete (fs : FlatMap.MemFS) (nm : string) :
  let fs' := FlatMap.Delete fs nm in
  FlatMap.HasFile fs' nm = false /\
  FlatMap.TryGetBytes fs' nm = (None, false) /\
  (forall c, FlatMap.Open fs' nm <> (Some (memFile nm c), None)) /\
  (forall other, other <> nm ->
     FlatMap.TryGetBytes fs' other = FlatMap.TryGetBytes fs other /\
     FlatMap.HasFile fs' other = FlatMap.HasFile fs other) /\
  (FlatMap.HasFile fs nm = false -> fs' = fs).
Proof.
  cbv zeta. unfold FlatMap.Delete, FlatMap.HasFile, FlatMap.TryGetBytes, FlatMap.Open.
  simpl. rewrite lookup_delete_eq.
  split; [reflexivity|]. split; [reflexivity|]. split.
  { intros c. destruct (existsb _ _); discriminate. }
  split.
  - intros other Hne. rewrite lookup_delete_ne by congruence. now split.
  - destruct (FlatMap.m fs !! nm) eqn:E; [discriminate|]. intros _.
    rewrite delete_id by assumption. now destruct fs.
Qed.

Lemma FlatMap_Delete_witness :
  FlatMap.Delete FlatMap.empty_fs "file1" = FlatMap.empty_fs.
Proof.
  apply (proj2 (proj2 (proj2 (proj2 (FlatMap_Delete FlatMap.empty_fs "file1"))))).
  reflexivity.
Defined.

(** X19.  [GetBytes] cannot tell an empty file from a missing one: it
    returns the nil slice for a file that was stored with no bytes as it
    does for a name that was deleted, while the second result of
    [TryGetBytes] is true for the one and false for the other. *)
Theorem FlatMap_GetBytes_empty_or_missing (fs : FlatMap.MemFS) (nm : string) :
  FlatMap.GetBytes (FlatMap.SetBytes fs nm []) nm = None /\
  FlatMap.GetBytes (FlatMap.Delete fs nm) nm = None /\
  snd (FlatMap.TryGetBytes (FlatMap.SetBytes fs nm []) nm) = true /\
  snd (FlatMap.TryGetBytes (FlatMap.Delete fs nm) nm) = false.
Proof.
  destruct (FlatMap_content_new fs nm []) as (Hm & Hc & _).
  unfold FlatMap.GetBytes, FlatMap.TryGetBytes. rewrite Hm.
  fold (FlatMap.content_of (FlatMap.SetBytes fs nm []) (length (FlatMap.buffers fs))).
  rewrite Hc. unfold FlatMap.Delete. simpl. rewrite lookup_delete_eq. now repeat split.
Qed.

(** X20.  [SetString] and [GetString] are inverse to each other: the
    string stored under a name is the string read back. *)
Theorem FlatMap_SetString_GetString (fs : FlatMap.MemFS) (nm : string) (s : string) :
  FlatMap.GetString (FlatMap.SetString fs nm s) nm = s.
Proof.
  unfold FlatMap.SetString, FlatMap.GetString.
  destruct (FlatMap_content_new fs nm (list_byte_of_string s)) as (Hm & Hc & _).
  rewrite Hm.
  fold (FlatMap.content_of (FlatMap.SetBytes fs nm (list_byte_of_string s))
          (length (FlatMap.buffers fs))).
  rewrite Hc. apply string_of_list_byte_of_string.
Qed.

(** X21.  Handles of the flat map write through.  What is written to a
    handle from [Append] on an existing file shows under the name at once,
    after the bytes that were there; and once a name was created anew, what
    is written to a handle from an earlier [Create] of that name never
    shows. *)
Theorem FlatMap_handles_write_through (fs : FlatMap.MemFS) (nm : string) (b : list byte) :
  FlatMap.valid fs = true ->
  (forall buf, FlatMap.m fs !! nm = Some buf ->
     let '(wc, fs1) := FlatMap.Append fs nm in
     FlatMap.Open (FlatMap.Write fs1 wc b) nm
       = (Some (memFile nm (FlatMap.content_of fs buf ++ b)), None)) /\
  (let '(wc, fs1) := FlatMap.Create fs nm in
   let '(wc2, fs2) := FlatMap.Create fs1 nm in
   FlatMap.Open (FlatMap.Write fs2 wc b) nm = (Some (memFile nm []), None)).
Proof.
  intros Hv. rewrite FlatMap_valid_spec in Hv. split.
  - intros buf Hbuf. unfold FlatMap.Append. rewrite Hbuf.
    pose proof (Hv nm buf Hbuf) as Hlt.
    destruct (lookup_lt_is_Some_2 _ _ Hlt) as [c Hc].
    unfold FlatMap.Write, FlatMap.Open, FlatMap.content_of. rewrite Hc. simpl.
    rewrite Hbuf. now rewrite list_lookup_insert_eq.
  - unfold FlatMap.Create, FlatMap.Write, FlatMap.Open. simpl.
    rewrite lookup_app_l by (rewrite length_app; simpl; lia).
    rewrite lookup_app_r by lia. rewrite Nat.sub_diag. simpl.
    rewrite lookup_insert_eq. rewrite length_app. simpl.
    rewrite list_lookup_insert_ne by lia.
    rewrite lookup_app_r by (rewrite length_app; simpl; lia).
    rewrite length_app. simpl.
    now replace (length (FlatMap.buffers fs) + 1 - (length (FlatMap.buffers fs) + 1)) with 0
      by lia.
Qed.

Lemma FlatMap_handles_write_through_witness :
  let fs := FlatMap.SetBytes FlatMap.empty_fs "file1" bytes_12_13_14 in
  (let '(wc, fs1) := FlatMap.Append fs "file1" in
   FlatMap.Open (FlatMap.Write fs1 wc bytes_15_16) "file1"
     = (Some (memFile "file1" (FlatMap.content_of fs 0 ++ bytes_15_16)), None)) /\
  (let '(wc, fs1) := FlatMap.Create fs "file1" in
   let '(wc2, fs2) := FlatMap.Create fs1 "file1" in
   FlatMap.Open (FlatMap.Write fs2 wc bytes_15_16) "file1" = (Some (memFile "file1" []), None)).
Proof.
  cbv zeta.
  destruct (FlatMap_handles_write_through
              (FlatMap.SetBytes FlatMap.empty_fs "file1" bytes_12_13_14) "file1" bytes_15_16)
    as [H1 H2]; [vm_compute; reflexivity|].
  split; [|exact H2]. apply (H1 0). vm_compute. reflexivity.
Defined.

(** X22.  What the flat map opens: a name that is a key is a file; a name
    that is no key is a directory exactly when it is a prefix, as a string,
    of some key, and not found otherwise.  So on the empty store every
    [Open] fails with [ErrNotFound]. *)
Theorem FlatMap_Open_cases (fs : FlatMap.MemFS) (nm : string) :
  (forall buf, FlatMap.m fs !! nm = Some buf ->
     FlatMap.Open fs nm = (Some (memFile nm (FlatMap.content_of fs buf)), None)) /\
  (FlatMap.m fs !! nm = None ->
   (FlatMap.Open fs nm = (Some (memDir nm None), None) <->
    exists key buf, FlatMap.m fs !! key = Some buf /\ String.prefix nm key = true) /\
   (FlatMap.Open fs nm = (None, Some ErrNotFound) <->
    forall key buf, FlatMap.m fs !! key = Some buf -> String.prefix nm key = false)) /\
  FlatMap.Open FlatMap.empty_fs nm = (None, Some ErrNotFound).
Proof.
  split; [|split].
  - intros buf Hbuf. unfold FlatMap.Open, FlatMap.content_of. now rewrite Hbuf.
  - intros Hnone. unfold FlatMap.Open. rewrite Hnone.
    destruct (existsb (fun kv => String.prefix nm (fst kv)) (map_to_list (FlatMap.m fs))) eqn:E.
    + apply existsb_exists in E as ([key buf] & Hin & Hp). simpl in Hp.
      apply list_elem_of_In, elem_of_map_to_list in Hin. split.
      * split; [eauto|reflexivity].
      * split; [discriminate|]. intros H. rewrite (H key buf Hin) in Hp. discriminate.
    + split.
      * split; [discriminate|]. intros (key & buf & Hk & Hp). exfalso.
        assert (Hex : existsb (fun kv => String.prefix nm (fst kv))
                        (map_to_list (FlatMap.m fs)) = true).
        { apply existsb_exists. exists (key, buf). split; [|exact Hp].
          apply list_elem_of_In. now apply elem_of_map_to_list. }
        congruence.
      * split; [|reflexivity]. intros _ key buf Hk.
        destruct (String.prefix nm key) eqn:Hp; [|reflexivity]. exfalso.
        assert (Hex : existsb (fun kv => String.prefix nm (fst kv))
                        (map_to_list (FlatMap.m fs)) = true).
        { apply existsb_exists. exists (key, buf). split; [|exact Hp].
          apply list_elem_of_In. now apply elem_of_map_to_list. }
        congruence.
  - reflexivity.
Qed.

Lemma FlatMap_Open_cases_witness :
  let fs := FlatMap.SetBytes FlatMap.empty_fs "dir1/file1A" bytes_12_13_14 in
  FlatMap.Open fs "dir1/file1A" = (Some (memFile "dir1/file1A" (FlatMap.content_of fs 0)), None) /\
  (FlatMap.Open fs "dir" = (Some (memDir "dir" None), None) <->
   exists key buf, FlatMap.m fs !! key = Some buf /\ String.prefix "dir" key = true).
Proof.
  cbv zeta.
  split.
  - apply (proj1 (FlatMap_Open_cases
                    (FlatMap.SetBytes FlatMap.empty_fs "dir1/file1A" bytes_12_13_14)
                    "dir1/file1A") 0).
    vm_compute. reflexivity.
  - apply (proj1 (proj2 (FlatMap_Open_cases
                    (FlatMap.SetBytes FlatMap.empty_fs "dir1/file1A" bytes_12_13_14) "dir"))).
    vm_compute. reflexivity.
Defined.

(** ** [ReadDir] of the flat map *)

Lemma prefix_length (s1 s2 : string) :
  String.prefix s1 s2 = true -> s1 <> s2 -> String.length s1 < String.length s2.
Proof.
  revert s2. induction s1 as [|a s1 IH]; intros [|b s2]; simpl; try congruence; try lia.
  destruct (ascii_dec a b) as [->|]; [|discriminate].
  intros Hp Hne. assert (s1 <> s2) by congruence. specialize (IH s2 Hp H). lia.
Qed.

Lemma FlatMap_ReadDir_entry_returns (dir nm : string) :
  nm <> dir ->
  exists r, FlatMap.ReadDir_entry dir nm = Returns r /\
            (String.prefix dir nm = false -> r = None) /\
            (forall e, r = Some e -> String.prefix dir nm = true).
Proof.
  intros Hne. unfold FlatMap.ReadDir_entry.
  destruct (String.prefix dir nm) eqn:Hp.
  - pose proof (prefix_length dir nm Hp ltac:(congruence)) as Hlen.
    destruct (Nat.ltb_spec (String.length nm) (String.length dir + 1)); [lia|].
    destruct (FlatMap.SplitN2 _) as [piece more]. eexists. split; [reflexivity|].
    split; [discriminate|reflexivity].
  - exists None. split; [reflexivity|]. split; [reflexivity|discriminate].
Qed.

Lemma FlatMap_ReadDir_loop_returns (dir : string) (order : list (string * nat)) :
  (forall kv, In kv order -> fst kv <> dir) ->
  forall em, (forall k e, em !! k = Some e -> name e = k) ->
    exists em', FlatMap.ReadDir_loop dir order em = Returns em' /\
                (forall k e, em' !! k = Some e -> name e = k) /\
                ((forall kv, In kv order -> String.prefix dir (fst kv) = false) -> em' = em) /\
                (em' = ∅ -> em = ∅).
Proof.
  induction order as [|kv order IH]; intros Hkeys em Hem.
  - exists em. simpl. auto.
  - destruct (FlatMap_ReadDir_entry_returns dir (fst kv)) as (r & Hr & Hnone & Hsome).
    { apply Hkeys. now left. }
    cbn [FlatMap.ReadDir_loop]. rewrite Hr. destruct r as [entry|].
    + destruct (IH ltac:(intros; apply Hkeys; now right) (<[name entry := entry]> em))
        as (em' & Hl & Hinv & Hsame & Hempty).
      { intros k e. destruct (decide (k = name entry)) as [->|Hk].
        - rewrite lookup_insert_eq. now intros [= <-].
        - rewrite lookup_insert_ne by congruence. apply Hem. }
      exists em'. split; [exact Hl|]. split; [exact Hinv|]. split.
      * intros Hall. specialize (Hall kv (or_introl eq_refl)).
        rewrite (Hsome entry eq_refl) in Hall. discriminate.
      * intros He. specialize (Hempty He). exfalso.
        apply (insert_non_empty em (name entry) entry). exact Hempty.
    + destruct (IH ltac:(intros; apply Hkeys; now right) em Hem)
        as (em' & Hl & Hinv & Hsame & Hempty).
      exists em'. split; [exact Hl|]. split; [exact Hinv|]. split; [|exact Hempty].
      intros Hall. apply Hsame. intros kv' Hin. apply Hall. now right.
Qed.

Lemma strict_entries (es : list dirEntry) :
  List.NoDup (map name es) -> Sorted (ascending entry_less) es ->
  Sorted (fun e1 e2 => String.ltb (name e1) (name e2) = true) es.
Proof.
  induction es as [|a es IH]; intros Hnd Hs; [constructor|].
  simpl in Hnd. inversion Hnd as [|? ? Hnotin Hnd']; subst.
  inversion Hs as [|? ? Hs' Hhd]; subst.
  constructor; [now apply IH|].
  destruct Hhd as [|b l' Hab]; constructor.
  apply ltb_of_ascending; [exact Hab|]. intros E. apply Hnotin. simpl. now left.
Qed.

(** X23.  [ReadDir] of the flat map, in whatever order the map is
    visited: it never panics (the slice [name[n+1:]] is always in range);
    it fails with [ErrNotFound] when [dir] is a file and when no key has
    [dir] as a prefix; and a listing it returns is not empty and strictly
    ascending in the names, so no name is listed twice. *)
Theorem FlatMap_ReadDir_cases (fs : FlatMap.MemFS) (order : list (string * nat))
    (dir : string) :
  Permutation order (map_to_list (FlatMap.m fs)) ->
  FlatMap.ReadDir fs order dir <> Panics /\
  (FlatMap.m fs !! dir <> None ->
   FlatMap.ReadDir fs order dir = Returns (None, Some ErrNotFound)) /\
  ((forall key buf, FlatMap.m fs !! key = Some buf -> String.prefix dir key = false) ->
   FlatMap.ReadDir fs order dir = Returns (None, Some ErrNotFound)) /\
  (forall es, FlatMap.ReadDir fs order dir = Returns (Some es, None) ->
     es <> [] /\ Sorted (fun e1 e2 => String.ltb (name e1) (name e2) = true) es).
Proof.
  intros Hperm.
  assert (Hkey : forall kv, In kv order -> FlatMap.m fs !! fst kv = Some (snd kv)).
  { intros [k v] Hin. apply (Permutation_in _ Hperm) in Hin.
    apply list_elem_of_In in Hin. now apply elem_of_map_to_list in Hin. }
  unfold FlatMap.ReadDir.
  destruct (FlatMap.m fs !! dir) as [buf|] eqn:Hdir.
  { split; [discriminate|]. split; [reflexivity|]. split; [reflexivity|]. intros es [=]. }
  destruct (FlatMap_ReadDir_loop_returns dir order) with (em := (∅ : gmap string dirEntry))
    as (em' & Hl & Hinv & Hsame & _).
  { intros kv Hin E. specialize (Hkey kv Hin). rewrite E in Hkey. congruence. }
  { intros k e. rewrite lookup_empty. discriminate. }
  rewrite Hl. split; [|split; [congruence|split]].
  - destruct (map_to_list em'); discriminate.
  - intros Hall. rewrite Hsame.
    + now rewrite map_to_list_empty.
    + intros kv Hin. apply (Hall (fst kv) (snd kv)). now apply Hkey.
  - intros es. destruct (map_to_list em') as [|e l] eqn:El; [discriminate|].
    intros Hes. injection Hes as Hes.
    assert (Hp : Permutation es (map snd (e :: l))).
    { rewrite <- Hes. apply (sort_by_perm entry_less (map snd (e :: l))). }
    assert (Hsd : Sorted (ascending entry_less) es).
    { rewrite <- Hes.
      exact (sort_by_sorted entry_less (fun a b => ltb_asym (name a) (name b))
               (map snd (e :: l))). }
    clear Hes. split.
    + intros E. rewrite E in Hp. apply Permutation_nil in Hp. discriminate.
    + apply strict_entries; [|exact Hsd].
      apply (Permutation_NoDup (Permutation_sym (Permutation_map name Hp))).
      assert (Hn : map name (map snd (e :: l)) = map fst (e :: l)).
      { rewrite map_map. apply map_ext_in. intros [k x] Hin. simpl.
        apply Hinv. apply elem_of_map_to_list. rewrite El. now apply list_elem_of_In. }
      rewrite Hn, <- El. apply NoDup_ListNoDup. apply NoDup_fst_map_to_list.
Qed.

Lemma FlatMap_ReadDir_cases_witness :
  let fs := FlatMap.SetBytes (FlatMap.SetBytes FlatMap.empty_fs "dir2/dir3/file3A" [])
              "dir2/file2A" [] in
  FlatMap.ReadDir fs (map_to_list (FlatMap.m fs)) "dir2" <> Panics /\
  FlatMap.ReadDir fs (map_to_list (FlatMap.m fs)) "dir2/file2A"
    = Returns (None, Some ErrNotFound).
Proof.
  cbv zeta.
  destruct (FlatMap_ReadDir_cases
              (FlatMap.SetBytes (FlatMap.SetBytes FlatMap.empty_fs "dir2/dir3/file3A" [])
                 "dir2/file2A" [])
              (map_to_list (FlatMap.m
                 (FlatMap.SetBytes (FlatMap.SetBytes FlatMap.empty_fs "dir2/dir3/file3A" [])
                    "dir2/file2A" [])))
              "dir2" (Permutation_refl _)) as (H1 & _).
  split; [exact H1|].
  destruct (FlatMap_ReadDir_cases
              (FlatMap.SetBytes (FlatMap.SetBytes FlatMap.empty_fs "dir2/dir3/file3A" [])
                 "dir2/file2A" [])
              (map_to_list (FlatMap.m
                 (FlatMap.SetBytes (FlatMap.SetBytes FlatMap.empty_fs "dir2/dir3/file3A" [])
                    "dir2/file2A" [])))
              "dir2/file2A" (Permutation_refl _)) as (_ & H2 & _).
  apply H2. vm_compute. discriminate.
Defined.

(** ** [Top] and [SetBytesMap] of the flat map *)

Lemma FlatMap_Top_fold (fs : FlatMap.MemFS) (order : list (string * nat)) :
  forall nm0 b0 max0,
    let f := fun (acc : string * option (list byte) * nat) (kv : string * nat) =>
               let '(_, _, max) := acc in
               let n := length (FlatMap.content_of fs (snd kv)) in
               if Nat.ltb max n
               then (fst kv, FlatMap.Bytes (FlatMap.content_of fs (snd kv)), n) else acc in
    exists nm b mx,
      fold_left f order (nm0, b0, max0) = (nm, b, mx) /\
      (forall kv, In kv order -> length (FlatMap.content_of fs (snd kv)) <= mx) /\
      max0 <= mx /\
      ((nm, b, mx) = (nm0, b0, max0) \/
       exists kv, In kv order /\ nm = fst kv /\ max0 < mx /\
                  b = Some (FlatMap.content_of fs (snd kv)) /\
                  mx = length (FlatMap.content_of fs (snd kv))).
Proof.
  cbv zeta. induction order as [|kv order IH]; intros nm0 b0 max0.
  - exists nm0, b0, max0. simpl. repeat split; [tauto|lia|now left].
  - cbn [fold_left].
    destruct (Nat.ltb_spec max0 (length (FlatMap.content_of fs (snd kv)))) as [Hlt|Hge].
    + destruct (IH (fst kv) (FlatMap.Bytes (FlatMap.content_of fs (snd kv)))
                  (length (FlatMap.content_of fs (snd kv))))
        as (nm & b & mx & Hf & Hall & Hmx & Hcase).
      exists nm, b, mx. split; [exact Hf|]. split; [|split; [lia|right]].
      * intros kv' [<-|Hin]; [lia|now apply Hall].
      * destruct Hcase as [[= -> -> ->]|(kv' & Hin & -> & Hlt' & -> & ->)].
        -- exists kv. split; [now left|]. repeat split; try lia.
           destruct (FlatMap.content_of fs (snd kv)); [simpl in Hlt; lia|reflexivity].
        -- exists kv'. split; [now right|]. repeat split; lia.
    + destruct (IH nm0 b0 max0) as (nm & b & mx & Hf & Hall & Hmx & Hcase).
      exists nm, b, mx. split; [exact Hf|]. split; [|split; [lia|]].
      * intros kv' [<-|Hin]; [lia|now apply Hall].
      * destruct Hcase as [Heq|(kv' & Hin & Hrest)]; [now left|right].
        exists kv'. split; [now right|exact Hrest].
Qed.

(** X24.  [Top] returns a longest file, in whatever order the map is
    visited: no file has more bytes than the bytes it returns; bytes it
    returns are the content of the file it names; and it returns no name
    and the nil slice exactly when every file is empty. *)
Theorem FlatMap_Top_longest (fs : FlatMap.MemFS) (order : list (string * nat)) :
  Permutation order (map_to_list (FlatMap.m fs)) ->
  let '(nm, b) := FlatMap.Top fs order in
  (forall key buf, FlatMap.m fs !! key = Some buf ->
     length (FlatMap.content_of fs buf) <= length (match b with Some c => c | None => [] end)) /\
  (forall c, b = Some c ->
     c <> [] /\ exists buf, FlatMap.m fs !! nm = Some buf /\ FlatMap.content_of fs buf = c) /\
  (b = None -> nm = EmptyString).
Proof.
  intros Hperm. unfold FlatMap.Top.
  destruct (FlatMap_Top_fold fs order EmptyString None 0)
    as (nm & b & mx & Hf & Hall & _ & Hcase).
  cbv zeta in Hf. rewrite Hf.
  assert (Hkey : forall kv, In kv order <-> FlatMap.m fs !! fst kv = Some (snd kv)).
  { intros [k v]. rewrite <- elem_of_map_to_list, <- list_elem_of_In. simpl.
    now rewrite Hperm. }
  destruct Hcase as [[= -> -> ->]|(kv & Hin & -> & Hlt & -> & ->)].
  - split; [|split; [discriminate|reflexivity]].
    intros key buf Hk. apply (Hall (key, buf)). now apply Hkey.
  - split; [|split; [|discriminate]].
    + intros key buf Hk. apply (Hall (key, buf)). now apply Hkey.
    + intros c [= <-]. split.
      * intros E. rewrite E in Hlt. simpl in Hlt. lia.
      * exists (snd kv). split; [now apply Hkey|reflexivity].
Qed.

Lemma FlatMap_Top_longest_witness :
  let fs := FlatMap.SetBytes (FlatMap.SetBytes FlatMap.empty_fs "file1" bytes_12_13_14)
              "file2" bytes_15_16 in
  let '(nm, b) := FlatMap.Top fs (map_to_list (FlatMap.m fs)) in
  (forall key buf, FlatMap.m fs !! key = Some buf ->
     length (FlatMap.content_of fs buf) <= length (match b with Some c => c | None => [] end)) /\
  (forall c, b = Some c ->
     c <> [] /\ exists buf, FlatMap.m fs !! nm = Some buf /\ FlatMap.content_of fs buf = c) /\
  (b = None -> nm = EmptyString).
Proof.
  exact (FlatMap_Top_longest
           (FlatMap.SetBytes (FlatMap.SetBytes FlatMap.empty_fs "file1" bytes_12_13_14)
              "file2" bytes_15_16)
           _ (Permutation_refl _)).
Defined.

Lemma FlatMap_SetBytesMap_fold (order : list (string * list byte)) :
  forall fs, FlatMap.valid fs = true -> List.NoDup (map fst order) ->
    let fs' := FlatMap.SetBytesMap fs order in
    FlatMap.valid fs' = true /\
    (forall kv, In kv order ->
       FlatMap.TryGetBytes fs' (fst kv) = (FlatMap.Bytes (snd kv), true)) /\
    (forall k, ~ In k (map fst order) -> FlatMap.TryGetBytes fs' k = FlatMap.TryGetBytes fs k).
Proof.
  induction order as [|[k0 b0] order IH]; intros fs Hv Hnd; cbv zeta.
  - simpl. split; [assumption|]. split; [tauto|reflexivity].
  - simpl in Hnd. inversion Hnd as [|? ? Hnotin Hnd']; subst.
    destruct (FlatMap_SetBytes_spec fs k0 b0 Hv) as (Htry & _ & _ & Hv1 & Hother).
    destruct (IH (FlatMap.SetBytes fs k0 b0) Hv1 Hnd') as (Hv' & Hin' & Hout').
    change (FlatMap.SetBytesMap fs ((k0, b0) :: order))
      with (FlatMap.SetBytesMap (FlatMap.SetBytes fs k0 b0) order).
    split; [exact Hv'|]. split.
    + intros kv [<-|Hin]; [|now apply Hin'].
      simpl. rewrite (Hout' k0 Hnotin). exact Htry.
    + intros k Hk. simpl in Hk. rewrite Hout' by tauto.
      apply Hother. intros ->. apply Hk. now left.
Qed.

(** X25.  [SetBytesMap] stores every entry of its argument, in whatever
    order the argument is visited: afterwards each name of the argument
    holds the bytes the argument gives it, and every other name is as
    before. *)
Theorem FlatMap_SetBytesMap_stores_all (fs : FlatMap.MemFS) (arg : gmap string (list byte))
    (order : list (string * list byte)) :
  FlatMap.valid fs = true ->
  Permutation order (map_to_list arg) ->
  let fs' := FlatMap.SetBytesMap fs order in
  (forall nm b, arg !! nm = Some b -> FlatMap.TryGetBytes fs' nm = (FlatMap.Bytes b, true)) /\
  (forall nm, arg !! nm = None -> FlatMap.TryGetBytes fs' nm = FlatMap.TryGetBytes fs nm).
Proof.
  intros Hv Hperm. cbv zeta.
  assert (Hnd : List.NoDup (map fst order)).
  { apply (Permutation_NoDup (Permutation_sym (Permutation_map fst Hperm))).
    apply NoDup_ListNoDup. apply NoDup_fst_map_to_list. }
  destruct (FlatMap_SetBytesMap_fold order fs Hv Hnd) as (_ & Hin & Hout). split.
  - intros nm b Hnm. apply (Hin (nm, b)).
    apply (Permutation_in _ (Permutation_sym Hperm)).
    apply list_elem_of_In. now apply elem_of_map_to_list.
  - intros nm Hnm. apply Hout. intros Hin'. apply in_map_iff in Hin' as ([k b] & <- & Hkb).
    apply (Permutation_in _ Hperm) in Hkb. apply list_elem_of_In in Hkb.
    apply elem_of_map_to_list in Hkb. simpl in Hnm. congruence.
Qed.

Lemma FlatMap_SetBytesMap_stores_all_witness :
  let arg : gmap string (list byte) :=
    <["file1" := bytes_11_12_13]> (<["file2" := bytes_15_16]> ∅) in
  let fs' := FlatMap.SetBytesMap FlatMap.empty_fs (map_to_list arg) in
  (forall nm b, arg !! nm = Some b -> FlatMap.TryGetBytes fs' nm = (FlatMap.Bytes b, true)) /\
  (forall nm, arg !! nm = None ->
              FlatMap.TryGetBytes fs' nm = FlatMap.TryGetBytes FlatMap.empty_fs nm).
Proof.
  exact (FlatMap_SetBytesMap_stores_all FlatMap.empty_fs _ _ eq_refl (Permutation_refl _)).
Defined.

(** ** The printed form of a directory entry *)

Lemma append_String (c : ascii) (s t : string) :
  (String c s ++ t)%string = String c (s ++ t)%string.
Proof. reflexivity. Qed.

Lemma append_paren_inj (s t : string) :
  (s ++ ")")%string = (t ++ ")")%string -> s = t.
Proof.
  revert t. induction s as [|c s IH]; intros [|d t] H.
  - reflexivity.
  - rewrite append_String in H. change (EmptyString ++ ")")%string with ")"%string in H.
    injection H as _ H. destruct t; discriminate H.
  - rewrite append_String in H. change (EmptyString ++ ")")%string with ")"%string in H.
    injection H as _ H. destruct s; discriminate H.
  - rewrite !append_String in H. injection H as -> H. f_equal. now apply IH.
Qed.

(** X26.  [dirEntry.String] tells entries apart: two entries (or the nil
    entry) print the same text only when they are equal. *)
Theorem entry_String_injective (e1 e2 : option dirEntry) :
  entry_String e1 = entry_String e2 <-> e1 = e2.
Proof.
  split; [|now intros ->].
  destruct e1 as [[n1 [|]]|], e2 as [[n2 [|]]|]; unfold entry_String; cbn [isDir name];
    rewrite ?append_String; change (fun x => (EmptyString ++ x)%string) with (fun x : string => x);
    intros H; try discriminate H; try reflexivity.
  - injection H as H. change (EmptyString ++ ?x)%string with x in H.
    now rewrite (append_paren_inj _ _ H).
  - injection H as H. change (EmptyString ++ ?x)%string with x in H.
    now rewrite (append_paren_inj _ _ H).
Qed.
